(** * Mutation instructions, typed-array interop and the reconciliation core

    A shallow embedding of
    - [ABI35_0_0ShadowViewMutation.cpp]: the five factory functions of
      [ShadowViewMutation];
    - [TypedArrayApi.h]: the kind/name tables of [TypedArrayBase] and
      [arrayBufferUpdate], then the methods of [TypedArrayBase] and
      [TypedArray<T>] and the other free functions, over the part of [jsi]
      they call;
    and, built on the mutation record, of the differ and applier that the
    specification describes around them. *)

From Stdlib Require Import ZArith NArith Lia.
From Stdlib.Strings Require Import Byte.
From stdpp Require Import base option strings list gmap vector.

Local Open Scope Z_scope.

(* ===================================================================== *)
(** * ShadowViewMutation.cpp *)
(* ===================================================================== *)

Module ShadowViewMutation.

(** The enumeration [ShadowViewMutation::Type]. *)
Inductive Type_ := Create | Delete | Insert | Remove | Update.

#[global] Instance Type_eq_dec : EqDecision Type_.
Proof. solve_decision. Defined.

Section Mutation.
(** [ShadowView] is declared in a header outside the translated files: it
    is a parameter here, together with the value a member of that type
    takes when a designated initializer list leaves it out. *)
Context {ShadowView : Type}.
Variable emptyShadowView : ShadowView.

(** The aggregate the factories fill in.  [index] is a C++ [int]. *)
Record ShadowViewMutation := mkMutation {
  type : Type_;
  parentShadowView : ShadowView;
  oldChildShadowView : ShadowView;
  newChildShadowView : ShadowView;
  index : Z
}.

Definition CreateMutation (shadowView : ShadowView) : ShadowViewMutation :=
  {| type := Create;
     parentShadowView := emptyShadowView;
     oldChildShadowView := emptyShadowView;
     newChildShadowView := shadowView;
     index := -1 |}.

Definition DeleteMutation (shadowView : ShadowView) : ShadowViewMutation :=
  {| type := Delete;
     parentShadowView := emptyShadowView;
     oldChildShadowView := shadowView;
     newChildShadowView := emptyShadowView;
     index := -1 |}.

Definition InsertMutation (parentShadowView childShadowView : ShadowView)
    (index : Z) : ShadowViewMutation :=
  {| type := Insert;
     parentShadowView := parentShadowView;
     oldChildShadowView := emptyShadowView;
     newChildShadowView := childShadowView;
     index := index |}.

Definition RemoveMutation (parentShadowView childShadowView : ShadowView)
    (index : Z) : ShadowViewMutation :=
  {| type := Remove;
     parentShadowView := parentShadowView;
     oldChildShadowView := childShadowView;
     newChildShadowView := emptyShadowView;
     index := index |}.

Definition UpdateMutation
    (parentShadowView oldChildShadowView newChildShadowView : ShadowView)
    (index : Z) : ShadowViewMutation :=
  {| type := Update;
     parentShadowView := parentShadowView;
     oldChildShadowView := oldChildShadowView;
     newChildShadowView := newChildShadowView;
     index := index |}.
End Mutation.

Arguments ShadowViewMutation : clear implicits.
Arguments mkMutation {ShadowView}.

End ShadowViewMutation.

(* ===================================================================== *)
(** * TypedArrayApi.h *)
(* ===================================================================== *)

Module TypedArrayApi.

Inductive TypedArrayKind :=
  | Int8Array
  | Int16Array
  | Int32Array
  | Uint8Array
  | Uint8ClampedArray
  | Uint16Array
  | Uint32Array
  | Float32Array
  | Float64Array.

(** What a [throw] carries: the exception class and its message. *)
Inductive exception :=
  | runtime_error (what : string)
  | JSError (message : string).

Definition getTypedArrayConstructorName (kind : TypedArrayKind) : string :=
  match kind with
  | Int8Array => "Int8Array"
  | Int16Array => "Int16Array"
  | Int32Array => "Int32Array"
  | Uint8Array => "Uint8Array"
  | Uint8ClampedArray => "Uint8ClampedArray"
  | Uint16Array => "Uint16Array"
  | Uint32Array => "Uint32Array"
  | Float32Array => "Float32Array"
  | Float64Array => "Float64Array"
  end.

Definition getTypedArrayKindForName (name : string)
    : exception + TypedArrayKind :=
  if String.eqb name "Int8Array" then inr Int8Array
  else if String.eqb name "Int16Array" then inr Int16Array
  else if String.eqb name "Int32Array" then inr Int32Array
  else if String.eqb name "Uint8Array" then inr Uint8Array
  else if String.eqb name "Uint8ClampedArray" then inr Uint8ClampedArray
  else if String.eqb name "Uint16Array" then inr Uint16Array
  else if String.eqb name "Uint32Array" then inr Uint32Array
  else if String.eqb name "Float32Array" then inr Float32Array
  else if String.eqb name "Float64Array" then inr Float64Array
  else inl (runtime_error "unknown type").

(** The nine enumerators, in declaration order. *)
Definition allKinds : list TypedArrayKind :=
  [Int8Array; Int16Array; Int32Array; Uint8Array; Uint8ClampedArray;
   Uint16Array; Uint32Array; Float32Array; Float64Array].

(** ** [arrayBufferUpdate]

    The runtime's memory is a flat store of bytes by address; a
    [jsi::ArrayBuffer] is the address of its data block and its size. *)
Definition memory := gmap N byte.

Record ArrayBuffer := {
  data : N;      (* buffer.data(runtime)  *)
  size : N       (* buffer.size(runtime)  *)
}.

(** [std::copy(first, last, d_first)]: element [i] of the source range is
    stored at [d_first + i]; nothing confines the writes to a block. *)
Fixpoint copy (src : list byte) (d_first : N) (mem : memory) : memory :=
  match src with
  | [] => mem
  | b :: rest => copy rest (N.succ d_first) (<[d_first := b]> mem)
  end.

Definition arrayBufferUpdate (mem : memory) (buffer : ArrayBuffer)
    (data_ : list byte) (offset : N) : exception + memory :=
  let dataBlock := data buffer in
  let blockSize := size buffer in
  if (blockSize <? N.of_nat (length data_))%N
  then inl (JSError "ArrayBuffer is to small to fit data")
  else inr (copy data_ (dataBlock + offset)%N mem).

Definition throws {A} (r : exception + A) : bool :=
  match r with inl _ => true | inr _ => false end.

End TypedArrayApi.

(* ===================================================================== *)
(** * The reconciliation core: snapshots, differ, applier *)
(* ===================================================================== *)

Module Reconciler.
Import ShadowViewMutation.

(** Node identity (a tag) and the component/type discriminator. *)
Definition Tag := Z.
Definition ComponentType := string.

(** Host handles: integer handles into the host's arena. *)
Definition Handle := nat.

(** Modelled from the spec: the differ's two input faults (section 7);
    the differ itself is not among the translated files. *)
Inductive DiffError := MalformedInputError | TypeMismatchUnderIdentity.

(** Modelled from the spec: the three faults of the applier (section 7);
    the applier itself is not among the translated files. *)
Inductive ApplyError := HostAllocationError | IndexOutOfRange | UnknownIdentity.

Section Model.
Context {Props : Type}.
(** The injected comparator of property bags, and the property bag of a
    value-initialised snapshot. *)
Variable contentEquals : Props -> Props -> bool.
Variable emptyProps : Props.

(** Modelled from the spec: the per-node ViewSnapshot of section 3
    (identity, type discriminator, opaque property bag, ordered child
    identities); its declaration is not among the translated files. *)
Record ViewSnapshot := mkSnapshot {
  identity : Tag;
  component : ComponentType;
  props : Props;
  children : list Tag
}.

(** Modelled from the spec: a snapshot tree (section 3).  The parent/child
    relation "forms a tree (no cycles, single root)", so the node table is
    kept in its unfolded form, every node together with its ordered
    children; what remains of well-formedness is that identities are
    unique ([wellFormed]).  The tag of a node is a positive number: 0 is
    the tag of the value-initialised snapshot, which names no node.  The
    tree type is not among the translated files. *)
#[warnings="-register-all"]
Inductive Tree := Node (id : positive) (ty : ComponentType) (p : Props) (kids : list Tree).

Definition rootId (t : Tree) : Tag := let 'Node id _ _ _ := t in Z.pos id.
Definition rootType (t : Tree) : ComponentType := let 'Node _ ty _ _ := t in ty.
Definition rootProps (t : Tree) : Props := let 'Node _ _ p _ := t in p.
Definition subtrees (t : Tree) : list Tree := let 'Node _ _ _ kids := t in kids.

(** The table entry of a tree's root. *)
Definition snapshot (t : Tree) : ViewSnapshot :=
  {| identity := rootId t;
     component := rootType t;
     props := rootProps t;
     children := rootId <$> subtrees t |}.

(** Every node of a tree, parents before children, siblings in order. *)
Fixpoint nodes (t : Tree) : list Tree :=
  t :: (subtrees t ≫= nodes).

Definition ids (t : Tree) : list Tag := rootId <$> nodes t.

(** Modelled from the spec: [lookup(tree, identity) -> ViewSnapshot |
    not-found] of section 4.1, here returning the node with its subtree. *)
Definition lookup (t : Tree) (x : Tag) : option Tree :=
  List.find (fun n => bool_decide (rootId n = x)) (nodes t).

(** Modelled from the spec: well-formedness of one snapshot tree
    (sections 3 and 6): with cycles and several roots excluded by the tree
    type, every identity occurs once. *)
Definition wellFormed (t : Tree) : bool := bool_decide (NoDup (ids t)).

(** A mutation instruction is the translated [ShadowViewMutation] over
    snapshots; the five factories build it. *)
Definition Instruction := ShadowViewMutation ViewSnapshot.

(** The value-initialised snapshot.  As the parent operand of an
    instruction it stands for the root container of the host, the view
    that holds the view of the root. *)
Definition emptySnapshot : ViewSnapshot :=
  {| identity := 0; component := ""; props := emptyProps; children := [] |}.

Definition Create_ := CreateMutation emptySnapshot.
Definition Delete_ := DeleteMutation emptySnapshot.
Definition Insert_ := InsertMutation emptySnapshot.
Definition Remove_ := RemoveMutation emptySnapshot.
Definition Update_ := @UpdateMutation ViewSnapshot.

(** *** Differ (section 4.2) *)

(** Position of the child with identity [x] in a child list. *)
Fixpoint indexOf (x : Tag) (ts : list Tree) : option nat :=
  match ts with
  | [] => None
  | k :: rest => if bool_decide (rootId k = x) then Some 0%nat
                 else S <$> indexOf x rest
  end.

(** Modelled from the spec: which children of a parent keep their place
    (rule 4 of section 4.2, "present in both but at different positions",
    read with scenarios A and D of section 8).  The new child list is
    walked left to right; a child found in the old list stays when it does
    not lie before the last child that stayed, and is moved otherwise. *)
Fixpoint stayed (olds : list Tree) (lastPlaced : nat) (news : list Tree) : list Tag :=
  match news with
  | [] => []
  | k :: rest =>
      match indexOf (rootId k) olds with
      | Some i => if (lastPlaced <=? i)%nat
                  then rootId k :: stayed olds i rest
                  else stayed olds lastPlaced rest
      | None => stayed olds lastPlaced rest
      end
  end.

(** Modelled from the spec: the children that keep their place under a
    parent (rule 4): those that the old and the new node of one identity
    both list, in the same relative order ([stayed]); none when the parent
    is in one tree only. *)
Definition kept (old new : option Tree) : list Tag :=
  match old, new with
  | Some o, Some n => stayed (subtrees o) 0 (subtrees n)
  | _, _ => []
  end.

(** Modelled from the spec: the Removes and Deletes (rules 3 and 4 of
    section 4.2, "Removes first (deepest children before their parent,
    within the removed subtree: Delete bottom-up)").  The old children of a
    parent are visited from the last position to the first; each one first
    has its own children visited, then, unless it stays, leaves by a Remove
    at its prior position, followed by a Delete when its identity is
    nowhere in the new tree.  A child whose identity is in the new tree,
    under this parent or another, keeps its view: it is never deleted. *)
Fixpoint detachAll (below : Tree -> list Instruction) (parent : ViewSnapshot)
    (keep newIds : list Tag) (olds : list Tree) (i : nat) : list Instruction :=
  match olds with
  | [] => []
  | o :: rest =>
      detachAll below parent keep newIds rest (S i) ++ below o ++
      (if bool_decide (rootId o ∈ keep) then []
       else if bool_decide (rootId o ∈ newIds)
            then [Remove_ parent (snapshot o) (Z.of_nat i)]
            else [Remove_ parent (snapshot o) (Z.of_nat i); Delete_ (snapshot o)])
  end.

Fixpoint detach (newTree : Tree) (o : Tree) : list Instruction :=
  detachAll (detach newTree) (snapshot o)
    (kept (Some o) (lookup newTree (rootId o))) (ids newTree) (subtrees o) 0.

(** Modelled from the spec: the Updates (rule 1): a node whose identity
    is in both trees and whose property bag differs per the comparator is
    updated in place, after the nodes below it. *)
Fixpoint updatesAll (below : Z -> Tree -> list Instruction) (news : list Tree)
    (j : nat) : list Instruction :=
  match news with
  | [] => []
  | k :: rest => below (Z.of_nat j) k ++ updatesAll below rest (S j)
  end.

Fixpoint updates (oldTree : Tree) (parent : ViewSnapshot) (index : Z) (n : Tree)
    : list Instruction :=
  updatesAll (updates oldTree (snapshot n)) (subtrees n) 0 ++
  match lookup oldTree (rootId n) with
  | Some o => if contentEquals (rootProps o) (rootProps n) then []
              else [Update_ parent (snapshot o) (snapshot n) index]
  | None => []
  end.

(** Modelled from the spec: the Creates and Inserts (rules 2 and 4,
    "Create top-down before the Insert that places it").  The new children
    of a parent are visited from the first position to the last; each one,
    unless it stays, is inserted at its position, right after its Create
    when its identity is nowhere in the old tree, and then has its own
    children visited.  A child whose identity is in the old tree, under
    this parent or another, is inserted with the view it has: it is never
    created. *)
Fixpoint attachAll (below : Tree -> list Instruction) (parent : ViewSnapshot)
    (keep oldIds : list Tag) (news : list Tree) (j : nat) : list Instruction :=
  match news with
  | [] => []
  | k :: rest =>
      (if bool_decide (rootId k ∈ keep) then []
       else if bool_decide (rootId k ∈ oldIds)
            then [Insert_ parent (snapshot k) (Z.of_nat j)]
            else [Create_ (snapshot k); Insert_ parent (snapshot k) (Z.of_nat j)])
      ++ below k ++ attachAll below parent keep oldIds rest (S j)
  end.

Fixpoint attach (oldTree : Tree) (n : Tree) : list Instruction :=
  attachAll (attach oldTree) (snapshot n)
    (kept (lookup oldTree (rootId n)) (Some n)) (ids oldTree) (subtrees n) 0.

(** Modelled from the spec: "same identity reused across commits with an
    incompatible type discriminator" (section 7). *)
Definition typesAgree (a b : Tree) : bool :=
  forallb (fun n => match lookup a (rootId n) with
                    | Some o => bool_decide (rootType o = rootType n)
                    | None => true
                    end) (nodes b).

(** Modelled from the spec: the three parts of an emitted list, "Removes
    first ..., then Updates, then Creates/Inserts" (section 4.2).  The two
    roots are the one child, old and new, of the host's root container,
    which the value-initialised snapshot stands for. *)
Definition removals (oldTree newTree : Tree) : list Instruction :=
  detachAll (detach newTree) emptySnapshot
    (stayed [oldTree] 0 [newTree])
    (ids newTree) [oldTree] 0.

Definition changes (oldTree newTree : Tree) : list Instruction :=
  updatesAll (updates oldTree emptySnapshot) [newTree] 0.

Definition insertions (oldTree newTree : Tree) : list Instruction :=
  attachAll (attach oldTree) emptySnapshot
    (stayed [oldTree] 0 [newTree])
    (ids oldTree) [newTree] 0.

(** Modelled from the spec: [diff(oldTree, newTree)] (sections 4.2 and 7).
    Malformed input and a type mismatch under one identity are rejected;
    otherwise the three parts are emitted in their order. *)
Definition diff (oldTree newTree : Tree) : DiffError + list Instruction :=
  if negb (wellFormed oldTree && wellFormed newTree)
  then inl MalformedInputError
  else if negb (typesAgree oldTree newTree)
  then inl TypeMismatchUnderIdentity
  else inr (removals oldTree newTree ++ changes oldTree newTree
            ++ insertions oldTree newTree).

(** The node an instruction is about: its new child for Create, Insert
    and Update, its old child for Delete and Remove. *)
Definition subject (m : Instruction) : Tag :=
  match type m with
  | Delete | Remove => identity (oldChildShadowView m)
  | Create | Insert | Update => identity (newChildShadowView m)
  end.

(** *** Applier (section 4.3) *)

(** Modelled from the spec: the host operations of section 6, the only
    points where the core touches the platform.  A primitive that cannot
    do its work reports the fault it failed with. *)
Class Host (H : Type) := {
  createView : ComponentType -> Props -> H -> ApplyError + Handle * H;
  destroyView : Handle -> H -> H;
  attachChild : Handle -> Handle -> Z -> H -> ApplyError + H;
  detachChildAt : Handle -> Z -> H -> ApplyError + Handle * H;
  updateViewContent : Handle -> Props -> H -> H
}.

(** The applier's state: the host tree and the identity map. *)
Record Applier (H : Type) := mkApplier {
  hostTree : H;
  identityMap : gmap Tag Handle
}.
Arguments mkApplier {H}.
Arguments hostTree {H}.
Arguments identityMap {H}.

(** Modelled from the spec: one instruction of [apply] (section 4.3). *)
Definition step {H} `{Host H} (m : Instruction) (st : Applier H)
    : ApplyError + Applier H :=
  match type m with
  | Create =>
      let n := newChildShadowView m in
      match createView (component n) (props n) (hostTree st) with
      | inl e => inl e
      | inr (h, host') =>
          inr (mkApplier host' (<[identity n := h]> (identityMap st)))
      end
  | Delete =>
      let o := oldChildShadowView m in
      match identityMap st !! identity o with
      | None => inl UnknownIdentity
      | Some h =>
          inr (mkApplier (destroyView h (hostTree st))
                         (delete (identity o) (identityMap st)))
      end
  | Insert =>
      match identityMap st !! identity (parentShadowView m),
            identityMap st !! identity (newChildShadowView m) with
      | Some hp, Some hc =>
          match attachChild hp hc (index m) (hostTree st) with
          | inl e => inl e
          | inr host' => inr (mkApplier host' (identityMap st))
          end
      | _, _ => inl UnknownIdentity
      end
  | Remove =>
      match identityMap st !! identity (parentShadowView m) with
      | None => inl UnknownIdentity
      | Some hp =>
          match detachChildAt hp (index m) (hostTree st) with
          | inl e => inl e
          | inr (_, host') => inr (mkApplier host' (identityMap st))
          end
      end
  | Update =>
      match identityMap st !! identity (oldChildShadowView m) with
      | None => inl UnknownIdentity
      | Some h =>
          inr (mkApplier
                 (updateViewContent h (props (newChildShadowView m)) (hostTree st))
                 (identityMap st))
      end
  end.

(** What [apply] reports: the list ran to completion, or it stopped at a
    failing instruction, with the number of instructions that succeeded,
    the index of the failing one, its fault, and the state it left. *)
Inductive ApplyResult (H : Type) :=
  | Applied (st : Applier H)
  | Faulted (succeeded : nat) (failedIndex : nat) (e : ApplyError) (st : Applier H).
Arguments Applied {H}.
Arguments Faulted {H}.

(** Modelled from the spec: [apply(instructions, hostTree, identityMap)]
    (sections 4.3 and 7), strictly in list order; [done] counts the
    instructions already executed. *)
Fixpoint applyFrom {H} `{Host H} (done : nat) (instructions : list Instruction)
    (st : Applier H) : ApplyResult H :=
  match instructions with
  | [] => Applied st
  | m :: rest =>
      match step m st with
      | inl e => Faulted done done e st
      | inr st' => applyFrom (S done) rest st'
      end
  end.

Definition apply {H} `{Host H} (instructions : list Instruction)
    (st : Applier H) : ApplyResult H :=
  applyFrom 0 instructions st.

(** *** An in-memory host *)

(** A host view: its type, its content payload, its attached children. *)
Record View := mkView {
  viewType : ComponentType;
  viewProps : Props;
  viewChildren : list Handle
}.

(** The in-memory host tree: the live views by handle and the next free
    handle of the arena. *)
Record MemoryHost := mkHost {
  views : gmap Handle View;
  nextHandle : Handle
}.

Definition insertAt {A} (i : nat) (x : A) (l : list A) : list A :=
  take i l ++ x :: drop i l.

Definition memCreateView (ty : ComponentType) (p : Props) (h : MemoryHost)
    : ApplyError + Handle * MemoryHost :=
  inr (nextHandle h,
       mkHost (<[nextHandle h := mkView ty p []]> (views h)) (S (nextHandle h))).

Definition memDestroyView (v : Handle) (h : MemoryHost) : MemoryHost :=
  mkHost (delete v (views h)) (nextHandle h).

Definition memAttachChild (parent child : Handle) (i : Z) (h : MemoryHost)
    : ApplyError + MemoryHost :=
  match views h !! parent with
  | None => inl UnknownIdentity
  | Some v =>
      if bool_decide (0 <= i <= Z.of_nat (length (viewChildren v)))
      then inr (mkHost
                  (<[parent := mkView (viewType v) (viewProps v)
                                 (insertAt (Z.to_nat i) child (viewChildren v))]>
                     (views h))
                  (nextHandle h))
      else inl IndexOutOfRange
  end.

Definition memDetachChildAt (parent : Handle) (i : Z) (h : MemoryHost)
    : ApplyError + Handle * MemoryHost :=
  match views h !! parent with
  | None => inl UnknownIdentity
  | Some v =>
      if bool_decide (0 <= i)
      then match viewChildren v !! Z.to_nat i with
           | Some c =>
               inr (c, mkHost
                         (<[parent := mkView (viewType v) (viewProps v)
                                        (delete (Z.to_nat i) (viewChildren v))]>
                            (views h))
                         (nextHandle h))
           | None => inl IndexOutOfRange
           end
      else inl IndexOutOfRange
  end.

Definition memUpdateViewContent (v : Handle) (p : Props) (h : MemoryHost)
    : MemoryHost :=
  mkHost (alter (fun w => mkView (viewType w) p (viewChildren w)) v (views h))
         (nextHandle h).

#[global] Instance memoryHost : Host MemoryHost := {
  createView := memCreateView;
  destroyView := memDestroyView;
  attachChild := memAttachChild;
  detachChildAt := memDetachChildAt;
  updateViewContent := memUpdateViewContent
}.

(** A host tree initialised to a snapshot: one view per node, children
    attached in order, every identity recorded in the identity map.
    Returns the handle of the root's view. *)
Fixpoint mountAll (below : Tree -> Applier MemoryHost -> Handle * Applier MemoryHost)
    (ts : list Tree) (st : Applier MemoryHost) : list Handle * Applier MemoryHost :=
  match ts with
  | [] => ([], st)
  | k :: rest =>
      let '(h, st1) := below k st in
      let '(hs, st2) := mountAll below rest st1 in
      (h :: hs, st2)
  end.

Fixpoint mount (t : Tree) (st : Applier MemoryHost) : Handle * Applier MemoryHost :=
  let '(hs, st1) := mountAll mount (subtrees t) st in
  let h := nextHandle (hostTree st1) in
  (h, mkApplier
        (mkHost (<[h := mkView (rootType t) (rootProps t) hs]> (views (hostTree st1)))
                (S h))
        (<[rootId t := h]> (identityMap st1))).

Definition emptyApplier : Applier MemoryHost := mkApplier (mkHost ∅ 0%nat) ∅.

(** The host tree initialised to the snapshot [t]: the views of [t], and
    the root container holding the view of the root, known to the identity
    map under the identity of the value-initialised snapshot. *)
Definition mountRoot (t : Tree) : Applier MemoryHost :=
  let '(h, st) := mount t emptyApplier in
  let c := nextHandle (hostTree st) in
  mkApplier
    (mkHost (<[c := mkView "" emptyProps [h]]> (views (hostTree st))) (S c))
    (<[identity emptySnapshot := c]> (identityMap st)).

(** The host view [h] and the views below it show the tree [t]: same shape,
    same types, content equal per the comparator, and the identity map
    sends every identity of [t] to its view. *)
Fixpoint showAll (below : Handle -> Tree -> bool) (hs : list Handle)
    (ts : list Tree) {struct ts} : bool :=
  match ts, hs with
  | [], [] => true
  | k :: ts', c :: hs' => below c k && showAll below hs' ts'
  | _, _ => false
  end.

Fixpoint shows (st : Applier MemoryHost) (h : Handle) (t : Tree) {struct t} : bool :=
  match identityMap st !! rootId t, views (hostTree st) !! h with
  | Some h', Some v =>
      bool_decide (h' = h)
      && bool_decide (viewType v = rootType t)
      && contentEquals (viewProps v) (rootProps t)
      && showAll (shows st) (viewChildren v) (subtrees t)
  | _, _ => false
  end.

(** The host tree shows [t]: the root container holds one view, and that
    view shows [t]. *)
Definition showsRoot (st : Applier MemoryHost) (t : Tree) : bool :=
  match identityMap st !! identity emptySnapshot with
  | Some c =>
      match views (hostTree st) !! c with
      | Some v =>
          match viewChildren v with
          | [h] => shows st h t
          | _ => false
          end
      | None => false
      end
  | None => false
  end.

End Model.

Arguments ViewSnapshot : clear implicits.
Arguments Tree : clear implicits.
Arguments Instruction : clear implicits.
Arguments View : clear implicits.
Arguments MemoryHost : clear implicits.
Arguments Host : clear implicits.
Arguments Node {Props}.
Arguments mkApplier {H}.
Arguments hostTree {H}.
Arguments identityMap {H}.
Arguments Applied {H}.
Arguments Faulted {H}.
Arguments mkSnapshot {Props}.

End Reconciler.

(* ===================================================================== *)
(** * The host tree seen by identity *)
(* ===================================================================== *)

(** A second reading of the applier, used to reason about whole runs: the
    host tree keyed by node identity instead of by handle.  [IdentityStoreFacts]
    shows that the in-memory host follows it step by step. *)
Module IdentityStore.
Import ShadowViewMutation Reconciler.

Section Store.
Context {Props : Type}.

(** A live view: its type, its content, the identities of its children. *)
Record Entry := mkEntry {
  entryType : ComponentType;
  entryProps : Props;
  entryKids : list Tag
}.

(** The live views by identity, and every identity that was ever given a
    view. *)
Record Store := mkStore {
  live : gmap Tag Entry;
  used : gset Tag
}.

Definition withKids (e : Entry) (kids : list Tag) : Entry :=
  mkEntry (entryType e) (entryProps e) kids.

Definition withProps (e : Entry) (p : Props) : Entry :=
  mkEntry (entryType e) p (entryKids e).

Definition storeStep (m : Instruction Props) (s : Store) : option Store :=
  match type m with
  | Create =>
      let n := newChildShadowView m in
      if bool_decide (identity n ∈ used s) then None
      else Some (mkStore (<[identity n := mkEntry (component n) (props n) []]> (live s))
                         ({[identity n]} ∪ used s))
  | Delete =>
      let o := oldChildShadowView m in
      match live s !! identity o with
      | None => None
      | Some _ => Some (mkStore (delete (identity o) (live s)) (used s))
      end
  | Insert =>
      match live s !! identity (parentShadowView m),
            live s !! identity (newChildShadowView m) with
      | Some e, Some _ =>
          if bool_decide (0 <= index m <= Z.of_nat (length (entryKids e)))
          then Some (mkStore
                       (<[identity (parentShadowView m) :=
                            withKids e (insertAt (Z.to_nat (index m))
                                          (identity (newChildShadowView m))
                                          (entryKids e))]> (live s))
                       (used s))
          else None
      | _, _ => None
      end
  | Remove =>
      match live s !! identity (parentShadowView m) with
      | None => None
      | Some e =>
          if bool_decide (0 <= index m)
          then match entryKids e !! Z.to_nat (index m) with
               | Some _ =>
                   Some (mkStore
                           (<[identity (parentShadowView m) :=
                                withKids e (delete (Z.to_nat (index m)) (entryKids e))]>
                              (live s))
                           (used s))
               | None => None
               end
          else None
      end
  | Update =>
      match live s !! identity (oldChildShadowView m) with
      | None => None
      | Some e =>
          Some (mkStore
                  (<[identity (oldChildShadowView m) :=
                       withProps e (props (newChildShadowView m))]> (live s))
                  (used s))
      end
  end.

Fixpoint storeRun (l : list (Instruction Props)) (s : Store) : option Store :=
  match l with
  | [] => Some s
  | m :: rest => match storeStep m s with
                 | None => None
                 | Some s' => storeRun rest s'
                 end
  end.

(** The store shows the tree [t]: every node of [t] is live with its type,
    with content related by [R] to the node's, and with the node's children
    in order. *)
#[warnings="-register-all"]
Inductive Shows (R : Props -> Props -> Prop) (s : gmap Tag Entry) : Tree Props -> Prop :=
  | Shows_node (t : Tree Props) (e : Entry) :
      s !! rootId t = Some e ->
      entryType e = rootType t ->
      R (entryProps e) (rootProps t) ->
      entryKids e = rootId <$> subtrees t ->
      Forall (Shows R s) (subtrees t) ->
      Shows R s t.

(** The entry of a node of a tree. *)
Definition entryOf (t : Tree Props) : Entry :=
  mkEntry (rootType t) (rootProps t) (rootId <$> subtrees t).

(** The in-memory host [st] follows the store [s] through the injection
    [g] of identities into handles. *)
Record Follows (g : gmap Tag Handle) (st : Applier (MemoryHost Props)) (s : Store) : Prop := {
  follows_map : forall x, is_Some (live s !! x) -> identityMap st !! x = g !! x;
  follows_view : forall x e, live s !! x = Some e ->
    exists h hs, g !! x = Some h /\
      views (hostTree st) !! h = Some (mkView (entryType e) (entryProps e) hs) /\
      Forall2 (fun c hc => g !! c = Some hc) (entryKids e) hs;
  follows_inj : forall x y h, g !! x = Some h -> g !! y = Some h -> x = y;
  follows_bound : forall x h, g !! x = Some h -> (h < nextHandle (hostTree st))%nat;
  follows_used : forall x, x ∈ used s <-> is_Some (g !! x)
}.

End Store.

Arguments Entry : clear implicits.
Arguments Store : clear implicits.

End IdentityStore.

(* ===================================================================== *)
(** * The words of the properties *)
(* ===================================================================== *)

(** Predicates on instruction lists, on pairs of trees and on runs of the
    identity-keyed store, and the trees the properties are tried on. *)
Module Properties.
Import ShadowViewMutation Reconciler IdentityStore.

Section Lists.
Context {Props : Type}.
Implicit Types (t o n k : Tree Props) (ts olds news : list (Tree Props)).
Implicit Types (m : Instruction Props) (l : list (Instruction Props)).
Implicit Types (x y : Tag).
Implicit Types (g : gmap Tag Handle) (st : Applier (MemoryHost Props)).
Implicit Types (s : Store Props).

(** [Ordered R l]: no instruction of [l] comes before one it must not
    precede according to [R]. *)
Definition Ordered (R : Instruction Props -> Instruction Props -> Prop) l : Prop :=
  forall (i j : nat) m' m,
    l !! i = Some m' -> l !! j = Some m -> (i < j)%nat -> ~ R m' m.

(** A Delete of a node ahead of a Remove of the same node. *)
Definition DeleteBeforeRemove m' m : Prop :=
  type m' = Delete /\ type m = Remove /\ subject m' = subject m.

(** An Insert of a node ahead of a Create of the same node. *)
Definition InsertBeforeCreate m' m : Prop :=
  type m' = Insert /\ type m = Create /\ subject m' = subject m.

(** What mounting establishes, for one tree or a forest. *)
Definition Mounted (ts : list (Tree Props)) g st s g' st' s' : Prop :=
  Follows g' st' s' /\ g ⊆ g' /\
  (forall x, x ∈ used s' <-> x ∈ used s \/ x ∈ ts ≫= ids) /\
  (forall x, x ∉ ts ≫= ids -> live s' !! x = live s !! x) /\
  Forall (Shows eq (live s')) ts.

End Lists.

Section Runs.
Context {Props : Type}.
Variable contentEquals : Props -> Props -> bool.
Variable emptyProps : Props.
Implicit Types (t o n k d : Tree Props) (s : Store Props) (e : Entry Props).

(** The injected comparator as a relation. *)
Definition contentEqual (p q : Props) : Prop := contentEquals p q = true.

(** The entry of the old node [o] once the Removes and Deletes are done:
    its own type and content, and the children that stay under it. *)
Definition detachedEntry (B o : Tree Props) : Entry Props :=
  mkEntry (rootType o) (rootProps o) (kept (Some o) (lookup B (rootId o))).

(** After the Removes and Deletes, an old node is live exactly when its
    identity is in the new tree. *)
Definition Detached (B : Tree Props) (m : gmap Tag (Entry Props)) o : Prop :=
  m !! rootId o = if bool_decide (rootId o ∈ ids B) then Some (detachedEntry B o) else None.

(** The Removes and Deletes below [o] run on every store that shows [o]. *)
Definition DetachRuns (B o : Tree Props) : Prop :=
  NoDup (ids o) -> forall s, Shows eq (live s) o ->
  exists s', storeRun (detach emptyProps B o) s = Some s' /\
    used s' = used s /\
    (forall x, x ∉ ids o -> live s' !! x = live s !! x) /\
    live s' !! rootId o = Some (detachedEntry B o) /\
    Forall (Detached B (live s')) (subtrees o ≫= nodes).

(** The content of the view of the new node [n] once the Updates are
    done, [p] being its content before. *)
Definition updatedProps (A n : Tree Props) (p : Props) : Props :=
  match lookup A (rootId n) with
  | Some o => if contentEquals (rootProps o) (rootProps n) then p else rootProps n
  | None => p
  end.

(** The Updates of [n] and below run on every store in which the nodes
    they update are live. *)
Definition UpdateRuns (A n : Tree Props) : Prop :=
  NoDup (ids n) -> forall (parent : ViewSnapshot Props) (index : Z) s,
  (forall d, d ∈ nodes n -> rootId d ∈ ids A -> is_Some (live s !! rootId d)) ->
  exists s', storeRun (updates contentEquals A parent index n) s = Some s' /\
    used s' = used s /\
    (forall x, x ∉ ids n -> live s' !! x = live s !! x) /\
    (forall d, d ∈ nodes n ->
       live s' !! rootId d =
       (fun e => withProps e (updatedProps A d (entryProps e))) <$> live s !! rootId d).

(** The entry of a node of both trees before the Creates and Inserts. *)
Definition readyEntry (n o : Tree Props) : Entry Props :=
  mkEntry (rootType o)
          (if contentEquals (rootProps o) (rootProps n) then rootProps o else rootProps n)
          (kept (Some o) (Some n)).

(** Before the Creates and Inserts, a new node that is in the old tree is
    live with the children that stay, and one that is not was never given
    a view. *)
Definition Ready (A : Tree Props) s d : Prop :=
  match lookup A (rootId d) with
  | Some o => live s !! rootId d = Some (readyEntry d o)
  | None => rootId d ∉ used s
  end.

(** The Creates and Inserts below [n] run on every store in which [n] is
    live with the children that stay and the nodes below it are ready. *)
Definition AttachRuns (A n : Tree Props) : Prop :=
  NoDup (ids n) ->
  (forall d o, d ∈ nodes n -> lookup A (rootId d) = Some o -> rootType o = rootType d) ->
  forall s e,
    live s !! rootId n = Some e -> entryType e = rootType n ->
    contentEqual (entryProps e) (rootProps n) ->
    entryKids e = kept (lookup A (rootId n)) (Some n) ->
    Forall (Ready A s) (subtrees n ≫= nodes) ->
    exists s', storeRun (attach emptyProps A n) s = Some s' /\
      Shows contentEqual (live s') n /\
      (forall x, x ∉ ids n -> live s' !! x = live s !! x) /\
      (forall x, x ∈ used s' -> x ∈ used s \/ x ∈ subtrees n ≫= ids).

End Runs.

(** A three-level tree with distinct identities. *)
Definition sampleTree : Tree string :=
  Node 1 "Root" "bg=white"
    [Node 2 "Row" "gap=4" [Node 4 "Text" "hello" []; Node 5 "Image" "logo" []];
     Node 3 "Text" "footer" []].

(** Two snapshots of one tree: children 11 and 12 trade places, 13 loses a
    child and changes content, 14 goes away with its child, 16 arrives with
    one. *)
Definition sampleOld : Tree string :=
  Node 1 "Root" ""
    [Node 11 "Text" "a" []; Node 12 "Text" "b" [];
     Node 13 "Row" "c" [Node 131 "Text" "x" []; Node 132 "Text" "y" []];
     Node 14 "Row" "d" [Node 141 "Text" "z" []]].

Definition sampleNew : Tree string :=
  Node 1 "Root" ""
    [Node 12 "Text" "b" []; Node 11 "Text" "a" [];
     Node 13 "Row" "c'" [Node 132 "Text" "y" []];
     Node 16 "Row" "e" [Node 161 "Text" "w" []]].

(** Two snapshots in which identity 2 is a Text first and an Image
    after. *)
Definition retypedOld : Tree string :=
  Node 1 "Root" "" [Node 2 "Text" "a" []].

Definition retypedNew : Tree string :=
  Node 1 "Root" "" [Node 2 "Image" "a" []].

Definition sampleList : list (Instruction string) :=
  Eval vm_compute in
    match diff String.eqb "" sampleOld sampleNew with
    | inr l => l
    | inl _ => []
    end.

End Properties.

(* ===================================================================== *)
(** * TypedArrayApi.h: the typed-array objects *)
(* ===================================================================== *)

(** [TypedArrayBase], [TypedArray<T>] and the free functions of the header,
    over the part of [jsi] they call. *)
Module TypedArrayObjects.
Import TypedArrayApi.

#[global] Instance TypedArrayKind_eq_dec : EqDecision TypedArrayKind.
Proof. solve_decision. Defined.

(** A [throw] leaves every enclosing call: the calls of a function body
    are chained, the first exception ending the chain. *)
Definition bind {A B : Type} (r : exception + A) (k : A -> exception + B)
    : exception + B :=
  match r with
  | inl e => inl e
  | inr a => k a
  end.

Notation "'let!' x := r 'in' k" := (bind r (fun x => k))
  (at level 10, x name, r at level 100, k at level 200).

(** ** What the header takes from <jsi/jsi.h>

    [jsi::Object] is a reference to a JS object and a JS number is a C++
    [double]; both types, and the conversion of a [double] to [size_t]
    that [return ....asNumber();] performs in a function returning
    [size_t], are parameters. *)
Class Jsi := {
  Object : Type;
  double : Type;
  size_t_of : double -> N
}.

Section Runtime.
Context `{Jsi}.

(** [jsi::Value], a tagged union. *)
Inductive Value :=
  | undefined
  | null
  | boolean (b : bool)
  | number (d : double)
  | symbol
  | string_ (utf8 : string)
  | object (o : Object).

(** [jsi::Runtime &runtime]: what the runtime answers to the calls the
    header makes.  Reading a property may throw (an accessor runs JS code);
    [arrayBuffer] is the data block of an object that is an ArrayBuffer;
    [castError v kind] is what [jsi] throws when [v] is asked to be a
    [kind] and is not. *)
Record Runtime := {
  global : Object;
  getProperty : Object -> string -> exception + Value;
  arrayBuffer : Object -> option ArrayBuffer;
  isFunction : Object -> bool;
  callWithThis : Object -> Object -> list Value -> exception + Value;
  castError : Value -> string -> exception
}.

(** The tests and conversions of [jsi::Value] and [jsi::Object]: a
    conversion gives the payload of a value of the kind asked for and
    throws [castError] for any other. *)
Definition isObject (v : Value) : bool :=
  match v with object _ => true | _ => false end.

Definition isBool (v : Value) : bool :=
  match v with boolean _ => true | _ => false end.

Definition asObject (runtime : Runtime) (v : Value) : exception + Object :=
  match v with
  | object o => inr o
  | _ => inl (castError runtime v "Object")
  end.

Definition asString (runtime : Runtime) (v : Value) : exception + string :=
  match v with
  | string_ s => inr s
  | _ => inl (castError runtime v "String")
  end.

Definition asNumber (runtime : Runtime) (v : Value) : exception + double :=
  match v with
  | number d => inr d
  | _ => inl (castError runtime v "number")
  end.

Definition asFunction (runtime : Runtime) (o : Object) : exception + Object :=
  if isFunction runtime o then inr o
  else inl (castError runtime (object o) "function").

Definition isArrayBuffer (runtime : Runtime) (o : Object) : bool :=
  bool_decide (is_Some (arrayBuffer runtime o)).

(** How a call ends when the body holds an [assert]: with a value, with
    an exception, or in [abort()]. *)
Inductive outcome (A : Type) :=
  | Returned (a : A)
  | Thrown (e : exception)
  | Aborted.

End Runtime.

Arguments Value : clear implicits.
Arguments Value {_}.
Arguments Runtime : clear implicits.
Arguments Runtime {_}.
Arguments Returned {A}.
Arguments Thrown {A}.
Arguments Aborted {A}.

(** ** [class TypedArrayBase : public jsi::Object] *)
Module TypedArrayBase.
Section Methods.
Context `{Jsi}.
Implicit Types (runtime later : Runtime) (this obj : Object).

(** [TypedArrayBase(runtime, obj)]: the object [obj] again, through a
    [jsi::Value]. *)
Definition TypedArrayBase runtime obj : exception + Object :=
  asObject runtime (object obj).

Definition getKind runtime this : exception + TypedArrayKind :=
  let! proto := bind (getProperty runtime this "__proto__") (asObject runtime) in
  let! constructor := bind (getProperty runtime proto "constructor") (asObject runtime) in
  let! constructorName := bind (getProperty runtime constructor "name") (asString runtime) in
  getTypedArrayKindForName constructorName.

(** [get<T>() &&].  [NDEBUG] tells whether the build compiles [assert] out. *)
Definition get (NDEBUG : bool) (T : TypedArrayKind) runtime this : outcome Object :=
  if NDEBUG then Returned this
  else
    match getKind runtime this with
    | inl e => Thrown e
    | inr kind => if bool_decide (kind = T) then Returned this else Aborted
    end.

(** [as<T>() &&].  The kind is read twice in a debug build: by the test
    of [as<T>], and again by the [assert] of [get<T>].  A property read
    runs JS code (an accessor, a proxy trap), so the second read need not
    answer as the first did: [runtime] is the runtime as it answers the
    test, [later] the runtime as it answers the assertion. *)
Definition as_ (NDEBUG : bool) (T : TypedArrayKind) runtime later this : outcome Object :=
  match getKind runtime this with
  | inl e => Thrown e
  | inr kind =>
      if bool_decide (kind <> T) then Thrown (JSError "Object is not a TypedArray")
      else get NDEBUG T later this
  end.

Definition size runtime this : exception + N :=
  let! d := bind (getProperty runtime this "length") (asNumber runtime) in
  inr (size_t_of d).

Definition length runtime this : exception + N :=
  let! d := bind (getProperty runtime this "length") (asNumber runtime) in
  inr (size_t_of d).

Definition byteLength runtime this : exception + N :=
  let! d := bind (getProperty runtime this "byteLength") (asNumber runtime) in
  inr (size_t_of d).

Definition byteOffset runtime this : exception + N :=
  let! d := bind (getProperty runtime this "byteOffset") (asNumber runtime) in
  inr (size_t_of d).

(** [buffer.isObject() && buffer.asObject(runtime).isArrayBuffer(runtime)] *)
Definition isObjectArrayBuffer runtime (buffer : Value) : bool :=
  isObject buffer &&
  match buffer with
  | object o => isArrayBuffer runtime o
  | _ => false
  end.

Definition hasBuffer runtime this : exception + bool :=
  let! buffer := getProperty runtime this "buffer" in
  inr (isObjectArrayBuffer runtime buffer).

(** The same test as in [hasBuffer], then [getArrayBuffer] on the object
    or the [throw]. *)
Definition getBuffer runtime this : exception + ArrayBuffer :=
  let! buffer := getProperty runtime this "buffer" in
  match buffer with
  | object o =>
      match arrayBuffer runtime o with
      | Some block => inr block
      | None => inl (runtime_error "no ArrayBuffer attached")
      end
  | _ => inl (runtime_error "no ArrayBuffer attached")
  end.

End Methods.
End TypedArrayBase.

(** ** The free functions *)
Section Functions.
Context `{Jsi}.
Implicit Types (runtime : Runtime) (jsObj : Object) (mem : memory).

Definition isTypedArray runtime jsObj : exception + bool :=
  let! jsVal :=
    (let! ArrayBuffer_ :=
       bind (getProperty runtime (global runtime) "ArrayBuffer") (asObject runtime) in
     let! isView :=
       bind (bind (getProperty runtime ArrayBuffer_ "isView") (asObject runtime))
            (asFunction runtime) in
     callWithThis runtime isView (global runtime) [object jsObj]) in
  match jsVal with
  | boolean b => inr b
  | _ => inl (runtime_error "value is not a boolean")
  end.

Definition getTypedArray runtime jsObj : exception + Object :=
  let! jsVal :=
    (let! ArrayBuffer_ :=
       bind (getProperty runtime (global runtime) "ArrayBuffer") (asObject runtime) in
     let! isView :=
       bind (bind (getProperty runtime ArrayBuffer_ "isView") (asObject runtime))
            (asFunction runtime) in
     callWithThis runtime isView (global runtime) [object jsObj]) in
  if isBool jsVal then TypedArrayBase.TypedArrayBase runtime jsObj
  else inl (runtime_error "value is not a boolean").

(** [std::vector<uint8_t>(first, first + n)]: the [n] bytes from address
    [first] on; [None] when one of them is outside the memory in [mem],
    where the read has no defined result. *)
Fixpoint range (mem : memory) (first : N) (n : nat) : option (list byte) :=
  match n with
  | O => Some []
  | S k =>
      b ← mem !! first;
      rest ← range mem (N.succ first) k;
      Some (b :: rest)
  end.

Definition arrayBufferToVector runtime mem jsObj : exception + option (list byte) :=
  match arrayBuffer runtime jsObj with
  | None => inl (runtime_error "Object is not an ArrayBuffer")
  | Some jsArrayBuffer =>
      let dataBlock := data jsArrayBuffer in
      let! d := bind (getProperty runtime jsObj "byteLength") (asNumber runtime) in
      let blockSize := size_t_of d in
      inr (range mem dataBlock (N.to_nat blockSize))
  end.

End Functions.

(** ** [template <TypedArrayKind T> class TypedArray] *)

(** The C++ types [typedArrayTypeMap] names. *)
Inductive ctype :=
  | int8_t | int16_t | int32_t | uint8_t | uint16_t | uint32_t | float | Cdouble.

Definition typedArrayTypeMap (T : TypedArrayKind) : ctype :=
  match T with
  | Int8Array => int8_t
  | Int16Array => int16_t
  | Int32Array => int32_t
  | Uint8Array => uint8_t
  | Uint8ClampedArray => uint8_t
  | Uint16Array => uint16_t
  | Uint32Array => uint32_t
  | Float32Array => float
  | Float64Array => Cdouble
  end.

(** [sizeof], with [float] and [double] the IEEE 754 binary32 and binary64
    of the platforms the library is built for. *)
Definition sizeof (t : ctype) : nat :=
  match t with
  | int8_t | uint8_t => 1
  | int16_t | uint16_t => 2
  | int32_t | uint32_t | float => 4
  | Cdouble => 8
  end.

(** A value of [ContentType<T>] is held as its object representation, the
    [sizeof] bytes it takes in memory. *)
Definition ContentType (T : TypedArrayKind) : Type :=
  vec byte (sizeof (typedArrayTypeMap T)).

Module TypedArray.
Section Methods.
Context `{Jsi}.
Implicit Types (runtime : Runtime) (this : Object) (mem : memory).

(** [std::copy] through a [ContentType<T> *]: element [i] goes to the
    [n] bytes at [d_first + i * n]. *)
Fixpoint copyElements {n : nat} (src : list (vec byte n)) (d_first : N)
    (mem : memory) : memory :=
  match src with
  | [] => mem
  | e :: rest => copyElements rest (d_first + N.of_nat n) (copy (vec_to_list e) d_first mem)
  end.

(** One element read through a [ContentType<T> *]. *)
Fixpoint element (mem : memory) (first : N) (n : nat) : option (vec byte n) :=
  match n with
  | O => Some [#]
  | S k =>
      b ← mem !! first;
      rest ← element mem (N.succ first) k;
      Some (b ::: rest)
  end.

(** [std::vector<ContentType<T>>(start, start + count)]. *)
Fixpoint rangeElements (n : nat) (mem : memory) (start : N) (count : nat)
    : option (list (vec byte n)) :=
  match count with
  | O => Some []
  | S k =>
      e ← element mem start n;
      rest ← rangeElements n mem (start + N.of_nat n) k;
      Some (e :: rest)
  end.

(** In [getBuffer(runtime).data(runtime) + byteOffset(runtime)] the buffer
    is looked up first here; C++ leaves the order of the two operands
    open, which shows only when both throw. *)
Definition toVector (T : TypedArrayKind) runtime mem this
    : exception + option (list (ContentType T)) :=
  let! buffer := TypedArrayBase.getBuffer runtime this in
  let! offset := TypedArrayBase.byteOffset runtime this in
  let start := (data buffer + offset)%N in
  let! count := TypedArrayBase.size runtime this in
  inr (rangeElements _ mem start (N.to_nat count)).

Definition update (T : TypedArrayKind) runtime mem this (data_ : list (ContentType T))
    : exception + memory :=
  let! count := TypedArrayBase.size runtime this in
  if bool_decide (N.of_nat (List.length data_) <> count)
  then inl (JSError "TypedArray can only be updated with a vector of the same size")
  else
    let! buffer := TypedArrayBase.getBuffer runtime this in
    let! offset := TypedArrayBase.byteOffset runtime this in
    let rawData := (data buffer + offset)%N in
    inr (copyElements data_ rawData mem).

End Methods.
End TypedArray.

End TypedArrayObjects.

(** ** A small runtime to try the functions on

    Object 0 is the global object, 1 the [ArrayBuffer] constructor and 2
    its [isView]; 5 is an ArrayBuffer of four bytes at address 100, 6 a
    [Uint8Array] over all of it, 10 an [Int16Array] over its last two
    bytes, and 7 a plain object. *)
Module SampleRuntime.
Import TypedArrayApi TypedArrayObjects.

Definition sampleJsi : Jsi := {| Object := N; double := N; size_t_of := fun d => d |}.

#[local] Existing Instance sampleJsi.

Definition sampleProperties : list (N * list (string * Value)) :=
  [ (0%N, [("ArrayBuffer", object 1%N)]);
    (1%N, [("isView", object 2%N); ("name", string_ "ArrayBuffer")]);
    (3%N, [("constructor", object 4%N)]);
    (4%N, [("name", string_ "Uint8Array")]);
    (5%N, [("byteLength", number 4%N)]);
    (6%N, [("__proto__", object 3%N); ("length", number 4%N); ("byteLength", number 4%N);
           ("byteOffset", number 0%N); ("buffer", object 5%N)]);
    (7%N, [("__proto__", object 8%N)]);
    (8%N, [("constructor", object 9%N)]);
    (9%N, [("name", string_ "Object")]);
    (10%N, [("__proto__", object 11%N); ("length", number 1%N); ("byteLength", number 2%N);
            ("byteOffset", number 2%N); ("buffer", object 5%N)]);
    (11%N, [("constructor", object 12%N)]);
    (12%N, [("name", string_ "Int16Array")]) ].

Definition sampleRuntime : Runtime := {|
  global := 0%N;
  getProperty := fun o name =>
    inr (default undefined
           (properties ← list_to_map (M := gmap N _) sampleProperties !! o;
            list_to_map (M := gmap string _) properties !! name));
  arrayBuffer := fun o =>
    if bool_decide (o = 5%N) then Some {| data := 100; size := 4 |} else None;
  isFunction := fun o => bool_decide (o = 2%N);
  callWithThis := fun f _ args =>
    if bool_decide (f = 2%N)
    then match args with
         | [object o] => inr (boolean (bool_decide (o = 6%N \/ o = 10%N)))
         | _ => inr (boolean false)
         end
    else inl (JSError "not a function");
  castError := fun _ kind => JSError ("Value is not a " +:+ kind)
|}.

(** The sample runtime once the prototype of object 6 has been replaced
    by that of [Int16Array]. *)
Definition reprototyped : Runtime := {|
  global := global sampleRuntime;
  getProperty := fun o name =>
    if bool_decide (o = 6%N /\ name = "__proto__") then inr (object 11%N)
    else getProperty sampleRuntime o name;
  arrayBuffer := arrayBuffer sampleRuntime;
  isFunction := isFunction sampleRuntime;
  callWithThis := callWithThis sampleRuntime;
  castError := castError sampleRuntime
|}.

(** The four bytes of the block. *)
Definition sampleMemory : memory :=
  copy ["a"%byte; "b"%byte; "c"%byte; "d"%byte] 100 ∅.

End SampleRuntime.

(* ===================================================================== *)
(** * Calls of the mutation factories *)
(* ===================================================================== *)

Module ShadowViewMutationCalls.
Import ShadowViewMutation.

Section Calls.
Context {ShadowView : Type}.
Variable emptyShadowView : ShadowView.

(** A call of one of the five factories of [ShadowViewMutation.cpp],
    with its arguments. *)
Inductive FactoryCall :=
  | CallCreate (shadowView : ShadowView)
  | CallDelete (shadowView : ShadowView)
  | CallInsert (parentShadowView childShadowView : ShadowView) (index : Z)
  | CallRemove (parentShadowView childShadowView : ShadowView) (index : Z)
  | CallUpdate (parentShadowView oldChildShadowView newChildShadowView : ShadowView)
               (index : Z).

(** The mutation a call returns. *)
Definition returned (call : FactoryCall) : ShadowViewMutation ShadowView :=
  match call with
  | CallCreate v => CreateMutation emptyShadowView v
  | CallDelete v => DeleteMutation emptyShadowView v
  | CallInsert p c i => InsertMutation emptyShadowView p c i
  | CallRemove p c i => RemoveMutation emptyShadowView p c i
  | CallUpdate p o n i => UpdateMutation p o n i
  end.

End Calls.

Arguments FactoryCall : clear implicits.

End ShadowViewMutationCalls.

(* ===================================================================== *)
(** * Properties of the mutation factories *)
(* ===================================================================== *)

Module ShadowViewMutationFacts.
Import ShadowViewMutation.

Section Facts.
Context {ShadowView : Type}.
Variable emptyShadowView : ShadowView.

(** C5: every factory returns a mutation tagged with the factory's own
    type whose operand fields are the arguments it was given. *)
Theorem factories_store_their_arguments :
  (forall v : ShadowView,
      type (CreateMutation emptyShadowView v) = Create /\
      newChildShadowView (CreateMutation emptyShadowView v) = v) /\
  (forall v : ShadowView,
      type (DeleteMutation emptyShadowView v) = Delete /\
      oldChildShadowView (DeleteMutation emptyShadowView v) = v) /\
  (forall (p c : ShadowView) (i : Z),
      type (InsertMutation emptyShadowView p c i) = Insert /\
      parentShadowView (InsertMutation emptyShadowView p c i) = p /\
      newChildShadowView (InsertMutation emptyShadowView p c i) = c /\
      index (InsertMutation emptyShadowView p c i) = i) /\
  (forall (p c : ShadowView) (i : Z),
      type (RemoveMutation emptyShadowView p c i) = Remove /\
      parentShadowView (RemoveMutation emptyShadowView p c i) = p /\
      oldChildShadowView (RemoveMutation emptyShadowView p c i) = c /\
      index (RemoveMutation emptyShadowView p c i) = i) /\
  (forall (p o n : ShadowView) (i : Z),
      type (UpdateMutation p o n i) = Update /\
      parentShadowView (UpdateMutation p o n i) = p /\
      oldChildShadowView (UpdateMutation p o n i) = o /\
      newChildShadowView (UpdateMutation p o n i) = n /\
      index (UpdateMutation p o n i) = i).
Proof. repeat split. Qed.

(** C6: a Create mutation carries neither an old child nor a parent, and
    a Delete mutation neither a new child nor a parent: those members
    keep the value-initialised [ShadowView], whatever view is passed. *)
Theorem create_delete_leave_other_views_empty :
  forall v : ShadowView,
    (oldChildShadowView (CreateMutation emptyShadowView v) = emptyShadowView /\
     parentShadowView (CreateMutation emptyShadowView v) = emptyShadowView) /\
    (newChildShadowView (DeleteMutation emptyShadowView v) = emptyShadowView /\
     parentShadowView (DeleteMutation emptyShadowView v) = emptyShadowView).
Proof. intros v. repeat split. Qed.

(** C9: Create and Delete set [index] to the sentinel -1; Insert, Remove
    and Update set it to the value the caller supplied. *)
Theorem index_sentinel_or_supplied :
  (forall v : ShadowView,
      index (CreateMutation emptyShadowView v) = -1 /\ index (DeleteMutation emptyShadowView v) = -1) /\
  (forall (p c o n : ShadowView) (i : Z),
      index (InsertMutation emptyShadowView p c i) = i /\
      index (RemoveMutation emptyShadowView p c i) = i /\
      index (UpdateMutation p o n i) = i).
Proof. repeat split. Qed.
End Facts.

End ShadowViewMutationFacts.

(* ===================================================================== *)
(** * Properties of the typed-array interop layer *)
(* ===================================================================== *)

Module TypedArrayApiFacts.
Import TypedArrayApi.

Lemma kind_for_constructor_name (k : TypedArrayKind) :
  getTypedArrayKindForName (getTypedArrayConstructorName k) = inr k.
Proof. destruct k; reflexivity. Qed.

Lemma constructor_name_for_kind (name : string) (k : TypedArrayKind) :
  getTypedArrayKindForName name = inr k ->
  getTypedArrayConstructorName k = name.
Proof.
  unfold getTypedArrayKindForName.
  repeat (destruct (String.eqb name _) eqn:E;
          [ apply String.eqb_eq in E; intros [= <-]; by subst | clear E ]).
  discriminate.
Qed.

Lemma unknown_name_throws (name : string) :
  (forall k, getTypedArrayConstructorName k <> name) ->
  getTypedArrayKindForName name = inl (runtime_error "unknown type").
Proof.
  intros Hno.
  destruct (getTypedArrayKindForName name) as [e | k] eqn:E.
  - revert E. unfold getTypedArrayKindForName.
    repeat (destruct (String.eqb name _); [ discriminate | ]).
    by intros [= <-].
  - apply constructor_name_for_kind in E. by destruct (Hno k).
Qed.

(** C8: the kind-to-name and name-to-kind tables are mutually inverse on
    the nine enumerators, and a name that is none of the nine constructor
    names makes [getTypedArrayKindForName] throw. *)
Theorem kind_name_tables_inverse :
  (forall k : TypedArrayKind,
      getTypedArrayKindForName (getTypedArrayConstructorName k) = inr k) /\
  (forall (name : string) (k : TypedArrayKind),
      getTypedArrayKindForName name = inr k <->
      getTypedArrayConstructorName k = name) /\
  (forall k : TypedArrayKind, k ∈ allKinds) /\
  (forall name : string,
      name ∉ getTypedArrayConstructorName <$> allKinds <->
      getTypedArrayKindForName name = inl (runtime_error "unknown type")).
Proof.
  split; [ exact kind_for_constructor_name | ].
  split.
  { intros name k. split.
    - apply constructor_name_for_kind.
    - intros <-. apply kind_for_constructor_name. }
  assert (Hall : forall k : TypedArrayKind, k ∈ allKinds).
  { intros k. unfold allKinds. destruct k; set_solver. }
  split; [ exact Hall | ].
  intros name. split.
  - intros Hnot. apply unknown_name_throws. intros k <-.
    apply Hnot, list_elem_of_fmap. exists k. split; [ done | apply Hall ].
  - intros Hthrow [k [-> _]]%list_elem_of_fmap.
    rewrite kind_for_constructor_name in Hthrow. discriminate.
Qed.

(** What [copy] leaves in memory: the source bytes at [d_first ..], every
    other address untouched. *)
Lemma copy_lookup_outside (src : list byte) (d_first : N) (mem : memory) (a : N) :
  (a < d_first \/ d_first + N.of_nat (length src) <= a)%N ->
  copy src d_first mem !! a = mem !! a.
Proof.
  revert d_first mem. induction src as [| b rest IH]; intros d_first mem Ha.
  - reflexivity.
  - cbn [copy]. rewrite IH.
    + apply lookup_insert_ne. cbn [length] in Ha. lia.
    + cbn [length] in Ha. lia.
Qed.

Lemma copy_lookup_inside (src : list byte) (d_first : N) (mem : memory)
    (i : nat) (b : byte) :
  src !! i = Some b ->
  copy src d_first mem !! (d_first + N.of_nat i)%N = Some b.
Proof.
  revert d_first mem i. induction src as [| b0 rest IH]; intros d_first mem i Hi.
  - discriminate.
  - cbn [copy]. destruct i as [| i].
    + injection Hi as ->. rewrite copy_lookup_outside by lia.
      replace (d_first + N.of_nat 0)%N with d_first by lia.
      apply lookup_insert_eq.
    + replace (d_first + N.of_nat (S i))%N
        with (N.succ d_first + N.of_nat i)%N by lia.
      by apply IH.
Qed.

(** C10: [arrayBufferUpdate] throws exactly when the data vector is longer
    than the buffer; [offset] has no part in that test, so whether a call
    is rejected does not depend on it, and a call whose data fits the
    buffer's size is carried out even when [offset + data.size()] runs
    past the block: the bytes then land at [data + offset ..] all the same. *)
Theorem arrayBufferUpdate_rejects_by_size_only :
  forall (mem : memory) (buffer : ArrayBuffer) (data_ : list byte),
    (forall offset : N,
        throws (arrayBufferUpdate mem buffer data_ offset) = true <->
        (size buffer < N.of_nat (length data_))%N) /\
    (forall offset offset' : N,
        throws (arrayBufferUpdate mem buffer data_ offset) =
        throws (arrayBufferUpdate mem buffer data_ offset')) /\
    (forall offset : N,
        (N.of_nat (length data_) <= size buffer)%N ->
        exists mem' : memory,
          arrayBufferUpdate mem buffer data_ offset = inr mem' /\
          forall (i : nat) (b : byte),
            data_ !! i = Some b ->
            mem' !! (data buffer + offset + N.of_nat i)%N = Some b).
Proof.
  intros mem buffer data_. unfold arrayBufferUpdate.
  repeat split.
  - destruct (N.ltb_spec (size buffer) (N.of_nat (length data_))); cbn; [ done | discriminate ].
  - destruct (N.ltb_spec (size buffer) (N.of_nat (length data_))); cbn; [ done | lia ].
  - by destruct (size buffer <? N.of_nat (length data_))%N.
  - intros Hfit.
    destruct (N.ltb_spec (size buffer) (N.of_nat (length data_))); [ lia | ].
    eexists. split; [ reflexivity | ].
    intros i b Hi. by apply copy_lookup_inside.
Qed.

(** A two-byte write at offset 3 of a 4-byte block at address 100 is not
    rejected and stores its second byte at address 104, past the block. *)
Example arrayBufferUpdate_past_the_block :
  let buffer := {| data := 100; size := 4 |} in
  exists mem' : memory,
    arrayBufferUpdate ∅ buffer ["a"%byte; "b"%byte] 3 = inr mem' /\
    mem' !! 104%N = Some "b"%byte.
Proof. eexists. split; reflexivity. Qed.

End TypedArrayApiFacts.

(* ===================================================================== *)
(** * Properties of the applier *)
(* ===================================================================== *)

Module ApplierFacts.
Import ShadowViewMutation Reconciler.

Section AnyHost.
Context {Props : Type} {H : Type} `{Host Props H}.
Implicit Types (st : Applier H) (l : list (Instruction Props)).

(** Whether the run completes does not depend on the running count. *)
Lemma applyFrom_applied_shift (d d' : nat) l st st' :
  applyFrom d l st = Applied st' -> applyFrom d' l st = Applied st'.
Proof.
  revert d d' st. induction l as [| m l IH]; intros d d' st; cbn.
  - done.
  - destruct (step m st) as [e | st1]; [ discriminate | ]. apply IH.
Qed.

(** A run over [l1 ++ l2] that completes on [l1] continues on [l2]. *)
Lemma applyFrom_app (d : nat) l1 l2 st st1 :
  applyFrom d l1 st = Applied st1 ->
  applyFrom d (l1 ++ l2) st = applyFrom (d + length l1) l2 st1.
Proof.
  revert d st. induction l1 as [| m l1 IH]; intros d st; cbn.
  - intros [= ->]. by rewrite Nat.add_0_r.
  - destruct (step m st) as [e | st'] eqn:E; [ discriminate | ].
    intros Hrun. rewrite (IH _ _ Hrun). f_equal. lia.
Qed.

Lemma apply_app l1 l2 st st1 :
  apply l1 st = Applied st1 ->
  apply (l1 ++ l2) st = applyFrom (length l1) l2 st1.
Proof. intros Hrun. unfold apply. by rewrite (applyFrom_app _ _ _ _ _ Hrun). Qed.

Lemma apply_app_applied l1 l2 st st1 st2 :
  apply l1 st = Applied st1 -> apply l2 st1 = Applied st2 ->
  apply (l1 ++ l2) st = Applied st2.
Proof.
  intros H1 H2. rewrite (apply_app _ _ _ _ H1).
  by apply (applyFrom_applied_shift 0).
Qed.



(** Every run ends in one of the two reports, and a completed run is the
    left-to-right composition of the steps. *)
Lemma apply_applied_cons (m : Instruction Props) l st st' :
  apply (m :: l) st = Applied st' <->
  exists st1, step m st = inr st1 /\ apply l st1 = Applied st'.
Proof.
  unfold apply. cbn. destruct (step m st) as [e | st1].
  - split; [ discriminate | ]. by intros (st1 & [=] & _).
  - split.
    + intros Hrun. exists st1. split; [ done | ].
      by apply (applyFrom_applied_shift 1).
    + intros (st2 & [= <-] & Hrun). by apply (applyFrom_applied_shift 0).
Qed.

End AnyHost.

End ApplierFacts.

(* ===================================================================== *)
(** * Properties of snapshot trees *)
(* ===================================================================== *)

Module TreeFacts.
Import ShadowViewMutation Reconciler.

Section Trees.
Context {Props : Type}.
Implicit Types (t o n k : Tree Props) (ts olds news : list (Tree Props)).
Implicit Types (x y : Tag).

(** Induction over a tree with the property known of every child. *)
Lemma Tree_forall_ind (P : Tree Props -> Prop) :
  (forall id ty p kids, Forall P kids -> P (Node id ty p kids)) ->
  forall t, P t.
Proof.
  intros Hnode. fix IH 1. intros [id ty p kids]. apply Hnode.
  induction kids as [| k kids IHkids]; constructor; [ apply IH | exact IHkids ].
Qed.

Lemma fmap_of_bind {A B C} (f : B -> C) (g : A -> list B) (l : list A) :
  f <$> (l ≫= g) = l ≫= (fun a => f <$> g a).
Proof.
  induction l as [| a l IH]; [ done | ].
  by rewrite !bind_cons, fmap_app, IH.
Qed.

Lemma bind_single {A B} (f : A -> list B) (a : A) : [a] ≫= f = f a.
Proof. cbn. by rewrite app_nil_r. Qed.

Lemma nodes_unfold t : nodes t = t :: (subtrees t ≫= nodes).
Proof. by destruct t. Qed.

Lemma ids_unfold t : ids t = rootId t :: (subtrees t ≫= ids).
Proof. unfold ids. by rewrite nodes_unfold, fmap_cons, fmap_of_bind. Qed.

Lemma rootId_in_ids t : rootId t ∈ ids t.
Proof. rewrite ids_unfold. left. Qed.

Lemma ids_of_child t k x : k ∈ subtrees t -> x ∈ ids k -> x ∈ ids t.
Proof.
  intros Hk Hx. rewrite ids_unfold. right. apply list_elem_of_bind. eauto.
Qed.

Lemma child_ids_in_bind ts k : k ∈ ts -> rootId k ∈ ts ≫= ids.
Proof. intros Hk. apply list_elem_of_bind. exists k. split; [ apply rootId_in_ids | done ]. Qed.

(** The identities directly below a parent are among those of the forest. *)
Lemma top_ids_in_bind ts x : x ∈ rootId <$> ts -> x ∈ ts ≫= ids.
Proof. intros (k & -> & Hk)%list_elem_of_fmap. by apply child_ids_in_bind. Qed.

(** Unique identities in a forest: every tree has unique identities, the
    roots are pairwise distinct, and two different positions share none. *)
Lemma NoDup_bind_cons k ts :
  NoDup ((k :: ts) ≫= ids) <->
  NoDup (ids k) /\ (forall x, x ∈ ids k -> x ∉ ts ≫= ids) /\ NoDup (ts ≫= ids).
Proof. rewrite bind_cons. apply NoDup_app. Qed.

Lemma NoDup_forest_each ts k : NoDup (ts ≫= ids) -> k ∈ ts -> NoDup (ids k).
Proof.
  induction ts as [| k0 ts IH]; intros Hnd Hk.
  - by apply elem_of_nil in Hk.
  - apply NoDup_bind_cons in Hnd as (H0 & _ & Hrest).
    apply elem_of_cons in Hk as [-> | Hk]; auto.
Qed.

Lemma NoDup_forest_roots ts : NoDup (ts ≫= ids) -> NoDup (rootId <$> ts).
Proof.
  induction ts as [| k ts IH]; intros Hnd.
  - constructor.
  - apply NoDup_bind_cons in Hnd as (H0 & Hdisj & Hrest). cbn. constructor.
    + intros Hin. apply (Hdisj (rootId k)); [ apply rootId_in_ids | ].
      by apply top_ids_in_bind.
    + auto.
Qed.

Lemma NoDup_ids_subtrees t : NoDup (ids t) -> NoDup (subtrees t ≫= ids).
Proof. rewrite ids_unfold. by intros [_ ?]%NoDup_cons. Qed.

Lemma NoDup_ids_root t : NoDup (ids t) -> rootId t ∉ subtrees t ≫= ids.
Proof. rewrite ids_unfold. by intros [? _]%NoDup_cons. Qed.

Lemma NoDup_ids_child t k : NoDup (ids t) -> k ∈ subtrees t -> NoDup (ids k).
Proof. intros Hnd. by apply NoDup_forest_each, NoDup_ids_subtrees. Qed.

(** Looking a child up by identity in a list with distinct roots. *)
Lemma indexOf_Some ts x i :
  indexOf x ts = Some i -> exists k, ts !! i = Some k /\ rootId k = x.
Proof.
  revert i. induction ts as [| k ts IH]; intros i; cbn; [ done | ].
  case_bool_decide as Hk.
  - intros [= <-]. by exists k.
  - destruct (indexOf x ts) as [i0 |]; [ | done ]. intros [= <-]. by apply IH.
Qed.

Lemma indexOf_app_fresh pre ts x :
  x ∉ rootId <$> pre ->
  indexOf x (pre ++ ts) = (fun i => (length pre + i)%nat) <$> indexOf x ts.
Proof.
  induction pre as [| k pre IH]; intros Hx; cbn.
  - by destruct (indexOf x ts).
  - cbn in Hx. apply not_elem_of_cons in Hx as [Hne Hx].
    rewrite bool_decide_eq_false_2 by done. rewrite IH by done.
    by destruct (indexOf x ts).
Qed.

End Trees.
End TreeFacts.
(* ===================================================================== *)
(** * Properties of the differ *)
(* ===================================================================== *)

Module DifferFacts.
Import ShadowViewMutation Reconciler Properties TreeFacts.

Section Lookup.
Context {Props : Type}.
Implicit Types (t o n k : Tree Props) (ts olds news : list (Tree Props)).
Implicit Types (x y : Tag).

Lemma find_by_key {A K} `{EqDecision K} (key : A -> K) (l : list A) (a : A) :
  NoDup (key <$> l) -> a ∈ l ->
  List.find (fun b => bool_decide (key b = key a)) l = Some a.
Proof.
  induction l as [| b l IH]; intros Hnd Ha.
  - by apply elem_of_nil in Ha.
  - cbn in *. apply NoDup_cons in Hnd as [Hnotin Hnd].
    case_bool_decide as Hk.
    + apply elem_of_cons in Ha as [-> | Ha]; [ done | ].
      destruct Hnotin. rewrite Hk. apply list_elem_of_fmap. eauto.
    + apply elem_of_cons in Ha as [-> | Ha]; [ done | auto ].
Qed.

Lemma lookup_node t n :
  NoDup (ids t) -> n ∈ nodes t -> lookup t (rootId n) = Some n.
Proof. intros Hnd Hn. unfold lookup. by apply find_by_key. Qed.

Lemma lookup_Some t x n : lookup t x = Some n -> n ∈ nodes t /\ rootId n = x.
Proof.
  unfold lookup. intros Hf. apply find_some in Hf as [Hin Hk].
  split; [ by apply list_elem_of_In | by apply bool_decide_eq_true in Hk ].
Qed.

Lemma lookup_None t x : lookup t x = None <-> x ∉ ids t.
Proof.
  unfold lookup, ids. split.
  - intros Hf [n [-> Hn]]%list_elem_of_fmap.
    apply list_elem_of_In in Hn. apply (find_none _ _ Hf n) in Hn.
    by apply bool_decide_eq_false in Hn.
  - intros Hnot. destruct (List.find _ _) as [n |] eqn:Hf; [ | done ].
    apply find_some in Hf as [Hin Hk]. apply bool_decide_eq_true in Hk.
    destruct Hnot. apply list_elem_of_fmap. exists n. split; [ done | by apply list_elem_of_In ].
Qed.

Lemma lookup_is_Some t x : x ∈ ids t -> exists n, lookup t x = Some n.
Proof.
  intros Hx. destruct (lookup t x) as [n |] eqn:E; [ eauto | ].
  by apply lookup_None in E.
Qed.

Lemma nodes_of_child t k n : k ∈ subtrees t -> n ∈ nodes k -> n ∈ nodes t.
Proof.
  intros Hk Hn. rewrite nodes_unfold. right. apply list_elem_of_bind. eauto.
Qed.

Lemma root_in_nodes t : t ∈ nodes t.
Proof. rewrite nodes_unfold. left. Qed.

Lemma node_ids_in_ids t n x : n ∈ nodes t -> x ∈ ids n -> x ∈ ids t.
Proof.
  revert n x. induction t as [id ty p kids IH] using Tree_forall_ind. intros n x Hn Hx.
  rewrite nodes_unfold in Hn. apply elem_of_cons in Hn as [-> | Hn]; [ done | ].
  apply list_elem_of_bind in Hn as (k & Hn & Hk). cbn [subtrees] in Hk.
  rewrite Forall_forall in IH. apply (ids_of_child _ k); [ done | ]. by apply (IH k Hk n).
Qed.

Lemma nodes_trans t n k : n ∈ nodes t -> k ∈ nodes n -> k ∈ nodes t.
Proof.
  revert n k. induction t as [id ty p kids IH] using Tree_forall_ind. intros n k Hn Hk.
  rewrite nodes_unfold in Hn. apply elem_of_cons in Hn as [-> | Hn]; [ done | ].
  apply list_elem_of_bind in Hn as (c & Hn & Hc). cbn [subtrees] in Hc.
  rewrite Forall_forall in IH. apply (nodes_of_child _ c); [ done | ]. by apply (IH c Hc n).
Qed.

Lemma NoDup_ids_node t n : NoDup (ids t) -> n ∈ nodes t -> NoDup (ids n).
Proof.
  revert n. induction t as [id ty p kids IH] using Tree_forall_ind. intros n Hnd Hn.
  rewrite nodes_unfold in Hn. apply elem_of_cons in Hn as [-> | Hn]; [ done | ].
  apply list_elem_of_bind in Hn as (k & Hn & Hk). cbn [subtrees] in Hk.
  rewrite Forall_forall in IH. apply (IH k Hk); [ | done ].
  by apply (NoDup_ids_child (Node id ty p kids)).
Qed.

Lemma rootId_positive t : 0 < rootId t.
Proof. destruct t. cbn. lia. Qed.

Lemma ids_positive t x : x ∈ ids t -> 0 < x.
Proof.
  unfold ids. intros [n [-> _]]%list_elem_of_fmap. apply rootId_positive.
Qed.

Lemma detach_unfold (newTree : Tree Props) o emptyProps :
  detach emptyProps newTree o =
  detachAll emptyProps (detach emptyProps newTree) (snapshot o)
    (kept (Some o) (lookup newTree (rootId o))) (ids newTree) (subtrees o) 0.
Proof. by destruct o. Qed.

Lemma attach_unfold (oldTree : Tree Props) n emptyProps :
  attach emptyProps oldTree n =
  attachAll emptyProps (attach emptyProps oldTree) (snapshot n)
    (kept (lookup oldTree (rootId n)) (Some n)) (ids oldTree) (subtrees n) 0.
Proof. by destruct n. Qed.

Lemma updates_unfold contentEquals (oldTree : Tree Props) (parent : ViewSnapshot Props)
    (index : Z) n :
  updates contentEquals oldTree parent index n =
  updatesAll (updates contentEquals oldTree (snapshot n)) (subtrees n) 0 ++
  match lookup oldTree (rootId n) with
  | Some o => if contentEquals (rootProps o) (rootProps n) then []
              else [Update_ parent (snapshot o) (snapshot n) index]
  | None => []
  end.
Proof. by destruct n. Qed.

End Lookup.

Section SameTree.
Context {Props : Type}.
Variable contentEquals : Props -> Props -> bool.
Variable emptyProps : Props.
Hypothesis contentEquals_refl : forall p, contentEquals p p = true.
Implicit Types (t o n k : Tree Props) (ts olds news : list (Tree Props)).

(** Walking a child list against itself, every child stays. *)
Lemma stayed_self pre ts (lastPlaced : nat) :
  (lastPlaced <= length pre)%nat ->
  NoDup (rootId <$> (pre ++ ts)) ->
  stayed (pre ++ ts) lastPlaced ts = rootId <$> ts.
Proof.
  revert pre lastPlaced. induction ts as [| k ts IH]; intros pre lp Hlp Hnd.
  - done.
  - cbn [stayed].
    assert (Hfresh : rootId k ∉ rootId <$> pre).
    { rewrite fmap_app in Hnd. apply NoDup_app in Hnd as (_ & Hdisj & _).
      intros Hin. apply (Hdisj _ Hin). cbn. left. }
    rewrite indexOf_app_fresh by done. cbn [indexOf].
    rewrite bool_decide_eq_true_2 by done. cbn.
    rewrite Nat.add_0_r.
    destruct (Nat.leb_spec lp (length pre)) as [_ | ?]; [ | lia ].
    f_equal.
    specialize (IH (pre ++ [k]) (length pre)).
    rewrite <- app_assoc in IH. cbn in IH. apply IH; [ | done ].
    rewrite length_app. lia.
Qed.

Lemma detachAll_all_kept (below : Tree Props -> list (Instruction Props))
    (parent : ViewSnapshot Props) keep newIds olds (i : nat) :
  Forall (fun o => rootId o ∈ keep /\ below o = []) olds ->
  detachAll emptyProps below parent keep newIds olds i = [].
Proof.
  intros Hall. revert i. induction Hall as [| o olds [Ho Hb] _ IH]; intros i; cbn.
  - done.
  - by rewrite IH, Hb, bool_decide_eq_true_2.
Qed.

Lemma attachAll_all_kept (below : Tree Props -> list (Instruction Props))
    (parent : ViewSnapshot Props) keep oldIds news (j : nat) :
  Forall (fun k => rootId k ∈ keep /\ below k = []) news ->
  attachAll emptyProps below parent keep oldIds news j = [].
Proof.
  intros Hall. revert j. induction Hall as [| k news [Hk Hb] _ IH]; intros j; cbn.
  - done.
  - by rewrite IH, Hb, bool_decide_eq_true_2.
Qed.

Lemma updatesAll_all_nil (below : Z -> Tree Props -> list (Instruction Props))
    news (j : nat) :
  Forall (fun k => forall i, below i k = []) news ->
  updatesAll below news j = [].
Proof.
  intros Hall. revert j. induction Hall as [| k news Hk _ IH]; intros j; cbn.
  - done.
  - by rewrite Hk, IH.
Qed.

Lemma children_stay t :
  NoDup (ids t) -> stayed (subtrees t) 0 (subtrees t) = rootId <$> subtrees t.
Proof.
  intros Hnd. apply (stayed_self [] (subtrees t) 0 (le_n 0)).
  by apply NoDup_forest_roots, NoDup_ids_subtrees.
Qed.

(** Against the tree it is part of, a node emits nothing. *)
Lemma same_tree_emits_nothing (T : Tree Props) :
  NoDup (ids T) ->
  forall t, t ∈ nodes T ->
    detach emptyProps T t = [] /\
    attach emptyProps T t = [] /\
    forall (parent : ViewSnapshot Props) (index : Z),
      updates contentEquals T parent index t = [].
Proof.
  intros HT. induction t as [id ty p kids IH] using Tree_forall_ind. intros Ht.
  set (t := Node id ty p kids) in *.
  assert (Hnd : NoDup (ids t)) by (by apply (NoDup_ids_node T)).
  assert (Hkids : Forall (fun k => rootId k ∈ rootId <$> kids /\
                            detach emptyProps T k = [] /\ attach emptyProps T k = [] /\
                            forall parent index, updates contentEquals T parent index k = [])
                    kids).
  { rewrite Forall_forall in IH. apply Forall_forall. intros k Hk. split.
    - apply list_elem_of_fmap. eauto.
    - apply IH; [ done | ]. apply (nodes_trans T t); [ done | ].
      apply (nodes_of_child t k); [ done | apply root_in_nodes ]. }
  rewrite detach_unfold, attach_unfold. rewrite (lookup_node T t HT Ht).
  cbn [kept]. rewrite (children_stay t Hnd). cbn [subtrees]. split_and!.
  - apply detachAll_all_kept. eapply Forall_impl; [ exact Hkids | ]. cbn. tauto.
  - apply attachAll_all_kept. eapply Forall_impl; [ exact Hkids | ]. cbn. tauto.
  - intros parent index. rewrite updates_unfold, (lookup_node T t HT Ht).
    rewrite contentEquals_refl, app_nil_r. apply updatesAll_all_nil.
    eapply Forall_impl; [ exact Hkids | ]. cbn. intros k (_ & _ & _ & Hu) i. apply Hu.
Qed.

Lemma typesAgree_same t : NoDup (ids t) -> typesAgree t t = true.
Proof.
  intros Hnd. unfold typesAgree. apply forallb_forall. intros n Hn.
  rewrite lookup_node; [ | done | by apply list_elem_of_In ].
  by apply bool_decide_eq_true.
Qed.

(** C3: for every well-formed tree [T], [diff(T, T)] is the empty
    instruction list (the injected comparator being reflexive, as an
    equality of property bags is). *)
Theorem diff_same_tree_is_empty (T : Tree Props) :
  wellFormed T = true ->
  diff contentEquals emptyProps T T = inr [].
Proof.
  intros Hwf. unfold diff. rewrite Hwf. cbn [andb negb].
  apply bool_decide_eq_true in Hwf.
  rewrite typesAgree_same by done. cbn [negb].
  destruct (same_tree_emits_nothing T Hwf T (root_in_nodes T)) as (Hd & Ha & Hu).
  assert (Hst : stayed [T] 0 [T] = [rootId T]).
  { apply (stayed_self [] [T] 0 (le_n 0)). cbn. apply NoDup_singleton. }
  unfold removals, changes, insertions. rewrite Hst. cbn [detachAll updatesAll attachAll].
  rewrite Hd, Ha, Hu. by rewrite bool_decide_eq_true_2 by set_solver.
Qed.

End SameTree.

Lemma diff_same_tree_is_empty_witness :
  diff String.eqb "" sampleTree sampleTree = inr [].
Proof.
  apply (diff_same_tree_is_empty String.eqb "" String.eqb_refl sampleTree).
  vm_compute. reflexivity.
Defined.


Section Shape.
Context {Props : Type}.
Variable contentEquals : Props -> Props -> bool.
Variable emptyProps : Props.
Implicit Types (t o n k c : Tree Props) (ts olds news : list (Tree Props)).
Implicit Types (m : Instruction Props) (l : list (Instruction Props)).
Implicit Types (x y : Tag).

(** *** Where the instructions of each part come from *)

Lemma detachAll_elem below (parent : ViewSnapshot Props) keep newIds olds (i : nat) m :
  m ∈ detachAll emptyProps below parent keep newIds olds i <->
  (exists o, o ∈ olds /\ m ∈ below o) \/
  (exists (j : nat) c, olds !! j = Some c /\ (rootId c ∉ keep) /\
     (m = Remove_ emptyProps parent (snapshot c) (Z.of_nat (i + j)) \/
      ((rootId c ∉ newIds) /\ m = Delete_ emptyProps (snapshot c)))).
Proof.
  revert i. induction olds as [| o rest IH]; intros i; cbn [detachAll].
  - split; [ by intros ?%elem_of_nil | ].
    intros [(o & Ho & _) | (j & c & Hj & _)]; [ by apply elem_of_nil in Ho | done ].
  - rewrite !elem_of_app, IH. split.
    + intros [[(o' & Ho' & Hm) | (j & c & Hj & Hk & Hm)] | [Hm | Hm]].
      * left. exists o'. split; [ by right | done ].
      * right. exists (S j), c. split_and!; [ done | done | ].
        destruct Hm as [-> | Hm]; [ left; f_equal; lia | by right ].
      * left. exists o. split; [ by left | done ].
      * right. exists 0%nat, o. cbn. rewrite Nat.add_0_r.
        case_bool_decide as Hk; [ by apply elem_of_nil in Hm | ].
        case_bool_decide as Hn.
        -- apply list_elem_of_singleton in Hm. auto.
        -- apply elem_of_cons in Hm as [-> | Hm%list_elem_of_singleton]; auto.
    + intros [(o' & Ho' & Hm) | (j & c & Hj & Hk & Hm)].
      * apply elem_of_cons in Ho' as [-> | Ho']; [ right; by left | ].
        left. left. eauto.
      * destruct j as [| j]; cbn in Hj.
        -- injection Hj as ->. right. right. rewrite Nat.add_0_r in Hm.
           rewrite bool_decide_eq_false_2 by done.
           case_bool_decide as Hn.
           ++ destruct Hm as [-> | [Hnot _]]; [ by apply list_elem_of_singleton | done ].
           ++ destruct Hm as [-> | [_ ->]]; [ by left | right; by left ].
        -- left. right. exists j, c. split_and!; [ done | done | ].
           destruct Hm as [-> | Hm]; [ left; f_equal; lia | by right ].
Qed.

Lemma attachAll_elem below (parent : ViewSnapshot Props) keep oldIds news (j : nat) m :
  m ∈ attachAll emptyProps below parent keep oldIds news j <->
  (exists k, k ∈ news /\ m ∈ below k) \/
  (exists (i : nat) c, news !! i = Some c /\ (rootId c ∉ keep) /\
     (m = Insert_ emptyProps parent (snapshot c) (Z.of_nat (j + i)) \/
      ((rootId c ∉ oldIds) /\ m = Create_ emptyProps (snapshot c)))).
Proof.
  revert j. induction news as [| k rest IH]; intros j; cbn [attachAll].
  - split; [ by intros ?%elem_of_nil | ].
    intros [(o & Ho & _) | (i & c & Hi & _)]; [ by apply elem_of_nil in Ho | done ].
  - rewrite !elem_of_app, IH. split.
    + intros [Hm | [Hm | [(k' & Hk' & Hm) | (i & c & Hi & Hk & Hm)]]].
      * right. exists 0%nat, k. cbn. rewrite Nat.add_0_r.
        case_bool_decide as Hk; [ by apply elem_of_nil in Hm | ].
        case_bool_decide as Hn.
        -- apply list_elem_of_singleton in Hm. auto.
        -- apply elem_of_cons in Hm as [-> | Hm%list_elem_of_singleton]; auto.
      * left. exists k. split; [ by left | done ].
      * left. exists k'. split; [ by right | done ].
      * right. exists (S i), c. split_and!; [ done | done | ].
        destruct Hm as [-> | Hm]; [ left; f_equal; lia | by right ].
    + intros [(k' & Hk' & Hm) | (i & c & Hi & Hk & Hm)].
      * apply elem_of_cons in Hk' as [-> | Hk']; [ right; by left | ].
        right. right. left. eauto.
      * destruct i as [| i]; cbn in Hi.
        -- injection Hi as ->. left. rewrite Nat.add_0_r in Hm.
           rewrite bool_decide_eq_false_2 by done.
           case_bool_decide as Hn.
           ++ destruct Hm as [-> | [Hnot _]]; [ by apply list_elem_of_singleton | done ].
           ++ destruct Hm as [-> | [_ ->]]; [ right; by left | by left ].
        -- right. right. right. exists i, c. split_and!; [ done | done | ].
           destruct Hm as [-> | Hm]; [ left; f_equal; lia | by right ].
Qed.

Lemma updatesAll_elem (below : Z -> Tree Props -> list (Instruction Props)) news (j : nat) m :
  m ∈ updatesAll below news j <->
  exists (i : nat) k, news !! i = Some k /\ m ∈ below (Z.of_nat (j + i)) k.
Proof.
  revert j. induction news as [| k rest IH]; intros j; cbn [updatesAll].
  - split; [ by intros ?%elem_of_nil | by intros (i & k & Hi & _) ].
  - rewrite elem_of_app, IH. split.
    + intros [Hm | (i & k' & Hi & Hm)].
      * exists 0%nat, k. by rewrite Nat.add_0_r.
      * exists (S i), k'. split; [ done | ]. by replace (j + S i)%nat with (S j + i)%nat by lia.
    + intros ([| i] & k' & Hi & Hm); cbn in Hi.
      * injection Hi as ->. left. by rewrite Nat.add_0_r in Hm.
      * right. exists i, k'. split; [ done | ]. by replace (S j + i)%nat with (j + S i)%nat by lia.
Qed.

(** The Removes and Deletes of a tree: one Remove for every child that
    does not stay under its parent, one Delete for every such child whose
    identity is not in the new tree. *)
Lemma detach_elem (B : Tree Props) t m :
  m ∈ detach emptyProps B t <->
  exists o (j : nat) c,
    o ∈ nodes t /\ subtrees o !! j = Some c /\
    (rootId c ∉ kept (Some o) (lookup B (rootId o))) /\
    (m = Remove_ emptyProps (snapshot o) (snapshot c) (Z.of_nat j) \/
     ((rootId c ∉ ids B) /\ m = Delete_ emptyProps (snapshot c))).
Proof.
  induction t as [id ty p kids IH] using Tree_forall_ind.
  set (t := Node id ty p kids) in *.
  rewrite detach_unfold, detachAll_elem. cbn [subtrees]. fold t. split.
  - intros [(o & Ho & Hm) | (j & c & Hj & Hk & Hm)].
    + rewrite Forall_forall in IH. apply (IH o Ho) in Hm as (o' & j & c & Ho' & Hrest).
      exists o', j, c. split; [ | done ]. by apply (nodes_of_child t o).
    + exists t, j, c. split; [ apply root_in_nodes | done ].
  - intros (o & j & c & Ho & Hj & Hk & Hm).
    rewrite nodes_unfold in Ho. apply elem_of_cons in Ho as [-> | Ho].
    + right. exists j, c. done.
    + left. apply list_elem_of_bind in Ho as (k & Ho & Hkin). cbn [subtrees] in Hkin.
      exists k. split; [ done | ]. rewrite Forall_forall in IH. apply (IH k Hkin).
      exists o, j, c. done.
Qed.

(** The Creates and Inserts of a tree: one Insert for every child that
    does not stay under its parent, one Create for every such child whose
    identity is not in the old tree. *)
Lemma attach_elem (A : Tree Props) t m :
  m ∈ attach emptyProps A t <->
  exists n (j : nat) c,
    n ∈ nodes t /\ subtrees n !! j = Some c /\
    (rootId c ∉ kept (lookup A (rootId n)) (Some n)) /\
    (m = Insert_ emptyProps (snapshot n) (snapshot c) (Z.of_nat j) \/
     ((rootId c ∉ ids A) /\ m = Create_ emptyProps (snapshot c))).
Proof.
  induction t as [id ty p kids IH] using Tree_forall_ind.
  set (t := Node id ty p kids) in *.
  rewrite attach_unfold, attachAll_elem. cbn [subtrees]. fold t. split.
  - intros [(o & Ho & Hm) | (j & c & Hj & Hk & Hm)].
    + rewrite Forall_forall in IH. apply (IH o Ho) in Hm as (o' & j & c & Ho' & Hrest).
      exists o', j, c. split; [ | done ]. by apply (nodes_of_child t o).
    + exists t, j, c. split; [ apply root_in_nodes | done ].
  - intros (o & j & c & Ho & Hj & Hk & Hm).
    rewrite nodes_unfold in Ho. apply elem_of_cons in Ho as [-> | Ho].
    + right. exists j, c. done.
    + left. apply list_elem_of_bind in Ho as (k & Ho & Hkin). cbn [subtrees] in Hkin.
      exists k. split; [ done | ]. rewrite Forall_forall in IH. apply (IH k Hkin).
      exists o, j, c. done.
Qed.

(** The Updates of a tree: of nodes of it that are in the old tree too. *)
Lemma updates_elem (A : Tree Props) (parent : ViewSnapshot Props) (index : Z) t m :
  m ∈ updates contentEquals A parent index t ->
  exists o n (p : ViewSnapshot Props) (i : Z),
    n ∈ nodes t /\ lookup A (rootId n) = Some o /\
    m = Update_ p (snapshot o) (snapshot n) i.
Proof.
  revert parent index. induction t as [id ty p kids IH] using Tree_forall_ind.
  intros parent index. set (t := Node id ty p kids) in *.
  rewrite updates_unfold, elem_of_app, updatesAll_elem. cbn [subtrees]. fold t.
  intros [(i & k & Hi & Hm) | Hm].
  - apply list_elem_of_lookup_2 in Hi. rewrite Forall_forall in IH.
    apply (IH k Hi) in Hm as (o & n & q & i' & Hn & Hrest).
    exists o, n, q, i'. split; [ | done ]. by apply (nodes_of_child t k).
  - destruct (lookup A (rootId t)) as [o |] eqn:E; [ | by apply elem_of_nil in Hm ].
    destruct (contentEquals _ _); [ by apply elem_of_nil in Hm | ].
    apply list_elem_of_singleton in Hm. exists o, t, parent, index.
    split; [ apply root_in_nodes | done ].
Qed.

End Shape.
Section Stayed.
Context {Props : Type}.
Implicit Types (t o n k : Tree Props) (ts olds news : list (Tree Props)).
Implicit Types (x y : Tag).

Lemma filter_ext_elem {A} (P Q : A -> Prop) `{!forall a, Decision (P a)}
    `{!forall a, Decision (Q a)} (l : list A) :
  (forall a, a ∈ l -> P a <-> Q a) -> filter P l = filter Q l.
Proof.
  induction l as [| a l IH]; intros Hext; [ done | ].
  rewrite !filter_cons.
  assert (IH' : filter P l = filter Q l).
  { apply IH. intros b Hb. apply Hext. by right. }
  destruct (decide (P a)) as [Hp | Hp], (decide (Q a)) as [Hq | Hq]; rewrite ?IH'; try done.
  - destruct Hq. apply Hext; [ left | done ].
  - destruct Hp. apply Hext; [ left | done ].
Qed.

(** Filtering a duplicate-free list by membership in one of its sublists
    gives that sublist back. *)
Lemma filter_sublist_id {A} `{EqDecision A} (l' l : list A) :
  l' `sublist_of` l -> NoDup l -> filter (.∈ l') l = l'.
Proof.
  induction 1 as [| a l1 l2 Hsub IH | a l1 l2 Hsub IH]; intros Hnd.
  - done.
  - apply NoDup_cons in Hnd as [Ha Hnd].
    rewrite filter_cons_True by left. f_equal.
    etrans; [ | apply (IH Hnd) ]. apply filter_ext_elem.
    intros b Hb. rewrite elem_of_cons. split; [ | by right ].
    intros [-> | ?]; [ done | done ].
  - apply NoDup_cons in Hnd as [Ha Hnd].
    rewrite filter_cons_False; [ by apply IH | ].
    intros Hin. apply Ha. by eapply elem_of_sublist.
Qed.

Lemma stayed_sublist_news olds (lastPlaced : nat) news :
  stayed olds lastPlaced news `sublist_of` (rootId <$> news).
Proof.
  revert lastPlaced. induction news as [| k news IH]; intros lp; cbn; [ done | ].
  destruct (indexOf (rootId k) olds) as [i |].
  - destruct (lp <=? i)%nat; [ by apply sublist_skip | by apply sublist_cons ].
  - by apply sublist_cons.
Qed.

Lemma indexOf_lookup olds x (i : nat) :
  indexOf x olds = Some i -> (rootId <$> olds) !! i = Some x.
Proof.
  intros (k & Hk & <-)%indexOf_Some. by rewrite list_lookup_fmap, Hk.
Qed.

Lemma sublist_drop_le {A} (l : list A) (i j : nat) :
  (i <= j)%nat -> drop j l `sublist_of` drop i l.
Proof.
  intros Hle. replace j with (i + (j - i))%nat by lia.
  rewrite <- drop_drop. apply sublist_drop.
Qed.

Lemma stayed_sublist_after olds news :
  forall (lastPlaced : nat) x,
    NoDup (rootId <$> news) ->
    (rootId <$> olds) !! lastPlaced = Some x -> x ∉ rootId <$> news ->
    stayed olds lastPlaced news `sublist_of` drop (S lastPlaced) (rootId <$> olds).
Proof.
  induction news as [| k news IH]; intros lp x Hnd Hlp Hx; cbn [stayed].
  - apply sublist_nil_l.
  - cbn in Hnd, Hx. apply NoDup_cons in Hnd as [Hk Hnd].
    apply not_elem_of_cons in Hx as [Hne Hx].
    destruct (indexOf (rootId k) olds) as [i |] eqn:Hi; [ | by eapply IH ].
    destruct (Nat.leb_spec lp i) as [Hle | Hlt]; [ | by eapply IH ].
    apply indexOf_lookup in Hi.
    assert (S lp <= i)%nat as Hlt.
    { destruct (decide (i = lp)) as [-> | ?]; [ congruence | lia ]. }
    etrans; [ | apply (sublist_drop_le _ (S lp) i Hlt) ].
    rewrite (drop_S _ _ _ Hi). apply sublist_skip. by eapply IH.
Qed.

Lemma stayed_sublist_olds olds news :
  NoDup (rootId <$> news) ->
  stayed olds 0 news `sublist_of` (rootId <$> olds).
Proof.
  induction news as [| k news IH]; intros Hnd; cbn [stayed].
  - apply sublist_nil_l.
  - cbn in Hnd. apply NoDup_cons in Hnd as [Hk Hnd].
    destruct (indexOf (rootId k) olds) as [i |] eqn:Hi; [ | by apply IH ].
    cbn. apply indexOf_lookup in Hi.
    etrans; [ | apply (sublist_drop (rootId <$> olds) i) ].
    rewrite (drop_S _ _ _ Hi). apply sublist_skip.
    by eapply stayed_sublist_after.
Qed.

(** The children that stay are the same, in the same order, in the old and
    in the new child list. *)
Lemma kept_same olds news :
  NoDup (rootId <$> olds) -> NoDup (rootId <$> news) ->
  filter (.∈ stayed olds 0 news) (rootId <$> olds) =
  filter (.∈ stayed olds 0 news) (rootId <$> news).
Proof.
  intros Ho Hn.
  rewrite (filter_sublist_id _ _ (stayed_sublist_olds olds news Hn) Ho).
  by rewrite (filter_sublist_id _ _ (stayed_sublist_news olds 0 news) Hn).
Qed.

Lemma stayed_in_olds olds news x :
  NoDup (rootId <$> news) -> x ∈ stayed olds 0 news -> x ∈ rootId <$> olds.
Proof. intros Hn Hx. eapply elem_of_sublist; [ done | by apply stayed_sublist_olds ]. Qed.

Lemma stayed_in_news olds news x :
  x ∈ stayed olds 0 news -> x ∈ rootId <$> news.
Proof. intros Hx. eapply elem_of_sublist; [ done | apply stayed_sublist_news ]. Qed.

End Stayed.

Section Ordering.
Context {Props : Type}.
Variable contentEquals : Props -> Props -> bool.
Variable emptyProps : Props.
Implicit Types (t o n k c : Tree Props) (ts olds news : list (Tree Props)).
Implicit Types (m : Instruction Props) (l : list (Instruction Props)).
Implicit Types (R : Instruction Props -> Instruction Props -> Prop).
Implicit Types (x y : Tag).

Lemma Ordered_nil R : Ordered R [].
Proof. intros i j m' m Hi. by rewrite lookup_nil in Hi. Qed.

Lemma Ordered_singleton R m : Ordered R [m].
Proof.
  intros i j m1 m2 Hi Hj Hlt.
  apply lookup_lt_Some in Hi, Hj. cbn in *. lia.
Qed.

Lemma Ordered_app R l1 l2 :
  Ordered R l1 -> Ordered R l2 ->
  (forall m' m, m' ∈ l1 -> m ∈ l2 -> ~ R m' m) ->
  Ordered R (l1 ++ l2).
Proof.
  intros H1 H2 Hcross i j m' m Hi Hj Hlt.
  apply lookup_app_Some in Hi as [Hi | [Hge Hi]];
    apply lookup_app_Some in Hj as [Hj | [Hge' Hj]].
  - by apply (H1 i j).
  - apply Hcross; by eapply list_elem_of_lookup_2.
  - apply lookup_lt_Some in Hj. lia.
  - apply (H2 _ _ _ _ Hi Hj). lia.
Qed.

(** A list none of whose instructions is a forbidden predecessor, or a
    forbidden successor, is ordered. *)
Lemma Ordered_no_left R l :
  (forall m' m, m' ∈ l -> ~ R m' m) -> Ordered R l.
Proof. intros Hno i j m' m Hi _ _. eapply Hno, list_elem_of_lookup_2, Hi. Qed.

(** Two trees of a forest with unique identities that share an identity
    are the same tree. *)
Lemma forest_disjoint ts k1 k2 x :
  NoDup (ts ≫= ids) -> k1 ∈ ts -> k2 ∈ ts -> x ∈ ids k1 -> x ∈ ids k2 -> k1 = k2.
Proof.
  induction ts as [| k ts IH]; intros Hnd H1 H2 Hx1 Hx2.
  - by apply elem_of_nil in H1.
  - apply NoDup_bind_cons in Hnd as (_ & Hdisj & Hrest).
    apply elem_of_cons in H1 as [-> | H1]; apply elem_of_cons in H2 as [-> | H2].
    + done.
    + destruct (Hdisj x Hx1). apply list_elem_of_bind. eauto.
    + destruct (Hdisj x Hx2). apply list_elem_of_bind. eauto.
    + by apply IH.
Qed.

Lemma bind_ids_in_ids t x : x ∈ subtrees t ≫= ids -> x ∈ ids t.
Proof. intros Hx. rewrite ids_unfold. by right. Qed.

(** A child of a node of [t] lies strictly below the root of [t]. *)
Lemma child_of_node_below t o c :
  o ∈ nodes t -> c ∈ subtrees o -> rootId c ∈ subtrees t ≫= ids.
Proof.
  intros Ho Hc. rewrite nodes_unfold in Ho. apply elem_of_cons in Ho as [-> | Ho].
  - by apply child_ids_in_bind.
  - apply list_elem_of_bind in Ho as (k & Ho & Hk). apply list_elem_of_bind.
    exists k. split; [ | done ]. apply (node_ids_in_ids k o); [ done | ].
    apply (ids_of_child o c); [ done | apply rootId_in_ids ].
Qed.

(** *** Kinds and subjects of the three parts *)

Lemma detach_subject (B : Tree Props) t m :
  m ∈ detach emptyProps B t ->
  subject m ∈ subtrees t ≫= ids /\ (type m = Remove \/ type m = Delete).
Proof.
  intros (o & j & c & Ho & Hj & _ & Hm)%detach_elem.
  apply list_elem_of_lookup_2 in Hj.
  pose proof (child_of_node_below t o c Ho Hj) as Hbelow.
  destruct Hm as [-> | [_ ->]]; cbn; auto.
Qed.

Lemma attach_subject (A : Tree Props) t m :
  m ∈ attach emptyProps A t ->
  subject m ∈ subtrees t ≫= ids /\ (type m = Create \/ type m = Insert).
Proof.
  intros (o & j & c & Ho & Hj & _ & Hm)%attach_elem.
  apply list_elem_of_lookup_2 in Hj.
  pose proof (child_of_node_below t o c Ho Hj) as Hbelow.
  destruct Hm as [-> | [_ ->]]; cbn; auto.
Qed.

Lemma detachAll_subject below (parent : ViewSnapshot Props) keep newIds olds (i : nat) m :
  (forall o m, o ∈ olds -> m ∈ below o ->
     subject m ∈ subtrees o ≫= ids /\ (type m = Remove \/ type m = Delete)) ->
  m ∈ detachAll emptyProps below parent keep newIds olds i ->
  subject m ∈ olds ≫= ids /\ (type m = Remove \/ type m = Delete).
Proof.
  intros Hb [(o & Ho & Hm) | (j & c & Hj & _ & Hm)]%detachAll_elem.
  - destruct (Hb o m Ho Hm) as [Hs Ht]. split; [ | done ].
    apply list_elem_of_bind. exists o. split; [ by apply bind_ids_in_ids | done ].
  - apply list_elem_of_lookup_2 in Hj.
    destruct Hm as [-> | [_ ->]]; cbn; (split; [ by apply child_ids_in_bind | auto ]).
Qed.

Lemma attachAll_subject below (parent : ViewSnapshot Props) keep oldIds news (j : nat) m :
  (forall k m, k ∈ news -> m ∈ below k ->
     subject m ∈ subtrees k ≫= ids /\ (type m = Create \/ type m = Insert)) ->
  m ∈ attachAll emptyProps below parent keep oldIds news j ->
  subject m ∈ news ≫= ids /\ (type m = Create \/ type m = Insert).
Proof.
  intros Hb [(o & Ho & Hm) | (i & c & Hi & _ & Hm)]%attachAll_elem.
  - destruct (Hb o m Ho Hm) as [Hs Ht]. split; [ | done ].
    apply list_elem_of_bind. exists o. split; [ by apply bind_ids_in_ids | done ].
  - apply list_elem_of_lookup_2 in Hi.
    destruct Hm as [-> | [_ ->]]; cbn; (split; [ by apply child_ids_in_bind | auto ]).
Qed.

(** *** A Delete never comes before the Remove of the same node *)

Lemma Ordered_detachAll below (parent : ViewSnapshot Props) keep newIds olds (i : nat) :
  NoDup (olds ≫= ids) ->
  (forall o, o ∈ olds -> Ordered DeleteBeforeRemove (below o)) ->
  (forall o m, o ∈ olds -> m ∈ below o ->
     subject m ∈ subtrees o ≫= ids /\ (type m = Remove \/ type m = Delete)) ->
  Ordered DeleteBeforeRemove (detachAll emptyProps below parent keep newIds olds i).
Proof.
  revert i. induction olds as [| o rest IH]; intros i Hnd Hord Hsub; cbn [detachAll].
  - apply Ordered_nil.
  - apply NoDup_bind_cons in Hnd as (Ho & Hdisj & Hrest).
    apply Ordered_app; [ | apply Ordered_app | ].
    + apply IH; [ done | | ]; intros; [ apply Hord | eapply Hsub ]; try done; by right.
    + apply Hord. by left.
    + repeat case_bool_decide; [ apply Ordered_nil | apply Ordered_singleton | ].
      intros a b m' m Ha Hb Hlt [Hd _].
      destruct a as [| a]; cbn in Ha; [ by injection Ha as <- | ].
      apply lookup_lt_Some in Hb. cbn in Hb. lia.
    + intros m' m Hm' Hm [_ [_ Hs]].
      destruct (Hsub o m' ltac:(by left) Hm') as [Hbelow _].
      assert (subject m = rootId o) as Hm0.
      { repeat case_bool_decide; [ by apply elem_of_nil in Hm | | ].
        - by apply list_elem_of_singleton in Hm as ->.
        - apply elem_of_cons in Hm as [-> | ->%list_elem_of_singleton]; done. }
      rewrite Hs, Hm0 in Hbelow. by apply (NoDup_ids_root o).
    + intros m' m Hm' Hm [_ [_ Hs]].
      apply detachAll_subject in Hm' as [Hm' _];
        [ | intros; eapply Hsub; [ by right | done ] ].
      apply (Hdisj (subject m)); [ | by rewrite <- Hs ].
      apply elem_of_app in Hm as [Hm | Hm].
      * destruct (Hsub o m ltac:(by left) Hm) as [Hbelow _]. by apply bind_ids_in_ids.
      * assert (subject m = rootId o) as ->; [ | apply rootId_in_ids ].
        repeat case_bool_decide; [ by apply elem_of_nil in Hm | | ].
        -- by apply list_elem_of_singleton in Hm as ->.
        -- apply elem_of_cons in Hm as [-> | ->%list_elem_of_singleton]; done.
Qed.

Lemma Ordered_detach (B : Tree Props) t :
  NoDup (ids t) -> Ordered DeleteBeforeRemove (detach emptyProps B t).
Proof.
  induction t as [id ty p kids IH] using Tree_forall_ind. intros Hnd.
  rewrite detach_unfold. apply Ordered_detachAll.
  - by apply NoDup_ids_subtrees.
  - intros o Ho. rewrite Forall_forall in IH. apply IH; [ done | ].
    by apply (NoDup_ids_child (Node id ty p kids)).
  - intros o m _. apply detach_subject.
Qed.

(** *** A Create comes before the Insert of the same node *)

Lemma Ordered_attachAll below (parent : ViewSnapshot Props) keep oldIds news (j : nat) :
  NoDup (news ≫= ids) ->
  (forall k, k ∈ news -> Ordered InsertBeforeCreate (below k)) ->
  (forall k m, k ∈ news -> m ∈ below k ->
     subject m ∈ subtrees k ≫= ids /\ (type m = Create \/ type m = Insert)) ->
  Ordered InsertBeforeCreate (attachAll emptyProps below parent keep oldIds news j).
Proof.
  revert j. induction news as [| k rest IH]; intros j Hnd Hord Hsub; cbn [attachAll].
  - apply Ordered_nil.
  - apply NoDup_bind_cons in Hnd as (Hk & Hdisj & Hrest).
    assert (Hhead : forall m,
              m ∈ (if bool_decide (rootId k ∈ keep) then []
                   else if bool_decide (rootId k ∈ oldIds)
                        then [Insert_ emptyProps parent (snapshot k) (Z.of_nat j)]
                        else [Create_ emptyProps (snapshot k);
                              Insert_ emptyProps parent (snapshot k) (Z.of_nat j)]) ->
              subject m = rootId k).
    { intros m Hm. repeat case_bool_decide; [ by apply elem_of_nil in Hm | | ].
      - by apply list_elem_of_singleton in Hm as ->.
      - apply elem_of_cons in Hm as [-> | ->%list_elem_of_singleton]; done. }
    apply Ordered_app; [ | apply Ordered_app | ].
    + repeat case_bool_decide; [ apply Ordered_nil | apply Ordered_singleton | ].
      intros a b m' m Ha Hb Hlt [Hd _].
      destruct a as [| a]; cbn in Ha; [ by injection Ha as <- | ].
      apply lookup_lt_Some in Hb. cbn in Hb. lia.
    + apply Hord. by left.
    + apply IH; [ done | | ]; intros; [ apply Hord | eapply Hsub ]; try done; by right.
    + intros m' m Hm' Hm [_ [_ Hs]].
      apply attachAll_subject in Hm as [Hm _];
        [ | intros; eapply Hsub; [ by right | done ] ].
      apply (Hdisj (subject m')); [ | by rewrite Hs ].
      destruct (Hsub k m' ltac:(by left) Hm') as [Hbelow _]. by apply bind_ids_in_ids.
    + intros m' m Hm' Hm [_ [_ Hs]].
      apply Hhead in Hm'.
      apply elem_of_app in Hm as [Hm | Hm].
      * destruct (Hsub k m ltac:(by left) Hm) as [Hbelow _].
        rewrite <- Hs, Hm' in Hbelow. by apply (NoDup_ids_root k).
      * apply attachAll_subject in Hm as [Hm _];
          [ | intros; eapply Hsub; [ by right | done ] ].
        apply (Hdisj (subject m')); [ rewrite Hm'; apply rootId_in_ids | by rewrite Hs ].
Qed.

Lemma Ordered_attach (A : Tree Props) t :
  NoDup (ids t) -> Ordered InsertBeforeCreate (attach emptyProps A t).
Proof.
  induction t as [id ty p kids IH] using Tree_forall_ind. intros Hnd.
  rewrite attach_unfold. apply Ordered_attachAll.
  - by apply NoDup_ids_subtrees.
  - intros o Ho. rewrite Forall_forall in IH. apply IH; [ done | ].
    by apply (NoDup_ids_child (Node id ty p kids)).
  - intros o m _. apply attach_subject.
Qed.

(** *** The emitted list *)

Lemma diff_emits (A B : Tree Props) l :
  diff contentEquals emptyProps A B = inr l ->
  NoDup (ids A) /\ NoDup (ids B) /\ typesAgree A B = true /\
  l = removals emptyProps A B ++ changes contentEquals emptyProps A B
      ++ insertions emptyProps A B.
Proof.
  unfold diff, wellFormed.
  destruct (bool_decide (NoDup (ids A))) eqn:HA; [ | done ].
  destruct (bool_decide (NoDup (ids B))) eqn:HB; [ | done ].
  destruct (typesAgree A B) eqn:HT; [ | done ]. cbn. intros [= <-].
  apply bool_decide_eq_true in HA, HB. done.
Qed.

Lemma removals_kinds (A B : Tree Props) m :
  m ∈ removals emptyProps A B -> type m = Remove \/ type m = Delete.
Proof.
  intros Hm. apply detachAll_subject in Hm as [_ Hm]; [ done | ].
  intros o m' _. apply detach_subject.
Qed.

Lemma changes_kinds (A B : Tree Props) m :
  m ∈ changes contentEquals emptyProps A B -> type m = Update.
Proof.
  intros (i & k & _ & Hm)%updatesAll_elem.
  by apply updates_elem in Hm as (o & n & p & i' & _ & _ & ->).
Qed.

Lemma insertions_kinds (A B : Tree Props) m :
  m ∈ insertions emptyProps A B -> type m = Create \/ type m = Insert.
Proof.
  intros Hm. apply attachAll_subject in Hm as [_ Hm]; [ done | ].
  intros o m' _. apply attach_subject.
Qed.

Lemma Ordered_removals (A B : Tree Props) :
  NoDup (ids A) -> Ordered DeleteBeforeRemove (removals emptyProps A B).
Proof.
  intros HA. apply Ordered_detachAll.
  - by rewrite bind_single.
  - intros o ->%list_elem_of_singleton. by apply Ordered_detach.
  - intros o m _. apply detach_subject.
Qed.

Lemma Ordered_insertions (A B : Tree Props) :
  NoDup (ids B) -> Ordered InsertBeforeCreate (insertions emptyProps A B).
Proof.
  intros HB. apply Ordered_attachAll.
  - by rewrite bind_single.
  - intros o ->%list_elem_of_singleton. by apply Ordered_attach.
  - intros o m _. apply attach_subject.
Qed.

(** C2: in every instruction list emitted by [diff],
    - every Remove comes before every Insert: no Insert, into whatever
      position of whatever parent, is emitted while a Remove is still to
      come;
    - a Delete never precedes a Remove of the same node;
    - a Create precedes every Insert of the same node. *)
Theorem diff_emits_in_order (A B : Tree Props) l :
  diff contentEquals emptyProps A B = inr l ->
  (forall (i j : nat) mi mj,
      l !! i = Some mi -> l !! j = Some mj ->
      type mi = Insert -> type mj = Remove ->
      (j < i)%nat) /\
  (forall (i j : nat) mi mj,
      l !! i = Some mi -> l !! j = Some mj ->
      type mi = Delete -> type mj = Remove -> subject mi = subject mj ->
      (j < i)%nat) /\
  (forall (i j : nat) mi mj,
      l !! i = Some mi -> l !! j = Some mj ->
      type mi = Create -> type mj = Insert -> subject mi = subject mj ->
      (i < j)%nat).
Proof.
  intros (HA & HB & _ & ->)%diff_emits.
  set (lr := removals emptyProps A B). set (lu := changes contentEquals emptyProps A B).
  set (li := insertions emptyProps A B).
  assert (Hr : forall m, m ∈ lr -> type m = Remove \/ type m = Delete)
    by apply removals_kinds.
  assert (Hu : forall m, m ∈ lu -> type m = Update) by apply changes_kinds.
  assert (Hi : forall m, m ∈ li -> type m = Create \/ type m = Insert)
    by apply insertions_kinds.
  split_and!.
  - intros i j mi mj Hmi Hmj Hti Htj.
    apply lookup_app_Some in Hmj as [Hmj | [Hge Hmj]].
    + apply lookup_lt_Some in Hmj as Hlt.
      apply lookup_app_Some in Hmi as [Hmi | [Hge Hmi]]; [ | lia ].
      apply list_elem_of_lookup_2, Hr in Hmi. destruct Hmi; congruence.
    + apply list_elem_of_lookup_2, elem_of_app in Hmj as [Hmj%Hu | Hmj%Hi];
        [ congruence | destruct Hmj; congruence ].
  - intros i j mi mj Hmi Hmj Hti Htj Hs.
    destruct (lt_eq_lt_dec i j) as [[Hlt | ->] | Hlt]; [ | congruence | done ].
    exfalso. revert i j mi mj Hmi Hmj Hlt Hti Htj Hs.
    assert (Hord : Ordered DeleteBeforeRemove (lr ++ lu ++ li)).
    { apply Ordered_app; [ by apply Ordered_removals | | ].
      - apply Ordered_no_left. intros m' m Hm' [Hd _].
        apply elem_of_app in Hm' as [Hm'%Hu | Hm'%Hi]; [ congruence | destruct Hm'; congruence ].
      - intros m' m _ Hm [_ [Hd _]].
        apply elem_of_app in Hm as [Hm%Hu | Hm%Hi]; [ congruence | destruct Hm; congruence ]. }
    intros i j mi mj Hmi Hmj Hlt Hti Htj Hs. by apply (Hord i j mi mj).
  - intros i j mi mj Hmi Hmj Hti Htj Hs.
    destruct (lt_eq_lt_dec i j) as [[Hlt | ->] | Hlt]; [ done | congruence | ].
    exfalso. revert i j mi mj Hmi Hmj Hlt Hti Htj Hs.
    assert (Hord : Ordered InsertBeforeCreate (lr ++ lu ++ li)).
    { apply Ordered_app; [ | apply Ordered_app | ].
      - apply Ordered_no_left. intros m' m Hm'%Hr [Hd _]. destruct Hm'; congruence.
      - apply Ordered_no_left. intros m' m Hm'%Hu [Hd _]. congruence.
      - by apply Ordered_insertions.
      - intros m' m Hm'%Hu _ [Hd _]. congruence.
      - intros m' m Hm'%Hr _ [Hd _]. destruct Hm'; congruence. }
    intros i j mi mj Hmi Hmj Hlt Hti Htj Hs. by apply (Hord j i mj mi).
Qed.

End Ordering.

Section Identity.
Context {Props : Type}.
Variable contentEquals : Props -> Props -> bool.
Variable emptyProps : Props.
Implicit Types (t o n k c : Tree Props) (ts olds news : list (Tree Props)).
Implicit Types (m : Instruction Props) (l : list (Instruction Props)).
Implicit Types (x y : Tag).

(** A node of a tree is its root or a child of one of its nodes. *)
Lemma node_root_or_child t n :
  n ∈ nodes t -> n = t \/ exists o, o ∈ nodes t /\ n ∈ subtrees o.
Proof.
  induction t as [id ty p kids IH] using Tree_forall_ind.
  set (t := Node id ty p kids) in *. intros Hn.
  rewrite nodes_unfold in Hn. apply elem_of_cons in Hn as [-> | Hn]; [ by left | ].
  right. apply list_elem_of_bind in Hn as (k & Hn & Hk). cbn [subtrees] in Hk.
  rewrite Forall_forall in IH. destruct (IH k Hk Hn) as [-> | (o & Ho & Hc)].
  - exists t. split; [ apply root_in_nodes | done ].
  - exists o. split; [ by apply (nodes_of_child t k) | done ].
Qed.

Lemma ids_root_or_child t x :
  x ∈ ids t ->
  x = rootId t \/
  exists o (j : nat) c, o ∈ nodes t /\ subtrees o !! j = Some c /\ rootId c = x.
Proof.
  unfold ids. intros (n & -> & Hn)%list_elem_of_fmap.
  destruct (node_root_or_child t n Hn) as [-> | (o & Ho & Hc)]; [ by left | ].
  right. apply list_elem_of_lookup_1 in Hc as [j Hj]. by exists o, j, n.
Qed.

(** With unique identities, an identity is a child of one node only, and
    never that of the root. *)
Lemma child_parent_unique t o o' c c' :
  NoDup (ids t) -> o ∈ nodes t -> o' ∈ nodes t ->
  c ∈ subtrees o -> c' ∈ subtrees o' -> rootId c = rootId c' -> o = o'.
Proof.
  revert o o' c c'. induction t as [id ty p kids IH] using Tree_forall_ind.
  set (t := Node id ty p kids) in *. intros o o' c c' Hnd Ho Ho' Hc Hc' Hid.
  pose proof (NoDup_ids_subtrees t Hnd) as Hforest. cbn [subtrees] in Hforest.
  assert (Hmix : forall a' d d' k,
            k ∈ kids -> a' ∈ nodes k -> d ∈ kids -> d' ∈ subtrees a' ->
            rootId d = rootId d' -> False).
  { intros a' d d' k Hk Ha' Hd Hd' Hdd.
    pose proof (child_of_node_below k a' d' Ha' Hd') as Hbelow.
    assert (d = k) as ->.
    { apply (forest_disjoint kids d k (rootId d)); try done.
      - apply rootId_in_ids.
      - rewrite Hdd. by apply bind_ids_in_ids. }
    rewrite <- Hdd in Hbelow. apply (NoDup_ids_root k); [ | done ].
    by apply (NoDup_ids_child t). }
  rewrite nodes_unfold in Ho, Ho'.
  apply elem_of_cons in Ho as [-> | Ho]; apply elem_of_cons in Ho' as [-> | Ho'].
  - done.
  - apply list_elem_of_bind in Ho' as (k & Ho' & Hk). cbn [subtrees] in Hk, Hc.
    destruct (Hmix o' c c' k); done.
  - apply list_elem_of_bind in Ho as (k & Ho & Hk). cbn [subtrees] in Hk, Hc'.
    destruct (Hmix o c' c k); done.
  - apply list_elem_of_bind in Ho as (k & Ho & Hk).
    apply list_elem_of_bind in Ho' as (k' & Ho' & Hk'). cbn [subtrees] in Hk, Hk'.
    assert (k = k') as <-.
    { apply (forest_disjoint kids k k' (rootId c)); try done.
      - apply bind_ids_in_ids. by apply (child_of_node_below k o c).
      - rewrite Hid. apply bind_ids_in_ids.
        by apply (child_of_node_below k' o' c'). }
    rewrite Forall_forall in IH. apply (IH k Hk o o' c c'); try done.
    by apply (NoDup_ids_child t).
Qed.

Lemma child_not_root t o c :
  NoDup (ids t) -> o ∈ nodes t -> c ∈ subtrees o -> rootId c <> rootId t.
Proof.
  intros Hnd Ho Hc Heq.
  pose proof (child_of_node_below t o c Ho Hc) as Hbelow.
  rewrite Heq in Hbelow. by apply (NoDup_ids_root t).
Qed.

Lemma stayed_roots (A B : Tree Props) :
  stayed [A] 0 [B] = if bool_decide (rootId A = rootId B) then [rootId B] else [].
Proof. cbn. by case_bool_decide. Qed.

(** The children kept under a parent are the same whether the parent is
    looked up from the old tree or from the new one. *)
Lemma kept_both (A B : Tree Props) o n :
  NoDup (ids A) -> NoDup (ids B) -> o ∈ nodes A -> n ∈ nodes B ->
  rootId o = rootId n ->
  kept (Some o) (lookup B (rootId o)) = stayed (subtrees o) 0 (subtrees n) /\
  kept (lookup A (rootId n)) (Some n) = stayed (subtrees o) 0 (subtrees n).
Proof.
  intros HA HB Ho Hn Hid. rewrite Hid at 1. rewrite (lookup_node B n HB Hn).
  rewrite <- Hid, (lookup_node A o HA Ho). done.
Qed.

Lemma removals_elem (A B : Tree Props) m :
  m ∈ removals emptyProps A B <->
  (rootId A <> rootId B /\
   (m = Remove_ emptyProps (emptySnapshot emptyProps) (snapshot A) 0 \/
    ((rootId A ∉ ids B) /\ m = Delete_ emptyProps (snapshot A)))) \/
  m ∈ detach emptyProps B A.
Proof.
  unfold removals. rewrite detachAll_elem, stayed_roots. split.
  - intros [(o & ->%list_elem_of_singleton & Hm) | (j & c & Hj & Hk & Hm)]; [ by right | ].
    left. destruct j as [| j]; [ | done ]. injection Hj as <-.
    case_bool_decide as Hr; [ destruct Hk; rewrite Hr; by left | ]. done.
  - intros [[Hr Hm] | Hm].
    + right. exists 0%nat, A. rewrite bool_decide_eq_false_2 by done.
      split_and!; [ done | apply not_elem_of_nil | done ].
    + left. exists A. split; [ by apply list_elem_of_singleton | done ].
Qed.

Lemma insertions_elem (A B : Tree Props) m :
  m ∈ insertions emptyProps A B <->
  (rootId A <> rootId B /\
   (m = Insert_ emptyProps (emptySnapshot emptyProps) (snapshot B) 0 \/
    ((rootId B ∉ ids A) /\ m = Create_ emptyProps (snapshot B)))) \/
  m ∈ attach emptyProps A B.
Proof.
  unfold insertions. rewrite attachAll_elem, stayed_roots. split.
  - intros [(o & ->%list_elem_of_singleton & Hm) | (j & c & Hj & Hk & Hm)]; [ by right | ].
    left. destruct j as [| j]; [ | done ]. injection Hj as <-.
    case_bool_decide as Hr; [ destruct Hk; by left | ]. done.
  - intros [[Hr Hm] | Hm].
    + right. exists 0%nat, B. rewrite bool_decide_eq_false_2 by done.
      split_and!; [ done | apply not_elem_of_nil | done ].
    + left. exists B. split; [ by apply list_elem_of_singleton | done ].
Qed.

(** An identity of both trees that a Remove detaches is attached by an
    Insert: it does not stay where it was, so it is not where it was. *)
Lemma removed_is_inserted (A B : Tree Props) x m :
  NoDup (ids A) -> NoDup (ids B) -> x ∈ ids B ->
  m ∈ removals emptyProps A B -> type m = Remove -> subject m = x ->
  exists m', m' ∈ insertions emptyProps A B /\ type m' = Insert /\ subject m' = x.
Proof.
  intros HA HB HxB Hm Hty Hs.
  destruct (ids_root_or_child B x HxB) as [-> | (q & j & n & Hq & Hj & <-)].
  - (* the root of the new tree *)
    destruct (decide (rootId A = rootId B)) as [Hr | Hr].
    + exfalso. apply removals_elem in Hm as [[Hne _] | Hm]; [ done | ].
      apply detach_elem in Hm as (o & i & c & Ho & Hi & _ & [-> | [_ ->]]); [ | done ].
      cbn in Hs. apply list_elem_of_lookup_2 in Hi.
      apply (child_not_root A o c); [ done .. | congruence ].
    + exists (Insert_ emptyProps (emptySnapshot emptyProps) (snapshot B) 0).
      split; [ | done ]. apply insertions_elem. left. auto.
  - (* a child in the new tree *)
    destruct (decide (rootId n ∈ kept (lookup A (rootId q)) (Some q))) as [Hin | Hout].
    + exfalso. destruct (lookup A (rootId q)) as [o' |] eqn:Eo; [ | by apply elem_of_nil in Hin ].
      cbn [kept] in Hin. apply lookup_Some in Eo as [Ho' Hidq].
      assert (Hrootsq : NoDup (rootId <$> subtrees q)).
      { apply NoDup_forest_roots, NoDup_ids_subtrees. by apply (NoDup_ids_node B). }
      pose proof (stayed_in_olds _ _ _ Hrootsq Hin) as (c' & Hc'id & Hc')%list_elem_of_fmap.
      apply removals_elem in Hm as [[Hne [-> | [_ ->]]] | Hm]; [ | done | ].
      * cbn in Hs. apply (child_not_root A o' c'); [ done .. | congruence ].
      * apply detach_elem in Hm as (o & i & c & Ho & Hi & Hk & [-> | [_ ->]]); [ | done ].
        cbn in Hs. apply list_elem_of_lookup_2 in Hi.
        assert (o = o') as ->.
        { apply (child_parent_unique A o o' c c'); try done. cbn in Hs. congruence. }
        destruct (kept_both A B o' q HA HB Ho' Hq Hidq) as [Hk1 _].
        rewrite Hk1 in Hk. apply Hk. cbn in Hs. by rewrite Hs.
    + exists (Insert_ emptyProps (snapshot q) (snapshot n) (Z.of_nat j)).
      split; [ | done ]. apply insertions_elem. right. apply attach_elem.
      exists q, j, n. auto.
Qed.

Lemma inserted_is_removed (A B : Tree Props) x m :
  NoDup (ids A) -> NoDup (ids B) -> x ∈ ids A ->
  m ∈ insertions emptyProps A B -> type m = Insert -> subject m = x ->
  exists m', m' ∈ removals emptyProps A B /\ type m' = Remove /\ subject m' = x.
Proof.
  intros HA HB HxA Hm Hty Hs.
  destruct (ids_root_or_child A x HxA) as [-> | (o & j & c & Ho & Hj & <-)].
  - (* the root of the old tree *)
    destruct (decide (rootId A = rootId B)) as [Hr | Hr].
    + exfalso. apply insertions_elem in Hm as [[Hne _] | Hm]; [ done | ].
      apply attach_elem in Hm as (n & i & c & Hn & Hi & _ & [-> | [_ ->]]); [ | done ].
      cbn in Hs. apply list_elem_of_lookup_2 in Hi.
      apply (child_not_root B n c); [ done .. | congruence ].
    + exists (Remove_ emptyProps (emptySnapshot emptyProps) (snapshot A) 0).
      split; [ | done ]. apply removals_elem. left. auto.
  - (* a child in the old tree *)
    destruct (decide (rootId c ∈ kept (Some o) (lookup B (rootId o)))) as [Hin | Hout].
    + exfalso. destruct (lookup B (rootId o)) as [q' |] eqn:Eq; [ | by apply elem_of_nil in Hin ].
      cbn [kept] in Hin. apply lookup_Some in Eq as [Hq' Hido].
      pose proof (stayed_in_news _ _ _ Hin) as (c' & Hc'id & Hc')%list_elem_of_fmap.
      apply insertions_elem in Hm as [[Hne [-> | [_ ->]]] | Hm]; [ | done | ].
      * cbn in Hs. apply (child_not_root B q' c'); [ done .. | congruence ].
      * apply attach_elem in Hm as (n & i & d & Hn & Hi & Hk & [-> | [_ ->]]); [ | done ].
        cbn in Hs. apply list_elem_of_lookup_2 in Hi.
        assert (n = q') as ->.
        { apply (child_parent_unique B n q' d c'); try done. cbn in Hs. congruence. }
        destruct (kept_both A B o q' HA HB Ho Hq' (eq_sym Hido)) as [_ Hk2].
        rewrite Hk2 in Hk. apply Hk. cbn in Hs. by rewrite Hs.
    + exists (Remove_ emptyProps (snapshot o) (snapshot c) (Z.of_nat j)).
      split; [ | done ]. apply removals_elem. right. apply detach_elem.
      exists o, j, c. auto.
Qed.

(** C4: for two trees that [diff] accepts, a node whose identity is in
    both is referenced by the emitted list only as an Update, a Remove or
    an Insert, never as a Delete or a Create; every Remove of it is
    followed by an Insert of it, and every Insert of it comes after a
    Remove of it. *)
Theorem matched_identity_is_preserved (A B : Tree Props) l x :
  diff contentEquals emptyProps A B = inr l ->
  x ∈ ids A -> x ∈ ids B ->
  (forall m, m ∈ l -> subject m = x ->
     type m = Update \/ type m = Remove \/ type m = Insert) /\
  (forall (i : nat) mi, l !! i = Some mi -> type mi = Remove -> subject mi = x ->
     exists (j : nat) mj,
       (i < j)%nat /\ l !! j = Some mj /\ type mj = Insert /\ subject mj = x) /\
  (forall (i : nat) mi, l !! i = Some mi -> type mi = Insert -> subject mi = x ->
     exists (j : nat) mj,
       (j < i)%nat /\ l !! j = Some mj /\ type mj = Remove /\ subject mj = x).
Proof.
  intros (HA & HB & _ & ->)%diff_emits HxA HxB.
  pose proof (removals_kinds emptyProps A B) as Hr.
  pose proof (changes_kinds contentEquals emptyProps A B) as Hu.
  pose proof (insertions_kinds emptyProps A B) as Hi.
  split_and!.
  - intros m Hm Hs. apply elem_of_app in Hm as [Hm | Hm]; [ | apply elem_of_app in Hm as [Hm | Hm] ].
    + apply removals_elem in Hm as [[_ [-> | [Hnot ->]]] | Hm];
        [ auto | cbn in Hs; destruct Hnot; by rewrite Hs | ].
      apply detach_elem in Hm as (o & j & c & _ & _ & _ & [-> | [Hnot ->]]); [ auto | ].
      cbn in Hs. by destruct Hnot; rewrite Hs.
    + left. by apply Hu.
    + apply insertions_elem in Hm as [[_ [-> | [Hnot ->]]] | Hm];
        [ auto | cbn in Hs; destruct Hnot; by rewrite Hs | ].
      apply attach_elem in Hm as (o & j & c & _ & _ & _ & [-> | [Hnot ->]]); [ auto | ].
      cbn in Hs. by destruct Hnot; rewrite Hs.
  - intros i mi Hmi Hty Hs.
    apply lookup_app_Some in Hmi as [Hmi | [Hge Hmi]].
    + apply lookup_lt_Some in Hmi as Hlt. apply list_elem_of_lookup_2 in Hmi.
      destruct (removed_is_inserted A B x mi HA HB HxB Hmi Hty Hs) as (mj & Hmj & Htj & Hsj).
      apply list_elem_of_lookup_1 in Hmj as [j Hj].
      exists (length (removals emptyProps A B) +
              (length (changes contentEquals emptyProps A B) + j))%nat, mj.
      unfold Instruction in *.
      split_and!; [ lia | | done | done ].
      rewrite lookup_app_r by lia. rewrite lookup_app_r by lia.
      rewrite <- Hj. f_equal. lia.
    + apply list_elem_of_lookup_2, elem_of_app in Hmi as [Hmi%Hu | Hmi%Hi];
        [ congruence | destruct Hmi; congruence ].
  - intros i mi Hmi Hty Hs.
    apply lookup_app_Some in Hmi as [Hmi | [Hge Hmi]].
    { apply list_elem_of_lookup_2, Hr in Hmi. destruct Hmi; congruence. }
    apply lookup_app_Some in Hmi as [Hmi | [Hge' Hmi]].
    { apply list_elem_of_lookup_2, Hu in Hmi. congruence. }
    apply list_elem_of_lookup_2 in Hmi.
    destruct (inserted_is_removed A B x mi HA HB HxA Hmi Hty Hs) as (mj & Hmj & Htj & Hsj).
    apply list_elem_of_lookup_1 in Hmj as [j Hj]. apply lookup_lt_Some in Hj as Hlt.
    exists j, mj. unfold Instruction in *. split_and!; [ lia | | done | done ].
    by apply lookup_app_l_Some.
Qed.

End Identity.

(** The three orders on the list emitted for the sample trees. *)
Lemma diff_emits_in_order_witness :
  (forall (i j : nat) mi mj,
      sampleList !! i = Some mi -> sampleList !! j = Some mj ->
      type mi = Insert -> type mj = Remove -> (j < i)%nat) /\
  (forall (i j : nat) mi mj,
      sampleList !! i = Some mi -> sampleList !! j = Some mj ->
      type mi = Delete -> type mj = Remove -> subject mi = subject mj ->
      (j < i)%nat) /\
  (forall (i j : nat) mi mj,
      sampleList !! i = Some mi -> sampleList !! j = Some mj ->
      type mi = Create -> type mj = Insert -> subject mi = subject mj ->
      (i < j)%nat).
Proof.
  apply (diff_emits_in_order String.eqb "" sampleOld sampleNew sampleList).
  vm_compute. reflexivity.
Defined.

(** Node 11 of the sample trees, which trades places with node 12. *)
Lemma matched_identity_is_preserved_witness :
  (forall m, m ∈ sampleList -> subject m = 11 ->
     type m = Update \/ type m = Remove \/ type m = Insert) /\
  (forall (i : nat) mi,
     sampleList !! i = Some mi -> type mi = Remove -> subject mi = 11 ->
     exists (j : nat) mj,
       (i < j)%nat /\ sampleList !! j = Some mj /\ type mj = Insert /\
       subject mj = 11) /\
  (forall (i : nat) mi,
     sampleList !! i = Some mi -> type mi = Insert -> subject mi = 11 ->
     exists (j : nat) mj,
       (j < i)%nat /\ sampleList !! j = Some mj /\ type mj = Remove /\
       subject mj = 11).
Proof.
  apply (matched_identity_is_preserved String.eqb "" sampleOld sampleNew sampleList 11).
  - vm_compute. reflexivity.
  - apply (bool_decide_unpack _). vm_compute. reflexivity.
  - apply (bool_decide_unpack _). vm_compute. reflexivity.
Defined.

End DifferFacts.

(* ===================================================================== *)
(** * The in-memory host follows the identity store *)
(* ===================================================================== *)

Module IdentityStoreFacts.
Import ShadowViewMutation Reconciler IdentityStore Properties TreeFacts ApplierFacts.

Section Simulation.
Context {Props : Type}.
Implicit Types (st : Applier (MemoryHost Props)) (s : Store Props).
Implicit Types (g : gmap Tag Handle) (m : Instruction Props).
Implicit Types (x y c : Tag) (h : Handle) (e : Entry Props).

Lemma Forall2_insertAt {A B} (P : A -> B -> Prop) (i : nat) a b la lb :
  Forall2 P la lb -> P a b -> Forall2 P (insertAt i a la) (insertAt i b lb).
Proof.
  intros Hl Hab. unfold insertAt. apply Forall2_app.
  - by apply Forall2_take.
  - constructor; [ done | by apply Forall2_drop ].
Qed.

(** A view other than the one a step rewrites keeps its children's
    handles under an injection that grew. *)
Lemma kids_handles_mono g g' (kids : list Tag) (hs : list Handle) :
  g ⊆ g' ->
  Forall2 (fun c hc => g !! c = Some hc) kids hs ->
  Forall2 (fun c hc => g' !! c = Some hc) kids hs.
Proof.
  intros Hsub Hkids. eapply Forall2_impl; [ exact Hkids | ].
  intros c hc Hc. cbn in Hc. exact (lookup_weaken g g' c hc Hc Hsub).
Qed.

(** One step of the store is one step of the in-memory host. *)
Lemma follows_step g st s m s' :
  Follows g st s -> storeStep m s = Some s' ->
  exists g' st', step m st = inr st' /\ Follows g' st' s' /\ g ⊆ g'.
Proof.
  intros [Hmap Hview Hinj Hbound Hused] Hstep.
  unfold storeStep in Hstep. unfold step.
  destruct (type m) eqn:Hty.
  - (* Create *)
    case_bool_decide as Hfresh; [ done | ]. injection Hstep as <-.
    set (x := identity (newChildShadowView m)) in *.
    set (h := nextHandle (hostTree st)).
    assert (Hgx : g !! x = None).
    { destruct (g !! x) eqn:E; [ | done ]. destruct Hfresh. apply Hused. by eexists. }
    exists (<[x := h]> g). eexists. split; [ reflexivity | ]. split.
    + split; cbn.
      * intros y [e Hy]. destruct (decide (x = y)) as [<- | Hne].
        -- by rewrite !lookup_insert_eq.
        -- rewrite lookup_insert_ne in Hy by done. rewrite !lookup_insert_ne by done.
           apply Hmap. by exists e.
      * intros y e Hy. destruct (decide (x = y)) as [<- | Hne].
        -- rewrite lookup_insert_eq in Hy. injection Hy as <-.
           exists h, []. rewrite !lookup_insert_eq. cbn. by repeat split.
        -- rewrite lookup_insert_ne in Hy by done.
           destruct (Hview y e Hy) as (hy & hs & Hgy & Hv & Hkids).
           exists hy, hs. rewrite lookup_insert_ne by done. split_and!; [ done | | ].
           ++ rewrite lookup_insert_ne; [ done | ].
              apply Hbound in Hgy. unfold h. lia.
           ++ eapply kids_handles_mono; [ | done ]. by apply insert_subseteq.
      * intros y z hy Hy Hz.
        destruct (decide (x = y)) as [<- | Hy']; destruct (decide (x = z)) as [<- | Hz'];
          rewrite ?lookup_insert_eq, ?lookup_insert_ne in * by done; simplify_eq.
        -- done.
        -- apply Hbound in Hz. lia.
        -- apply Hbound in Hy. lia.
        -- by eapply Hinj.
      * intros y hy Hy. destruct (decide (x = y)) as [<- | Hne].
        -- rewrite lookup_insert_eq in Hy. injection Hy as <-. unfold h. lia.
        -- rewrite lookup_insert_ne in Hy by done. apply Hbound in Hy. lia.
      * intros y. rewrite elem_of_union, elem_of_singleton, Hused.
        destruct (decide (x = y)) as [<- | Hne].
        -- rewrite lookup_insert_eq. split; [ by eexists | by left ].
        -- rewrite lookup_insert_ne by done. split; [ intros [? | ?]; [ congruence | done ] | by right ].
    + by apply insert_subseteq.
  - (* Delete *)
    set (x := identity (oldChildShadowView m)) in *.
    destruct (live s !! x) as [e |] eqn:Hx; [ | done ]. injection Hstep as <-.
    destruct (Hview x e Hx) as (h & hs & Hgx & Hv & Hkids).
    rewrite (Hmap x) by (by eexists). rewrite Hgx.
    exists g. eexists. split; [ reflexivity | ]. split; [ | done ].
    split; cbn.
    + intros y [e' Hy]. destruct (decide (x = y)) as [<- | Hne].
      * by rewrite lookup_delete_eq in Hy.
      * rewrite lookup_delete_ne in Hy by done. rewrite lookup_delete_ne by done.
        apply Hmap. by exists e'.
    + intros y e' Hy. destruct (decide (x = y)) as [<- | Hne].
      * by rewrite lookup_delete_eq in Hy.
      * rewrite lookup_delete_ne in Hy by done.
        destruct (Hview y e' Hy) as (hy & hs' & Hgy & Hv' & Hkids').
        exists hy, hs'. split_and!; [ done | | done ].
        rewrite lookup_delete_ne; [ done | ]. intros Heq. apply Hne. subst. eapply Hinj; eauto.
    + done.
    + done.
    + done.
  - (* Insert *)
    set (xp := identity (parentShadowView m)) in *.
    set (xc := identity (newChildShadowView m)) in *.
    destruct (live s !! xp) as [e |] eqn:Hp; [ | done ].
    destruct (live s !! xc) as [ec |] eqn:Hc; [ | done ].
    case_bool_decide as Hidx; [ | done ]. injection Hstep as <-.
    destruct (Hview xp e Hp) as (hp & hs & Hgp & Hv & Hkids).
    destruct (Hview xc ec Hc) as (hc & hsc & Hgc & _ & _).
    rewrite (Hmap xp), (Hmap xc), Hgp, Hgc by (by eexists).
    cbn. unfold memAttachChild. rewrite Hv. cbn.
    rewrite <- (Forall2_length _ _ _ Hkids).
    rewrite bool_decide_eq_true_2 by done.
    exists g. eexists. split; [ reflexivity | ]. split; [ | done ].
    split; cbn.
    + intros y [e' Hy]. apply Hmap. destruct (decide (xp = y)) as [<- | Hne].
      * by eexists.
      * rewrite lookup_insert_ne in Hy by done. by eexists.
    + intros y e' Hy. destruct (decide (xp = y)) as [<- | Hne].
      * rewrite lookup_insert_eq in Hy. injection Hy as <-.
        exists hp. eexists. rewrite lookup_insert_eq. split_and!; [ done | done | ].
        cbn. by apply Forall2_insertAt.
      * rewrite lookup_insert_ne in Hy by done.
        destruct (Hview y e' Hy) as (hy & hs' & Hgy & Hv' & Hkids').
        exists hy, hs'. split_and!; [ done | | done ].
        rewrite lookup_insert_ne; [ done | ]. intros Heq. apply Hne. subst. eapply Hinj; eauto.
    + done.
    + done.
    + done.
  - (* Remove *)
    set (xp := identity (parentShadowView m)) in *.
    destruct (live s !! xp) as [e |] eqn:Hp; [ | done ].
    case_bool_decide as Hidx; [ | done ].
    destruct (entryKids e !! Z.to_nat (index m)) as [c |] eqn:Hc; [ | done ].
    injection Hstep as <-.
    destruct (Hview xp e Hp) as (hp & hs & Hgp & Hv & Hkids).
    rewrite (Hmap xp), Hgp by (by eexists).
    cbn. unfold memDetachChildAt. rewrite Hv. cbn.
    rewrite bool_decide_eq_true_2 by done.
    destruct (Forall2_lookup_l _ _ _ _ _ Hkids Hc) as (hc & Hhc & _). rewrite Hhc.
    exists g. eexists. split; [ reflexivity | ]. split; [ | done ].
    split; cbn.
    + intros y [e' Hy]. apply Hmap. destruct (decide (xp = y)) as [<- | Hne].
      * by eexists.
      * rewrite lookup_insert_ne in Hy by done. by eexists.
    + intros y e' Hy. destruct (decide (xp = y)) as [<- | Hne].
      * rewrite lookup_insert_eq in Hy. injection Hy as <-.
        exists hp. eexists. rewrite lookup_insert_eq. split_and!; [ done | done | ].
        cbn. by apply Forall2_delete.
      * rewrite lookup_insert_ne in Hy by done.
        destruct (Hview y e' Hy) as (hy & hs' & Hgy & Hv' & Hkids').
        exists hy, hs'. split_and!; [ done | | done ].
        rewrite lookup_insert_ne; [ done | ]. intros Heq. apply Hne. subst. eapply Hinj; eauto.
    + done.
    + done.
    + done.
  - (* Update *)
    set (x := identity (oldChildShadowView m)) in *.
    destruct (live s !! x) as [e |] eqn:Hx; [ | done ]. injection Hstep as <-.
    destruct (Hview x e Hx) as (h & hs & Hgx & Hv & Hkids).
    rewrite (Hmap x), Hgx by (by eexists).
    exists g. eexists. split; [ reflexivity | ]. split; [ | done ].
    split; cbn.
    + intros y [e' Hy]. apply Hmap. destruct (decide (x = y)) as [<- | Hne].
      * by eexists.
      * rewrite lookup_insert_ne in Hy by done. by eexists.
    + intros y e' Hy. destruct (decide (x = y)) as [<- | Hne].
      * rewrite lookup_insert_eq in Hy. injection Hy as <-.
        exists h, hs. split_and!; [ done | | done ].
        rewrite lookup_alter_eq, Hv. done.
      * rewrite lookup_insert_ne in Hy by done.
        destruct (Hview y e' Hy) as (hy & hs' & Hgy & Hv' & Hkids').
        exists hy, hs'. split_and!; [ done | | done ].
        rewrite lookup_alter_ne; [ done | ]. intros Heq. apply Hne. subst. eapply Hinj; eauto.
    + done.
    + done.
    + done.
Qed.

(** A run of the store is a run of the in-memory host that completes. *)
Lemma follows_run g st s (l : list (Instruction Props)) s' :
  Follows g st s -> storeRun l s = Some s' ->
  exists g' st', apply l st = Applied st' /\ Follows g' st' s' /\ g ⊆ g'.
Proof.
  revert g st s. induction l as [| m l IH]; intros g st s Hf Hrun; cbn in Hrun.
  - injection Hrun as <-. by exists g, st.
  - destruct (storeStep m s) as [s1 |] eqn:Hstep; [ | done ].
    destruct (follows_step _ _ _ _ _ Hf Hstep) as (g1 & st1 & Hst & Hf1 & Hsub1).
    destruct (IH _ _ _ Hf1 Hrun) as (g' & st' & Happ & Hf' & Hsub').
    exists g', st'. split_and!; [ | done | by etrans ].
    apply apply_applied_cons. by exists st1.
Qed.

Lemma storeRun_app (l1 l2 : list (Instruction Props)) s :
  storeRun (l1 ++ l2) s = storeRun l1 s ≫= storeRun l2.
Proof.
  revert s. induction l1 as [| m l1 IH]; intros s; cbn; [ done | ].
  destruct (storeStep m s); [ apply IH | done ].
Qed.

Lemma storeRun_app_Some (l1 l2 : list (Instruction Props)) s s1 s2 :
  storeRun l1 s = Some s1 -> storeRun l2 s1 = Some s2 ->
  storeRun (l1 ++ l2) s = Some s2.
Proof. intros H1 H2. by rewrite storeRun_app, H1. Qed.

(** *** What the store shows *)

Lemma Shows_inv R (m : gmap Tag (Entry Props)) (t : Tree Props) :
  Shows R m t ->
  exists e, m !! rootId t = Some e /\ entryType e = rootType t /\
            R (entryProps e) (rootProps t) /\
            entryKids e = rootId <$> subtrees t /\
            Forall (Shows R m) (subtrees t).
Proof. intros Hs. inversion Hs; subst. eauto 10. Qed.

Lemma Shows_agree R (m m' : gmap Tag (Entry Props)) (t : Tree Props) :
  Shows R m t -> (forall x, x ∈ ids t -> m' !! x = m !! x) -> Shows R m' t.
Proof.
  induction t as [id ty p kids IH] using Tree_forall_ind.
  intros (e & He & Hty & Hp & Hk & Hkids)%Shows_inv Hagree.
  apply (Shows_node R m' _ e); try done.
  - rewrite Hagree; [ done | apply rootId_in_ids ].
  - cbn [subtrees] in *. rewrite Forall_forall in IH, Hkids.
    apply Forall_forall. intros k Hin. apply IH; [ done | by apply Hkids | ].
    intros x Hx. apply Hagree. by apply (ids_of_child (Node id ty p kids) k).
Qed.

Section HostShows.
Variable contentEquals : Props -> Props -> bool.

Lemma shows_unfold st h (t : Tree Props) :
  shows contentEquals st h t =
  match identityMap st !! rootId t, views (hostTree st) !! h with
  | Some h', Some v =>
      bool_decide (h' = h)
      && bool_decide (viewType v = rootType t)
      && contentEquals (viewProps v) (rootProps t)
      && showAll (shows contentEquals st) (viewChildren v) (subtrees t)
  | _, _ => false
  end.
Proof. by destruct t. Qed.

(** A host that follows a store showing [t] shows [t] at the view of its
    root. *)
Lemma shows_from_store g st s (t : Tree Props) :
  Follows g st s ->
  Shows (fun p q => contentEquals p q = true) (live s) t ->
  forall h, g !! rootId t = Some h -> shows contentEquals st h t = true.
Proof.
  intros Hf. induction t as [id ty p kids IH] using Tree_forall_ind.
  intros (e & He & Hty & Hp & Hk & Hkids)%Shows_inv h Hg.
  rewrite shows_unfold.
  rewrite (follows_map _ _ _ Hf) by (by exists e). rewrite Hg.
  destruct (follows_view _ _ _ Hf _ _ He) as (h' & hs & Hg' & Hv & Hhs).
  assert (h' = h) as -> by congruence. rewrite Hv. cbn in Hty, Hp |- *.
  rewrite !bool_decide_eq_true_2 by done. rewrite Hp. cbn.
  cbn [subtrees] in *. rewrite Hk in Hhs. clear Hv Hk He.
  revert hs Hhs. induction kids as [| k kids IHkids]; intros hs Hhs.
  - by inversion Hhs.
  - inversion Hhs as [| ? hc ? hs' Hc Hrest]; subst. cbn.
    apply Forall_cons in IH as [IHk IH]. apply Forall_cons in Hkids as [Hsk Hkids].
    rewrite IHk by done. cbn. by apply IHkids.
Qed.

End HostShows.

(** *** Mounting a tree *)

Lemma mount_unfold (t : Tree Props) st :
  mount t st =
  let '(hs, st1) := mountAll mount (subtrees t) st in
  let h := nextHandle (hostTree st1) in
  (h, mkApplier
        (mkHost (<[h := mkView (rootType t) (rootProps t) hs]> (views (hostTree st1)))
                (S h))
        (<[rootId t := h]> (identityMap st1))).
Proof. by destruct t. Qed.

Lemma mount_follows (t : Tree Props) :
  forall g st s,
    Follows g st s -> NoDup (ids t) -> (forall x, x ∈ ids t -> x ∉ used s) ->
    exists g' s', Mounted [t] g st s g' (mount t st).2 s' /\
                  g' !! rootId t = Some (mount t st).1.
Proof.
  induction t as [id ty p kids IH] using Tree_forall_ind.
  intros g st s Hf Hnd Hfresh. rewrite mount_unfold. cbn [subtrees rootType rootProps rootId].
  assert (Hall : exists g1 s1,
            Mounted kids g st s g1 (mountAll mount kids st).2 s1 /\
            Forall2 (fun c hc => g1 !! c = Some hc) (rootId <$> kids)
                    (mountAll mount kids st).1).
  { apply NoDup_ids_subtrees in Hnd. cbn [subtrees] in Hnd.
    assert (Hfr : forall x, x ∈ kids ≫= ids -> x ∉ used s).
    { intros x Hx. apply Hfresh. rewrite ids_unfold. by right. }
    clear Hfresh. revert g st s Hf Hfr.
    induction kids as [| k kids IHkids]; intros g st s Hf Hfr.
    - exists g, s. split; [ | constructor ]. split_and!; try done.
      intros x. cbn. rewrite elem_of_nil. tauto.
    - apply Forall_cons in IH as [IHk IH].
      apply NoDup_bind_cons in Hnd as (Hk & Hdisj & Hrest).
      destruct (IHk g st s Hf Hk) as (g1 & s1 & (Hf1 & Hsub1 & Hu1 & Hl1 & Hs1) & Hg1).
      { intros x Hx. apply Hfr. rewrite bind_cons, elem_of_app. by left. }
      cbn [mountAll]. destruct (mount k st) as [hk st1] eqn:Hmk. cbn [fst snd] in *.
      destruct (IHkids IH Hrest g1 st1 s1 Hf1) as (g2 & s2 & (Hf2 & Hsub2 & Hu2 & Hl2 & Hs2) & Hg2).
      { intros x Hx. rewrite Hu1. intros [Hin | Hin].
        - revert Hin. apply Hfr. rewrite bind_cons, elem_of_app. by right.
        - rewrite bind_cons, app_nil_r in Hin. by apply (Hdisj x). }
      destruct (mountAll mount kids st1) as [hs st2] eqn:Hmr. cbn [fst snd] in *.
      exists g2, s2. split.
      + split_and!; [ done | by etrans | | | ].
        * intros x. rewrite Hu2, Hu1, !bind_cons, app_nil_r, elem_of_app. tauto.
        * intros x Hx. rewrite bind_cons, elem_of_app in Hx.
          rewrite Hl2, Hl1; [ done | | ]; [ rewrite bind_cons, app_nil_r | ]; tauto.
        * constructor; [ | done ].
          apply Forall_cons in Hs1 as [Hs1 _].
          apply (Shows_agree _ _ _ _ Hs1). intros x Hx. apply Hl2.
          by apply Hdisj.
      + cbn. constructor; [ | done ]. exact (lookup_weaken g1 g2 _ _ Hg1 Hsub2). }
  destruct Hall as (g1 & s1 & (Hf1 & Hsub1 & Hu1 & Hl1 & Hs1) & Hhs).
  destruct (mountAll mount kids st) as [hs st1]. cbn [fst snd] in *.
  set (h := nextHandle (hostTree st1)).
  set (t := Node id ty p kids) in *.
  set (rid := Z.pos id) in *.
  assert (Hidfresh : rid ∉ used s1).
  { rewrite Hu1. intros [Hin | Hin].
    - revert Hin. apply Hfresh, (rootId_in_ids t).
    - by apply (NoDup_ids_root t Hnd). }
  assert (Hgid : g1 !! rid = None).
  { destruct (g1 !! rid) eqn:E; [ | done ]. destruct Hidfresh.
    apply (follows_used _ _ _ Hf1). by eexists. }
  destruct Hf1 as [Hmap Hview Hinj Hbound Hused].
  exists (<[rid := h]> g1), (mkStore (<[rid := entryOf t]> (live s1)) ({[rid]} ∪ used s1)).
  split; [ | by rewrite lookup_insert_eq ].
  split_and!.
  - split; cbn.
    + intros y [e Hy]. destruct (decide (rid = y)) as [<- | Hne].
      * by rewrite !lookup_insert_eq.
      * rewrite lookup_insert_ne in Hy by done. rewrite !lookup_insert_ne by done.
        apply Hmap. by exists e.
    + intros y e Hy. destruct (decide (rid = y)) as [<- | Hne].
      * rewrite lookup_insert_eq in Hy. injection Hy as <-.
        exists h, hs. rewrite !lookup_insert_eq. split_and!; [ done | done | ].
        cbn. eapply kids_handles_mono; [ | done ]. by apply insert_subseteq.
      * rewrite lookup_insert_ne in Hy by done.
        destruct (Hview y e Hy) as (hy & hs' & Hgy & Hv & Hkids).
        exists hy, hs'. rewrite lookup_insert_ne by done. split_and!; [ done | | ].
        -- rewrite lookup_insert_ne; [ done | ]. apply Hbound in Hgy. unfold h. lia.
        -- eapply kids_handles_mono; [ | done ]. by apply insert_subseteq.
    + intros y z hy Hy Hz.
      destruct (decide (rid = y)) as [<- | Hy']; destruct (decide (rid = z)) as [<- | Hz'];
        rewrite ?lookup_insert_eq, ?lookup_insert_ne in * by done; simplify_eq.
      * done.
      * apply Hbound in Hz. lia.
      * apply Hbound in Hy. lia.
      * by eapply Hinj.
    + intros y hy Hy. destruct (decide (rid = y)) as [<- | Hne].
      * rewrite lookup_insert_eq in Hy. injection Hy as <-. unfold h. lia.
      * rewrite lookup_insert_ne in Hy by done. apply Hbound in Hy. lia.
    + intros y. rewrite elem_of_union, elem_of_singleton, Hused.
      destruct (decide (rid = y)) as [<- | Hne].
      * rewrite lookup_insert_eq. split; [ by eexists | by left ].
      * rewrite lookup_insert_ne by done.
        split; [ intros [? | ?]; [ congruence | done ] | by right ].
  - etrans; [ exact Hsub1 | by apply insert_subseteq ].
  - intros x. cbn [used]. rewrite elem_of_union, elem_of_singleton, Hu1.
    rewrite bind_single, ids_unfold, elem_of_cons.
    cbn [rootId subtrees t]. tauto.
  - intros x Hx. cbn [live].
    rewrite bind_single, ids_unfold, not_elem_of_cons in Hx.
    destruct Hx as [Hne Hx]. cbn [rootId subtrees t] in *.
    rewrite lookup_insert_ne by done. by apply Hl1.
  - constructor; [ | done ].
    apply (Shows_node eq _ t (entryOf t)); cbn; try done.
    + by rewrite lookup_insert_eq.
    + apply Forall_forall. intros k Hk. rewrite Forall_forall in Hs1.
      apply (Shows_agree _ _ _ _ (Hs1 k Hk)). intros x Hx.
      apply lookup_insert_ne. intros <-.
      apply (NoDup_ids_root t Hnd). apply list_elem_of_bind. eauto.
Qed.

End Simulation.
End IdentityStoreFacts.

(* ===================================================================== *)
(** * Round trip: applying [diff] to the old tree yields the new one *)
(* ===================================================================== *)

(** The emitted list is run on the identity-keyed store first, part by
    part: the Removes and Deletes leave every old node that is also new
    with the children that stay under it, the Updates replace the content
    that differs, the Creates and Inserts complete every new node.  The
    in-memory host follows the store step by step, which carries the
    result over to [apply]. *)
Module RoundTrip.
Import ShadowViewMutation Reconciler IdentityStore Properties TreeFacts ApplierFacts.
Import DifferFacts IdentityStoreFacts.


Section Runs.
Context {Props : Type}.
Variable contentEquals : Props -> Props -> bool.
Variable emptyProps : Props.
Hypothesis contentEquals_refl : forall p, contentEquals p p = true.
Implicit Types (t o n k d : Tree Props) (ts olds news : list (Tree Props)).
Implicit Types (x y r : Tag) (s : Store Props) (e : Entry Props).
Implicit Types (parent : ViewSnapshot Props).

(** *** Single instructions on the store *)

Lemma step_Remove s parent (c : ViewSnapshot Props) (i : nat) e y :
  live s !! identity parent = Some e -> entryKids e !! i = Some y ->
  storeStep (Remove_ emptyProps parent c (Z.of_nat i)) s =
  Some (mkStore (<[identity parent := withKids e (delete i (entryKids e))]> (live s))
                (used s)).
Proof.
  intros He Hy. unfold storeStep. cbn. rewrite He.
  rewrite bool_decide_eq_true_2 by lia. by rewrite Nat2Z.id, Hy.
Qed.

Lemma step_Delete s (c : ViewSnapshot Props) :
  is_Some (live s !! identity c) ->
  storeStep (Delete_ emptyProps c) s =
  Some (mkStore (delete (identity c) (live s)) (used s)).
Proof. intros [e He]. unfold storeStep. cbn. by rewrite He. Qed.

Lemma step_Create s (c : ViewSnapshot Props) :
  identity c ∉ used s ->
  storeStep (Create_ emptyProps c) s =
  Some (mkStore (<[identity c := mkEntry (component c) (props c) []]> (live s))
                ({[identity c]} ∪ used s)).
Proof. intros Hc. unfold storeStep. cbn. by rewrite bool_decide_eq_false_2. Qed.

Lemma step_Insert s parent (c : ViewSnapshot Props) (i : nat) e :
  live s !! identity parent = Some e -> is_Some (live s !! identity c) ->
  (i <= length (entryKids e))%nat ->
  storeStep (Insert_ emptyProps parent c (Z.of_nat i)) s =
  Some (mkStore (<[identity parent :=
                     withKids e (insertAt i (identity c) (entryKids e))]> (live s))
                (used s)).
Proof.
  intros He [ec Hc] Hi. unfold storeStep. cbn. rewrite He, Hc.
  rewrite bool_decide_eq_true_2 by lia. by rewrite Nat2Z.id.
Qed.

Lemma step_Update s parent (o n : ViewSnapshot Props) (index : Z) e :
  live s !! identity o = Some e ->
  storeStep (Update_ parent o n index) s =
  Some (mkStore (<[identity o := withProps e (props n)]> (live s)) (used s)).
Proof. intros He. unfold storeStep. cbn. by rewrite He. Qed.

Lemma insertAt_middle {A} (l1 l2 : list A) (a : A) :
  insertAt (length l1) a (l1 ++ l2) = l1 ++ a :: l2.
Proof. unfold insertAt. by rewrite take_app_length, drop_app_length. Qed.

Lemma nodes_ids t d : d ∈ nodes t -> rootId d ∈ ids t.
Proof. intros Hd. apply list_elem_of_fmap. eauto. Qed.

Lemma forest_nodes_ids ts d : d ∈ ts ≫= nodes -> rootId d ∈ ts ≫= ids.
Proof.
  intros (k & Hd & Hk)%list_elem_of_bind. apply list_elem_of_bind.
  exists k. split; [ by apply nodes_ids | done ].
Qed.

Lemma bind_nodes_cons k ts :
  (k :: ts) ≫= nodes = k :: (subtrees k ≫= nodes) ++ (ts ≫= nodes).
Proof. by rewrite bind_cons, nodes_unfold. Qed.

(** *** The Removes and Deletes *)

Lemma detachAll_run (B : Tree Props) parent keep olds :
  Forall (DetachRuns emptyProps B) olds ->
  NoDup (olds ≫= ids) -> identity parent ∉ olds ≫= ids ->
  (forall x, x ∈ keep -> x ∈ ids B) ->
  forall (pre : list Tag) s e,
    live s !! identity parent = Some e ->
    entryKids e = pre ++ (rootId <$> olds) ->
    Forall (Shows eq (live s)) olds ->
    exists s',
      storeRun (detachAll emptyProps (detach emptyProps B) parent keep (ids B) olds
                  (length pre)) s = Some s' /\
      used s' = used s /\
      (forall x, x ∉ olds ≫= ids -> x <> identity parent -> live s' !! x = live s !! x) /\
      live s' !! identity parent =
        Some (withKids e (pre ++ filter (.∈ keep) (rootId <$> olds))) /\
      Forall (Detached B (live s')) (olds ≫= nodes).
Proof.
  intros Hruns Hnd Hpar Hkeep.
  induction olds as [| o olds IH]; intros pre s e He Hkids Hshow.
  { exists s. cbn. split_and!; try done.
    rewrite He. destruct e. cbn in *. by subst. }
  set (r := identity parent) in *.
  apply Forall_cons in Hruns as [Hrun_o Hruns].
  apply Forall_cons in Hshow as [Hso Hshow].
  apply NoDup_bind_cons in Hnd as (Hndo & Hdisj & Hrest).
  rewrite bind_cons, not_elem_of_app in Hpar. destruct Hpar as [Hro Hrrest].
  destruct (IH Hruns Hrest Hrrest (pre ++ [rootId o]) s e He)
    as (s1 & Hrun1 & Hu1 & Hf1 & Hp1 & Hd1); [ by rewrite <- app_assoc | done | ].
  rewrite length_app, Nat.add_1_r in Hrun1. rewrite <- app_assoc in Hp1. cbn in Hp1.
  assert (Hro' : rootId o <> r).
  { intros Heq. apply Hro. rewrite <- Heq. apply rootId_in_ids. }
  assert (Hso1 : Shows eq (live s1) o).
  { apply (Shows_agree _ _ _ _ Hso). intros x Hx. apply Hf1.
    - by apply Hdisj.
    - intros ->. done. }
  destruct (Hrun_o Hndo s1 Hso1) as (s2 & Hrun2 & Hu2 & Hf2 & Ho2 & Hd2).
  assert (Hp2 : live s2 !! r =
                Some (withKids e (pre ++ rootId o :: filter (.∈ keep) (rootId <$> olds)))).
  { by rewrite Hf2. }
  assert (Hkid : entryKids (withKids e (pre ++ rootId o :: filter (.∈ keep) (rootId <$> olds)))
                   !! length pre = Some (rootId o)).
  { cbn. by rewrite lookup_app_r, Nat.sub_diag. }
  assert (Hothers : forall m3 : gmap Tag (Entry Props),
            (forall x, x <> r -> x <> rootId o -> m3 !! x = live s2 !! x) ->
            Forall (Detached B m3) ((subtrees o ≫= nodes) ++ (olds ≫= nodes))).
  { intros m3 Hm3. apply Forall_app. split; apply Forall_forall; intros d Hd; unfold Detached.
    - rewrite Forall_forall in Hd2. specialize (Hd2 d Hd). unfold Detached in Hd2.
      apply forest_nodes_ids in Hd. rewrite Hm3; [ done | | ].
      + intros Heq. apply Hro. rewrite <- Heq. by apply bind_ids_in_ids.
      + intros Heq. rewrite Heq in Hd. by apply (NoDup_ids_root o).
    - rewrite Forall_forall in Hd1. specialize (Hd1 d Hd). unfold Detached in Hd1.
      apply forest_nodes_ids in Hd. rewrite Hm3.
      + rewrite Hf2; [ done | ]. intros Hin. by apply (Hdisj (rootId d)).
      + intros Heq. apply Hrrest. by rewrite <- Heq.
      + intros Heq. apply (Hdisj (rootId o)); [ apply rootId_in_ids | by rewrite <- Heq ]. }
  assert (Hframe : forall m3 : gmap Tag (Entry Props),
            (forall x, x <> r -> x <> rootId o -> m3 !! x = live s2 !! x) ->
            forall x, x ∉ (o :: olds) ≫= ids -> x <> r -> m3 !! x = live s !! x).
  { intros m3 Hm3 x Hx Hxr. rewrite bind_cons, not_elem_of_app in Hx. destruct Hx as [Hxo Hxr'].
    rewrite Hm3; [ | done | intros ->; apply Hxo, rootId_in_ids ].
    rewrite Hf2 by done. by apply Hf1. }
  cbn [detachAll fmap list_fmap]. fold (fmap (M:=list) (@rootId Props)).
  rewrite bind_nodes_cons.
  case_bool_decide as Hk; [ | case_bool_decide as Hnew ].
  - (* the child stays *)
    exists s2. rewrite filter_cons_True by done. split_and!.
    + eapply storeRun_app_Some; [ exact Hrun1 | ]. by rewrite app_nil_r.
    + congruence.
    + by apply Hframe.
    + done.
    + constructor; [ | by apply Hothers ].
      unfold Detached. by rewrite bool_decide_eq_true_2 by auto.
  - (* the child moves: Remove only *)
    rewrite filter_cons_False by done.
    eexists. split.
    { eapply storeRun_app_Some; [ exact Hrun1 | ].
      eapply storeRun_app_Some; [ exact Hrun2 | ]. cbn [storeRun].
      erewrite step_Remove; [ reflexivity | exact Hp2 | exact Hkid ]. }
    cbn [live used].
    assert (Hm3 : forall x, x <> r -> x <> rootId o ->
              <[r := withKids (withKids e (pre ++ rootId o :: filter (.∈ keep) (rootId <$> olds)))
                       (delete (length pre)
                          (entryKids (withKids e (pre ++ rootId o :: filter (.∈ keep) (rootId <$> olds)))))]>
                (live s2) !! x = live s2 !! x).
    { intros x Hxr _. by rewrite lookup_insert_ne. }
    split_and!.
    + congruence.
    + by apply Hframe.
    + rewrite lookup_insert_eq. unfold withKids. cbn. by rewrite delete_middle.
    + constructor; [ | by apply Hothers ].
      unfold Detached. rewrite bool_decide_eq_true_2 by done.
      by rewrite lookup_insert_ne.
  - (* the child goes away *)
    rewrite filter_cons_False by done.
    eexists. split.
    { eapply storeRun_app_Some; [ exact Hrun1 | ].
      eapply storeRun_app_Some; [ exact Hrun2 | ]. cbn [storeRun].
      erewrite step_Remove; [ | exact Hp2 | exact Hkid ].
      erewrite step_Delete; [ reflexivity | ].
      cbn. rewrite lookup_insert_ne by done. by eexists. }
    cbn [live used identity snapshot].
    assert (Hm3 : forall x, x <> r -> x <> rootId o ->
              delete (rootId o)
                (<[r := withKids (withKids e (pre ++ rootId o :: filter (.∈ keep) (rootId <$> olds)))
                       (delete (length pre)
                          (entryKids (withKids e (pre ++ rootId o :: filter (.∈ keep) (rootId <$> olds)))))]>
                   (live s2)) !! x = live s2 !! x).
    { intros x Hxr Hxo. by rewrite lookup_delete_ne, lookup_insert_ne. }
    split_and!.
    + congruence.
    + by apply Hframe.
    + rewrite lookup_delete_ne, lookup_insert_eq by done.
      unfold withKids. cbn. by rewrite delete_middle.
    + constructor; [ | by apply Hothers ].
      unfold Detached. rewrite bool_decide_eq_false_2 by done.
      by rewrite lookup_delete_eq.
Qed.

Lemma NoDup_child_roots (T : Tree Props) n :
  NoDup (ids T) -> n ∈ nodes T -> NoDup (rootId <$> subtrees n).
Proof.
  intros HT Hn. apply NoDup_forest_roots, NoDup_ids_subtrees. by apply (NoDup_ids_node T).
Qed.

Lemma child_id_in_ids (T : Tree Props) n x :
  n ∈ nodes T -> x ∈ rootId <$> subtrees n -> x ∈ ids T.
Proof.
  intros Hn (c & -> & Hc)%list_elem_of_fmap.
  apply bind_ids_in_ids. by apply (child_of_node_below T n c).
Qed.

Lemma kept_old_in_new (B : Tree Props) o x :
  x ∈ kept (Some o) (lookup B (rootId o)) -> x ∈ ids B.
Proof.
  destruct (lookup B (rootId o)) as [n |] eqn:E; [ | by intros ?%elem_of_nil ].
  cbn [kept]. intros Hx%stayed_in_news. apply lookup_Some in E as [Hn _].
  by apply (child_id_in_ids B n).
Qed.

Lemma kept_old_sublist (B : Tree Props) o :
  NoDup (ids B) ->
  kept (Some o) (lookup B (rootId o)) `sublist_of` (rootId <$> subtrees o).
Proof.
  intros HB. destruct (lookup B (rootId o)) as [n |] eqn:E; [ | apply sublist_nil_l ].
  cbn [kept]. apply stayed_sublist_olds. apply lookup_Some in E as [Hn _].
  by apply (NoDup_child_roots B).
Qed.

Lemma kept_new_in_old (A : Tree Props) n x :
  NoDup (ids n) -> x ∈ kept (lookup A (rootId n)) (Some n) -> x ∈ ids A.
Proof.
  intros Hnd. destruct (lookup A (rootId n)) as [o |] eqn:E; [ | by intros ?%elem_of_nil ].
  cbn [kept]. intros Hx%stayed_in_olds.
  - apply lookup_Some in E as [Ho _]. by apply (child_id_in_ids A o).
  - by apply NoDup_forest_roots, NoDup_ids_subtrees.
Qed.

Lemma kept_new_sublist (A : Tree Props) n :
  kept (lookup A (rootId n)) (Some n) `sublist_of` (rootId <$> subtrees n).
Proof.
  destruct (lookup A (rootId n)) as [o |]; [ | apply sublist_nil_l ].
  apply stayed_sublist_news.
Qed.

Lemma detach_run (B : Tree Props) o : NoDup (ids B) -> DetachRuns emptyProps B o.
Proof.
  intros HB. induction o as [id ty p kids IH] using Tree_forall_ind.
  set (t := Node id ty p kids) in *.
  intros Hnd s (e & He & Hty & Hprops & Hk & Hkids)%Shows_inv. cbn [subtrees] in *.
  destruct (detachAll_run B (snapshot t) (kept (Some t) (lookup B (rootId t))) kids IH)
    with (pre := @nil Tag) (s := s) (e := e) as (s' & Hrun & Hu & Hf & Hp & Hd).
  - by apply (NoDup_ids_subtrees t).
  - by apply (NoDup_ids_root t).
  - apply kept_old_in_new.
  - done.
  - done.
  - done.
  - exists s'. rewrite detach_unfold. split_and!; try done.
    + intros x Hx. rewrite ids_unfold, not_elem_of_cons in Hx. destruct Hx. by apply Hf.
    + cbn [identity snapshot] in Hp. rewrite Hp. f_equal. unfold withKids, detachedEntry.
      rewrite Hty, Hprops. cbn [app]. f_equal.
      apply filter_sublist_id; [ by apply (kept_old_sublist B t) | ].
      by apply NoDup_forest_roots, (NoDup_ids_subtrees t).
Qed.

(** *** The Updates *)

Lemma withProps_same e : withProps e (entryProps e) = e.
Proof. by destruct e. Qed.

Lemma updatesAll_run (A : Tree Props) news :
  Forall (UpdateRuns contentEquals A) news ->
  NoDup (news ≫= ids) ->
  forall parent (j : nat) s,
    (forall d, d ∈ news ≫= nodes -> rootId d ∈ ids A -> is_Some (live s !! rootId d)) ->
    exists s',
      storeRun (updatesAll (updates contentEquals A parent) news j) s = Some s' /\
      used s' = used s /\
      (forall x, x ∉ news ≫= ids -> live s' !! x = live s !! x) /\
      (forall d, d ∈ news ≫= nodes ->
         live s' !! rootId d =
         (fun e => withProps e (updatedProps contentEquals A d (entryProps e)))
           <$> live s !! rootId d).
Proof.
  intros Hruns Hnd parent.
  induction news as [| k rest IH]; intros j s Hlive.
  { exists s. cbn. split_and!; try done. intros d Hd. by apply elem_of_nil in Hd. }
  apply Forall_cons in Hruns as [Hrun_k Hruns].
  apply NoDup_bind_cons in Hnd as (Hndk & Hdisj & Hrest).
  destruct (Hrun_k Hndk parent (Z.of_nat j) s) as (s1 & Hrun1 & Hu1 & Hf1 & Hp1).
  { intros d Hd. apply Hlive. rewrite bind_cons, elem_of_app. by left. }
  destruct (IH Hruns Hrest (S j) s1) as (s2 & Hrun2 & Hu2 & Hf2 & Hp2).
  { intros d Hd Hin. rewrite Hf1.
    - apply Hlive; [ | done ]. rewrite bind_cons, elem_of_app. by right.
    - intros Hk. apply (Hdisj _ Hk). by apply forest_nodes_ids. }
  exists s2. cbn [updatesAll]. split_and!.
  - by eapply storeRun_app_Some.
  - congruence.
  - intros x Hx. rewrite bind_cons, not_elem_of_app in Hx. destruct Hx.
    rewrite Hf2 by done. by apply Hf1.
  - intros d Hd. rewrite bind_cons, elem_of_app in Hd. destruct Hd as [Hd | Hd].
    + rewrite Hf2; [ by apply Hp1 | ]. apply Hdisj. by apply nodes_ids.
    + rewrite Hp2 by done. rewrite Hf1; [ done | ].
      intros Hk. apply (Hdisj _ Hk). by apply forest_nodes_ids.
Qed.

Lemma updates_run (A : Tree Props) n : UpdateRuns contentEquals A n.
Proof.
  induction n as [id ty p kids IH] using Tree_forall_ind.
  set (t := Node id ty p kids) in *.
  intros Hnd parent index s Hlive.
  destruct (updatesAll_run A kids IH (NoDup_ids_subtrees t Hnd) (snapshot t) 0 s)
    as (s1 & Hrun1 & Hu1 & Hf1 & Hp1).
  { intros d Hd. apply Hlive. rewrite nodes_unfold. by right. }
  assert (Hroot1 : live s1 !! rootId t = live s !! rootId t).
  { apply Hf1. by apply (NoDup_ids_root t). }
  assert (Hbelow : forall d, d ∈ kids ≫= nodes -> rootId d <> rootId t).
  { intros d Hd Heq. apply forest_nodes_ids in Hd. rewrite Heq in Hd.
    by apply (NoDup_ids_root t Hnd). }
  rewrite updates_unfold. cbn [subtrees]. fold t.
  assert (Hsame : exists s',
            storeRun (updatesAll (updates contentEquals A (snapshot t)) kids 0 ++ []) s = Some s' /\
            used s' = used s /\
            (forall x, x ∉ ids t -> live s' !! x = live s !! x) /\
            (forall d, d ∈ kids ≫= nodes ->
               live s' !! rootId d =
               (fun e => withProps e (updatedProps contentEquals A d (entryProps e)))
                 <$> live s !! rootId d) /\
            live s' !! rootId t = live s !! rootId t).
  { exists s1. rewrite app_nil_r. split_and!; try done.
    intros x Hx. rewrite ids_unfold, not_elem_of_cons in Hx. destruct Hx. by apply Hf1. }
  assert (Hnodes : forall (m : gmap Tag (Entry Props)),
            (forall d, d ∈ kids ≫= nodes -> m !! rootId d =
               (fun e => withProps e (updatedProps contentEquals A d (entryProps e)))
                 <$> live s !! rootId d) ->
            m !! rootId t =
              (fun e => withProps e (updatedProps contentEquals A t (entryProps e)))
                <$> live s !! rootId t ->
            forall d, d ∈ nodes t -> m !! rootId d =
               (fun e => withProps e (updatedProps contentEquals A d (entryProps e)))
                 <$> live s !! rootId d).
  { intros m Hk Hr d Hd. rewrite nodes_unfold in Hd.
    apply elem_of_cons in Hd as [-> | Hd]; [ done | by apply Hk ]. }
  destruct (lookup A (rootId t)) as [o |] eqn:Eo.
  - destruct (contentEquals (rootProps o) (rootProps t)) eqn:Ec.
    + destruct Hsame as (s' & Hrun & Hu & Hf & Hp & Hr). exists s'.
      split_and!; try done. apply (Hnodes (live s')); [ done | ].
      rewrite Hr. unfold updatedProps. rewrite Eo, Ec.
      destruct (live s !! rootId t) as [e |]; [ | done ]. cbn. by rewrite withProps_same.
    + apply lookup_Some in Eo as Ho. destruct Ho as [Ho Hid].
      destruct (Hlive t (root_in_nodes t)) as [e He].
      { rewrite <- Hid. by apply nodes_ids. }
      eexists. split.
      { eapply storeRun_app_Some; [ exact Hrun1 | ]. cbn [storeRun].
        erewrite step_Update; [ reflexivity | ].
        cbn [identity snapshot]. rewrite Hid, Hroot1. exact He. }
      cbn [live used identity snapshot props]. rewrite Hid. split_and!.
      * done.
      * intros x Hx. rewrite ids_unfold, not_elem_of_cons in Hx. destruct Hx.
        rewrite lookup_insert_ne by done. by apply Hf1.
      * apply (Hnodes (<[rootId t:=withProps e (rootProps t)]> (live s1))).
        -- intros d Hd. rewrite lookup_insert_ne by (by apply not_eq_sym, Hbelow).
           by apply Hp1.
        -- rewrite lookup_insert_eq, He. cbn. unfold updatedProps. by rewrite Eo, Ec.
  - destruct Hsame as (s' & Hrun & Hu & Hf & Hp & Hr). exists s'.
    split_and!; try done. apply (Hnodes (live s')); [ done | ].
    rewrite Hr. unfold updatedProps. rewrite Eo.
    destruct (live s !! rootId t) as [e |]; [ | done ]. cbn. by rewrite withProps_same.
Qed.

(** *** The Creates and Inserts *)

Lemma withKids_withKids e (l1 l2 : list Tag) : withKids (withKids e l1) l2 = withKids e l2.
Proof. by destruct e. Qed.

Lemma withKids_same e : withKids e (entryKids e) = e.
Proof. by destruct e. Qed.

Lemma readyEntry_content n o :
  contentEqual contentEquals (entryProps (readyEntry contentEquals n o)) (rootProps n).
Proof.
  unfold contentEqual, readyEntry. cbn.
  destruct (contentEquals (rootProps o) (rootProps n)) eqn:E; [ done | apply contentEquals_refl ].
Qed.

(** The own Create and Insert of one child [k] of [parent]: afterwards the
    child is live, with the children that stay under it, and is placed
    after the children [pre] already in place. *)
Lemma attach_own_run (A : Tree Props) parent (keep : list Tag) k rest :
  rootId k <> identity parent ->
  (forall o, lookup A (rootId k) = Some o -> rootType o = rootType k) ->
  (forall x, x ∈ keep -> x ∈ ids A) ->
  forall (pre : list Tag) s e,
    live s !! identity parent = Some e ->
    entryKids e = pre ++ filter (.∈ keep) (rootId <$> k :: rest) ->
    Ready contentEquals A s k ->
    exists s1 ek,
      storeRun (if bool_decide (rootId k ∈ keep) then []
                else if bool_decide (rootId k ∈ ids A)
                     then [Insert_ emptyProps parent (snapshot k) (Z.of_nat (length pre))]
                     else [Create_ emptyProps (snapshot k);
                           Insert_ emptyProps parent (snapshot k) (Z.of_nat (length pre))]) s
        = Some s1 /\
      live s1 !! identity parent =
        Some (withKids e (pre ++ rootId k :: filter (.∈ keep) (rootId <$> rest))) /\
      live s1 !! rootId k = Some ek /\
      entryType ek = rootType k /\
      contentEqual contentEquals (entryProps ek) (rootProps k) /\
      entryKids ek = kept (lookup A (rootId k)) (Some k) /\
      (forall x, x <> identity parent -> x <> rootId k -> live s1 !! x = live s !! x) /\
      (forall x, x ∈ used s1 -> x ∈ used s \/ x = rootId k).
Proof.
  intros Hkp Hty Hkeep pre s e He Hkids Hready.
  set (r := identity parent) in *. unfold Ready in Hready.
  cbn [fmap list_fmap] in Hkids. fold (fmap (M:=list) (@rootId Props)) in Hkids.
  assert (Hin : rootId k ∈ ids A -> exists o,
            lookup A (rootId k) = Some o /\
            live s !! rootId k = Some (readyEntry contentEquals k o)).
  { intros Hk. apply lookup_is_Some in Hk as [o Eo]. rewrite Eo in Hready. eauto. }
  case_bool_decide as Hk; [ | case_bool_decide as Hold ].
  - (* the child stays *)
    rewrite filter_cons_True in Hkids by done.
    destruct (Hin (Hkeep _ Hk)) as (o & Eo & Hlive).
    exists s, (readyEntry contentEquals k o). split_and!; try done.
    + rewrite He, <- Hkids. by rewrite withKids_same.
    + cbn. by apply Hty.
    + apply readyEntry_content.
    + by rewrite Eo.
    + by left.
  - (* the child moves here *)
    rewrite filter_cons_False in Hkids by done.
    destruct (Hin Hold) as (o & Eo & Hlive).
    eexists _, (readyEntry contentEquals k o). split.
    { cbn [storeRun]. erewrite step_Insert; [ reflexivity | exact He | | ].
      - cbn [identity snapshot]. by rewrite Hlive.
      - rewrite Hkids, length_app. lia. }
    cbn [live used identity snapshot]. split_and!; try done.
    + rewrite lookup_insert_eq. by rewrite Hkids, insertAt_middle.
    + by rewrite lookup_insert_ne by done.
    + cbn. by apply Hty.
    + apply readyEntry_content.
    + by rewrite Eo.
    + intros x Hx _. by rewrite lookup_insert_ne by done.
    + by left.
  - (* the child is new *)
    rewrite filter_cons_False in Hkids by done.
    assert (Enone : lookup A (rootId k) = None).
    { destruct (lookup A (rootId k)) as [o |] eqn:Eo; [ | done ].
      destruct Hold. apply lookup_Some in Eo as [Ho <-]. by apply nodes_ids. }
    rewrite Enone in Hready.
    eexists _, (mkEntry (rootType k) (rootProps k) []). split.
    { cbn [storeRun]. rewrite step_Create by done.
      erewrite step_Insert; [ reflexivity | | | ].
      - cbn [live identity snapshot]. rewrite lookup_insert_ne by done. exact He.
      - cbn [live identity snapshot]. by rewrite lookup_insert_eq.
      - rewrite Hkids, length_app. lia. }
    cbn [live used identity snapshot component props]. split_and!; try done.
    + rewrite lookup_insert_eq. by rewrite Hkids, insertAt_middle.
    + rewrite lookup_insert_ne by done. by rewrite lookup_insert_eq.
    + apply contentEquals_refl.
    + by rewrite Enone.
    + intros x Hx Hxk. by rewrite !lookup_insert_ne by done.
    + intros x [Hx%elem_of_singleton | Hx]%elem_of_union; [ by right | by left ].
Qed.

Lemma attachAll_run (A : Tree Props) parent keep news :
  Forall (AttachRuns contentEquals emptyProps A) news ->
  NoDup (news ≫= ids) -> identity parent ∉ news ≫= ids ->
  (forall d o, d ∈ news ≫= nodes -> lookup A (rootId d) = Some o -> rootType o = rootType d) ->
  (forall x, x ∈ keep -> x ∈ ids A) ->
  forall (pre : list Tag) s e,
    live s !! identity parent = Some e ->
    entryKids e = pre ++ filter (.∈ keep) (rootId <$> news) ->
    Forall (Ready contentEquals A s) (news ≫= nodes) ->
    exists s',
      storeRun (attachAll emptyProps (attach emptyProps A) parent keep (ids A) news
                  (length pre)) s = Some s' /\
      live s' !! identity parent = Some (withKids e (pre ++ (rootId <$> news))) /\
      Forall (Shows (contentEqual contentEquals) (live s')) news /\
      (forall x, x ∉ news ≫= ids -> x <> identity parent -> live s' !! x = live s !! x) /\
      (forall x, x ∈ used s' -> x ∈ used s \/ x ∈ news ≫= ids).
Proof.
  intros Hruns Hnd Hpar Hty Hkeep.
  induction news as [| k rest IH]; intros pre s e He Hkids Hready.
  { exists s. cbn. split_and!; try done; [ | by left ].
    rewrite He. cbn in Hkids. by rewrite <- Hkids, withKids_same. }
  set (r := identity parent) in *.
  apply Forall_cons in Hruns as [Hrun_k Hruns].
  apply NoDup_bind_cons in Hnd as (Hndk & Hdisj & Hrest).
  rewrite bind_cons, not_elem_of_app in Hpar. destruct Hpar as [Hrk Hrrest].
  rewrite bind_nodes_cons in Hready. apply Forall_cons in Hready as [Hready_k Hready].
  apply Forall_app in Hready as [Hready_below Hready_rest].
  assert (Hkr : rootId k <> r).
  { intros Heq. apply Hrk. rewrite <- Heq. apply rootId_in_ids. }
  destruct (attach_own_run A parent keep k rest Hkr) with (pre := pre) (s := s) (e := e)
    as (s1 & ek & Hrun1 & Hp1 & Hk1 & Hty1 & Hc1 & Hkids1 & Hf1 & Hu1); try done.
  { intros o Eo. apply (Hty k o); [ | done ]. rewrite bind_nodes_cons. by left. }
  (* the Creates and Inserts below the child *)
  assert (Hbelow_ids : forall d, d ∈ subtrees k ≫= nodes ->
            rootId d <> r /\ rootId d <> rootId k).
  { intros d Hd. apply forest_nodes_ids in Hd. split; intros Heq; rewrite Heq in Hd.
    - apply Hrk. by apply bind_ids_in_ids.
    - by apply (NoDup_ids_root k). }
  destruct (Hrun_k Hndk) with (s := s1) (e := ek)
    as (s2 & Hrun2 & Hshow2 & Hf2 & Hu2); try done.
  { intros d o Hd. apply Hty. rewrite bind_cons, elem_of_app. by left. }
  { apply Forall_forall. intros d Hd. rewrite Forall_forall in Hready_below.
    specialize (Hready_below d Hd). unfold Ready in *.
    destruct (Hbelow_ids d Hd) as [Hdr Hdk].
    destruct (lookup A (rootId d)) as [o |].
    - by rewrite Hf1.
    - intros [Hin | Hin]%Hu1; done. }
  (* the later children *)
  assert (Hrest_ids : forall d, d ∈ rest ≫= nodes ->
            rootId d <> r /\ rootId d ∉ ids k).
  { intros d Hd. apply forest_nodes_ids in Hd. split.
    - intros Heq. apply Hrrest. by rewrite <- Heq.
    - intros Hin. by apply (Hdisj (rootId d)). }
  destruct (IH Hruns Hrest Hrrest) with (pre := pre ++ [rootId k]) (s := s2)
      (e := withKids e (pre ++ rootId k :: filter (.∈ keep) (rootId <$> rest)))
    as (s3 & Hrun3 & Hp3 & Hshow3 & Hf3 & Hu3).
  { intros d o Hd. apply Hty. rewrite bind_cons, elem_of_app. by right. }
  { by rewrite Hf2. }
  { cbn. by rewrite <- app_assoc. }
  { apply Forall_forall. intros d Hd. rewrite Forall_forall in Hready_rest.
    specialize (Hready_rest d Hd). unfold Ready in *.
    destruct (Hrest_ids d Hd) as [Hdr Hdk].
    destruct (lookup A (rootId d)) as [o |].
    - rewrite Hf2 by done. rewrite Hf1; [ done | done | ].
      intros Heq. apply Hdk. rewrite Heq. apply rootId_in_ids.
    - intros [[Hin | Hin]%Hu1 | Hin]%Hu2.
      + done.
      + apply Hdk. rewrite Hin. apply rootId_in_ids.
      + apply Hdk. by apply bind_ids_in_ids. }
  rewrite length_app, Nat.add_1_r in Hrun3.
  rewrite withKids_withKids, <- app_assoc in Hp3. cbn [app] in Hp3.
  exists s3. cbn [attachAll fmap list_fmap]. fold (fmap (M:=list) (@rootId Props)).
  split_and!.
  - eapply storeRun_app_Some; [ exact Hrun1 | ].
    eapply storeRun_app_Some; [ exact Hrun2 | exact Hrun3 ].
  - done.
  - constructor; [ | done ].
    apply (Shows_agree _ _ _ _ Hshow2). intros x Hx. apply Hf3.
    + by apply Hdisj.
    + intros ->. done.
  - intros x Hx Hxr. rewrite bind_cons, not_elem_of_app in Hx. destruct Hx as [Hxk Hxrest].
    rewrite Hf3 by done. rewrite Hf2 by done. apply Hf1; [ done | ].
    intros ->. apply Hxk, rootId_in_ids.
  - intros x Hx. rewrite bind_cons, elem_of_app.
    apply Hu3 in Hx as [Hx | Hx]; [ | by right; right ].
    apply Hu2 in Hx as [Hx | Hx]; [ | right; left; by apply bind_ids_in_ids ].
    apply Hu1 in Hx as [Hx | ->]; [ by left | right; left; apply rootId_in_ids ].
Qed.

Lemma attach_run (A : Tree Props) n : AttachRuns contentEquals emptyProps A n.
Proof.
  induction n as [id ty p kids IH] using Tree_forall_ind.
  set (t := Node id ty p kids) in *.
  intros Hnd Hty s e He Hte Hpe Hke Hready. cbn [subtrees] in *.
  destruct (attachAll_run A (snapshot t) (kept (lookup A (rootId t)) (Some t)) kids IH)
    with (pre := @nil Tag) (s := s) (e := e) as (s' & Hrun & Hp & Hshow & Hf & Hu).
  - by apply (NoDup_ids_subtrees t).
  - by apply (NoDup_ids_root t).
  - intros d o Hd. apply Hty. rewrite nodes_unfold. by right.
  - intros x. by apply (kept_new_in_old A t).
  - done.
  - cbn [app]. rewrite Hke. symmetry.
    apply filter_sublist_id; [ apply (kept_new_sublist A t) | ].
    by apply NoDup_forest_roots, (NoDup_ids_subtrees t).
  - done.
  - exists s'. rewrite attach_unfold. split_and!; try done.
    + cbn [identity snapshot app] in Hp.
      by apply (Shows_node _ _ t (withKids e (rootId <$> kids))).
    + intros x Hx. rewrite ids_unfold, not_elem_of_cons in Hx. destruct Hx. by apply Hf.
Qed.

(** *** The three parts in sequence *)

Lemma typesAgree_nodes (A B : Tree Props) :
  typesAgree A B = true ->
  forall d o, d ∈ nodes B -> lookup A (rootId d) = Some o -> rootType o = rootType d.
Proof.
  unfold typesAgree. rewrite forallb_forall. intros Hall d o Hd Eo.
  apply list_elem_of_In, Hall in Hd. rewrite Eo in Hd. by apply bool_decide_eq_true in Hd.
Qed.

Lemma container_not_in_tree t : identity (emptySnapshot emptyProps) ∉ ids t.
Proof. cbn. intros H%ids_positive. lia. Qed.

Lemma stayed_roots_old (A B : Tree Props) x : x ∈ stayed [A] 0 [B] -> x ∈ ids A.
Proof.
  rewrite stayed_roots. case_bool_decide as Heq.
  - intros ->%list_elem_of_singleton. rewrite <- Heq. apply rootId_in_ids.
  - by intros ?%elem_of_nil.
Qed.

Lemma stayed_roots_new (A B : Tree Props) x : x ∈ stayed [A] 0 [B] -> x ∈ ids B.
Proof.
  rewrite stayed_roots. case_bool_decide as Heq.
  - intros ->%list_elem_of_singleton. apply rootId_in_ids.
  - by intros ?%elem_of_nil.
Qed.

(** On a store that shows the old tree under the root container, the
    emitted list runs to the end and leaves a store that shows the new
    tree under the root container. *)
Lemma diff_runs (A B : Tree Props) :
  NoDup (ids A) -> NoDup (ids B) -> typesAgree A B = true ->
  forall s e,
    live s !! identity (emptySnapshot emptyProps) = Some e ->
    entryKids e = [rootId A] ->
    Shows eq (live s) A ->
    (forall x, x ∈ used s -> x = 0 \/ x ∈ ids A) ->
    exists s',
      storeRun (removals emptyProps A B ++ changes contentEquals emptyProps A B
                ++ insertions emptyProps A B) s = Some s' /\
      live s' !! identity (emptySnapshot emptyProps) = Some (withKids e [rootId B]) /\
      Shows (contentEqual contentEquals) (live s') B.
Proof.
  intros HA HB Hty s e He Hkids Hshow Hused.
  set (c := emptySnapshot emptyProps) in *.
  set (keep := stayed [A] 0 [B]).
  (* the Removes and Deletes *)
  destruct (detachAll_run B c keep [A]) with (pre := @nil Tag) (s := s) (e := e)
    as (s1 & Hrun1 & Hu1 & Hf1 & Hc1 & Hd1); try done.
  { constructor; [ by apply detach_run | constructor ]. }
  { by rewrite bind_single. }
  { rewrite bind_single. apply container_not_in_tree. }
  { apply stayed_roots_new. }
  { by constructor. }
  rewrite bind_single, Forall_forall in Hd1. cbn [app] in Hc1.
  assert (Hold : forall d o, d ∈ nodes B -> lookup A (rootId d) = Some o ->
            live s1 !! rootId d = Some (detachedEntry B o) /\
            detachedEntry B o = mkEntry (rootType o) (rootProps o) (kept (Some o) (Some d))).
  { intros d o Hd Eo. apply lookup_Some in Eo as [Ho Hid].
    specialize (Hd1 o Ho). unfold Detached in Hd1.
    rewrite bool_decide_eq_true_2 in Hd1 by (rewrite Hid; by apply nodes_ids).
    rewrite <- Hid. split; [ done | ]. unfold detachedEntry. f_equal.
    by destruct (kept_both A B o d HA HB Ho Hd Hid) as [-> _]. }
  (* the Updates *)
  destruct (updatesAll_run A [B]) with (parent := c) (j := 0%nat) (s := s1)
    as (s2 & Hrun2 & Hu2 & Hf2 & Hp2).
  { constructor; [ apply updates_run | constructor ]. }
  { by rewrite bind_single. }
  { rewrite bind_single. intros d Hd [o Eo]%lookup_is_Some.
    destruct (Hold d o Hd Eo) as [-> _]. by eexists. }
  rewrite bind_single in Hf2. rewrite bind_single in Hp2.
  (* the Creates and Inserts *)
  destruct (attachAll_run A c keep [B]) with (pre := @nil Tag) (s := s2)
      (e := withKids e (filter (.∈ keep) (rootId <$> [A])))
    as (s3 & Hrun3 & Hc3 & Hs3 & _ & _).
  { constructor; [ apply attach_run | constructor ]. }
  { by rewrite bind_single. }
  { rewrite bind_single. apply container_not_in_tree. }
  { rewrite bind_single. by apply typesAgree_nodes. }
  { apply stayed_roots_old. }
  { rewrite Hf2 by apply container_not_in_tree. exact Hc1. }
  { cbn [entryKids withKids app]. apply kept_same.
    - cbn. apply NoDup_singleton.
    - cbn. apply NoDup_singleton. }
  { rewrite bind_single. apply Forall_forall. intros d Hd. unfold Ready.
    destruct (lookup A (rootId d)) as [o |] eqn:Eo.
    - rewrite (Hp2 d Hd). destruct (Hold d o Hd Eo) as [-> ->]. cbn.
      unfold readyEntry, withProps, updatedProps. cbn. by rewrite Eo.
    - rewrite Hu2, Hu1. intros [H0 | HinA]%Hused.
      + pose proof (rootId_positive d). lia.
      + by apply lookup_None in Eo. }
  apply Forall_cons in Hs3 as [Hs3 _].
  exists s3. split_and!.
  - unfold removals, changes, insertions. fold c. fold keep.
    eapply storeRun_app_Some; [ exact Hrun1 | ].
    eapply storeRun_app_Some; [ exact Hrun2 | exact Hrun3 ].
  - rewrite Hc3. by rewrite withKids_withKids.
  - done.
Qed.

(** *** The host behind the store *)

Lemma emptyApplier_follows :
  Follows (Props:=Props) ∅ emptyApplier (mkStore ∅ ∅).
Proof.
  split; cbn.
  - intros x [e He]. by rewrite lookup_empty in He.
  - intros x e He. by rewrite lookup_empty in He.
  - intros x y h Hx. by rewrite lookup_empty in Hx.
  - intros x h Hx. by rewrite lookup_empty in Hx.
  - intros x. rewrite lookup_empty. split; [ by intros ?%not_elem_of_empty | by intros [? ?] ].
Qed.

(** A new view, given children already in the host, under an identity
    never used. *)
Lemma follows_new_view g st s x ty (p : Props) (kids : list Tag) (hs : list Handle) :
  Follows g st s -> x ∉ used s ->
  Forall2 (fun c hc => g !! c = Some hc) kids hs ->
  Follows (<[x := nextHandle (hostTree st)]> g)
          (mkApplier
             (mkHost (<[nextHandle (hostTree st) := mkView ty p hs]> (views (hostTree st)))
                     (S (nextHandle (hostTree st))))
             (<[x := nextHandle (hostTree st)]> (identityMap st)))
          (mkStore (<[x := mkEntry ty p kids]> (live s)) ({[x]} ∪ used s)).
Proof.
  intros [Hmap Hview Hinj Hbound Hused] Hx Hhs.
  set (h := nextHandle (hostTree st)).
  assert (Hgx : g !! x = None).
  { destruct (g !! x) eqn:E; [ | done ]. destruct Hx. apply Hused. by eexists. }
  split; cbn.
  - intros y [e Hy]. destruct (decide (x = y)) as [<- | Hne].
    + by rewrite !lookup_insert_eq.
    + rewrite lookup_insert_ne in Hy by done. rewrite !lookup_insert_ne by done.
      apply Hmap. by exists e.
  - intros y e Hy. destruct (decide (x = y)) as [<- | Hne].
    + rewrite lookup_insert_eq in Hy. injection Hy as <-.
      exists h, hs. rewrite !lookup_insert_eq. split_and!; [ done | done | ].
      cbn. eapply kids_handles_mono; [ | done ]. by apply insert_subseteq.
    + rewrite lookup_insert_ne in Hy by done.
      destruct (Hview y e Hy) as (hy & hs' & Hgy & Hv & Hkids).
      exists hy, hs'. rewrite lookup_insert_ne by done. split_and!; [ done | | ].
      * rewrite lookup_insert_ne; [ done | ]. apply Hbound in Hgy. unfold h. lia.
      * eapply kids_handles_mono; [ | done ]. by apply insert_subseteq.
  - intros y z hy Hy Hz.
    destruct (decide (x = y)) as [<- | Hy']; destruct (decide (x = z)) as [<- | Hz'];
      rewrite ?lookup_insert_eq, ?lookup_insert_ne in * by done; simplify_eq.
    + done.
    + apply Hbound in Hz. lia.
    + apply Hbound in Hy. lia.
    + by eapply Hinj.
  - intros y hy Hy. destruct (decide (x = y)) as [<- | Hne].
    + rewrite lookup_insert_eq in Hy. injection Hy as <-. unfold h. lia.
    + rewrite lookup_insert_ne in Hy by done. apply Hbound in Hy. lia.
  - intros y. rewrite elem_of_union, elem_of_singleton, Hused.
    destruct (decide (x = y)) as [<- | Hne].
    + rewrite lookup_insert_eq. split; [ by eexists | by left ].
    + rewrite lookup_insert_ne by done.
      split; [ intros [? | ?]; [ congruence | done ] | by right ].
Qed.

(** The host initialised to a tree follows a store that shows the tree
    under the root container. *)
Lemma mountRoot_follows (A : Tree Props) :
  NoDup (ids A) ->
  exists g s,
    Follows g (mountRoot emptyProps A) s /\
    live s !! identity (emptySnapshot emptyProps) = Some (mkEntry "" emptyProps [rootId A]) /\
    Shows eq (live s) A /\
    (forall x, x ∈ used s -> x = 0 \/ x ∈ ids A).
Proof.
  intros HA.
  destruct (mount_follows A ∅ emptyApplier (mkStore ∅ ∅) emptyApplier_follows HA)
    as (g0 & s0 & (Hf0 & _ & Hu0 & _ & Hs0) & Hg0).
  { intros x _. cbn. apply not_elem_of_empty. }
  apply Forall_cons in Hs0 as [Hs0 _].
  assert (Hfresh : 0 ∉ used s0).
  { rewrite Hu0, bind_single. cbn. intros [?%not_elem_of_empty | H%ids_positive]; [ done | lia ]. }
  unfold mountRoot. destruct (mount A emptyApplier) as [h st]. cbn [fst snd] in *.
  exists (<[0 := nextHandle (hostTree st)]> g0),
         (mkStore (<[0 := mkEntry "" emptyProps [rootId A]]> (live s0)) ({[0]} ∪ used s0)).
  split_and!.
  - apply follows_new_view; [ done | done | ]. by constructor.
  - cbn. by rewrite lookup_insert_eq.
  - apply (Shows_agree _ _ _ _ Hs0). intros x Hx. cbn.
    apply lookup_insert_ne. intros <-. apply ids_positive in Hx. lia.
  - intros x. cbn. rewrite elem_of_union, elem_of_singleton, Hu0, bind_single. cbn.
    intros [-> | [?%not_elem_of_empty | ?]]; [ by left | done | by right ].
Qed.

(** C1: for any two well-formed trees, applying the list that [diff]
    emits to a host tree initialised to the old tree runs to completion
    and leaves a host tree that shows the new tree under the root
    container: same shape, same types, content equal per the comparator
    (taken reflexive), every identity mapped to its view.  [diff] emits a
    list whenever no identity changes type between the two trees, and
    otherwise reports the type mismatch. *)
Theorem diff_then_apply_yields_new_tree (A B : Tree Props) :
  wellFormed A = true -> wellFormed B = true ->
  (forall l, diff contentEquals emptyProps A B = inr l ->
     exists st',
       apply l (mountRoot emptyProps A) = Applied st' /\
       showsRoot contentEquals emptyProps st' B = true) /\
  (typesAgree A B = true -> exists l, diff contentEquals emptyProps A B = inr l) /\
  (typesAgree A B = false ->
     diff contentEquals emptyProps A B = inl TypeMismatchUnderIdentity).
Proof.
  intros HwA HwB. unfold diff. rewrite HwA, HwB. cbn [andb negb].
  destruct (typesAgree A B) eqn:Hty; cbn [negb];
    [ | split_and!; [ intros l [=] | intros [=] | done ] ].
  split_and!; [ | by eexists | intros [=] ].
  intros l [= <-].
  apply bool_decide_eq_true in HwA, HwB.
  destruct (mountRoot_follows A HwA) as (g0 & s0 & Hf0 & Hc0 & Hs0 & Hu0).
  destruct (diff_runs A B HwA HwB Hty s0 _ Hc0 eq_refl Hs0 Hu0) as (s1 & Hrun & Hc1 & Hs1).
  destruct (follows_run _ _ _ _ _ Hf0 Hrun) as (g1 & st1 & Happ & Hf1 & _).
  exists st1. split; [ done | ].
  unfold showsRoot.
  rewrite (follows_map _ _ _ Hf1) by (by eexists).
  destruct (follows_view _ _ _ Hf1 _ _ Hc1) as (hc & hs & -> & -> & Hhs).
  cbn in Hhs |- *.
  apply Forall2_cons_inv_l in Hhs as (hb & hs' & Hb & ->%Forall2_nil_inv_l & ->).
  by apply (shows_from_store contentEquals g1 st1 s1 B Hf1 Hs1).
Qed.

End Runs.

(** The round trip on the sample trees. *)
Lemma diff_then_apply_yields_new_tree_witness :
  (forall l, diff String.eqb "" sampleOld sampleNew = inr l ->
     exists st',
       apply l (mountRoot "" sampleOld) = Applied st' /\
       showsRoot String.eqb "" st' sampleNew = true) /\
  (typesAgree sampleOld sampleNew = true ->
     exists l, diff String.eqb "" sampleOld sampleNew = inr l) /\
  (typesAgree sampleOld sampleNew = false ->
     diff String.eqb "" sampleOld sampleNew = inl TypeMismatchUnderIdentity).
Proof.
  apply (diff_then_apply_yields_new_tree String.eqb "" String.eqb_refl
           sampleOld sampleNew); vm_compute; reflexivity.
Defined.

(** Both trees are well formed, and identity 2 is a Text in the one and an
    Image in the other: [diff] rejects the pair and emits no list. *)
Example retyped_identity_is_rejected :
  wellFormed retypedOld = true /\ wellFormed retypedNew = true /\
  diff String.eqb "" retypedOld retypedNew = inl TypeMismatchUnderIdentity.
Proof. split_and!; vm_compute; reflexivity. Qed.

End RoundTrip.

(* ===================================================================== *)
(** * The factory behind a mutation *)
(* ===================================================================== *)

Module ShadowViewMutationCallsFacts.
Import ShadowViewMutation ShadowViewMutationCalls.

Section Facts.
Context {ShadowView : Type}.
Variable emptyShadowView : ShadowView.

(** X1: a mutation tells which factory made it and from which arguments:
    two factory calls that return equal mutations are the same call of the
    same factory. *)
Theorem mutation_determines_the_call (call call' : FactoryCall ShadowView) :
  returned emptyShadowView call = returned emptyShadowView call' -> call = call'.
Proof.
  destruct call, call'; cbn; unfold CreateMutation, DeleteMutation, InsertMutation,
    RemoveMutation, UpdateMutation; intros [=]; congruence.
Qed.

End Facts.

Lemma mutation_determines_the_call_witness :
  CallInsert "root" "a" 0 = CallInsert "root" "a" 0.
Proof.
  apply (mutation_determines_the_call "" (CallInsert "root" "a" 0) (CallInsert "root" "a" 0)).
  reflexivity.
Defined.

End ShadowViewMutationCallsFacts.

(* ===================================================================== *)
(** * Properties of the typed-array objects *)
(* ===================================================================== *)

Module TypedArrayObjectsFacts.
Import TypedArrayApi TypedArrayObjects TypedArrayApiFacts.

Section Kinds.
Context `{Jsi}.
Implicit Types (runtime : Runtime) (this : Object) (T : TypedArrayKind).

Lemma getKind_of_name runtime this proto constructor name :
  getProperty runtime this "__proto__" = inr (object proto) ->
  getProperty runtime proto "constructor" = inr (object constructor) ->
  getProperty runtime constructor "name" = inr (string_ name) ->
  TypedArrayBase.getKind runtime this = getTypedArrayKindForName name.
Proof.
  intros Hp Hc Hn. unfold TypedArrayBase.getKind.
  rewrite Hp. cbn. rewrite Hc. cbn. rewrite Hn. reflexivity.
Qed.

Lemma as_by_kind (NDEBUG : bool) T runtime later this :
  NDEBUG = true \/ TypedArrayBase.getKind later this = TypedArrayBase.getKind runtime this ->
  TypedArrayBase.as_ NDEBUG T runtime later this =
  match TypedArrayBase.getKind runtime this with
  | inl e => Thrown e
  | inr kind =>
      if bool_decide (kind = T) then Returned this
      else Thrown (JSError "Object is not a TypedArray")
  end.
Proof.
  intros Hsame. unfold TypedArrayBase.as_, TypedArrayBase.get.
  destruct (TypedArrayBase.getKind runtime this) as [e | kind]; [ done | ].
  case_bool_decide as Hk; [ by rewrite bool_decide_eq_false_2 | ].
  subst kind. rewrite bool_decide_eq_true_2 by done.
  destruct Hsame as [-> | ->]; [ done | ].
  destruct NDEBUG; [ done | ]. by rewrite bool_decide_eq_true_2.
Qed.

(** X3: [as<T>] reads the kind twice in a debug build, in its own test
    and in the [assert] of [get<T>].  In a release build it never ends in
    [abort()] and returns the object it was called on exactly when the
    first read gives [T].  In a debug build it returns exactly when both
    reads give [T], and ends in [abort()] exactly when the first read gives
    [T] and the second another kind.  When the two reads agree, no build
    aborts and both builds end the same way.  [get<T>] alone, in a release
    build, returns any object unchecked and, in a debug build, aborts on
    an object of another kind. *)
Theorem as_aborts_only_on_a_changed_kind :
  forall T runtime later this,
    TypedArrayBase.as_ true T runtime later this <> Aborted /\
    (forall obj, TypedArrayBase.as_ true T runtime later this = Returned obj <->
                 obj = this /\ TypedArrayBase.getKind runtime this = inr T) /\
    (forall obj, TypedArrayBase.as_ false T runtime later this = Returned obj <->
                 obj = this /\ TypedArrayBase.getKind runtime this = inr T /\
                 TypedArrayBase.getKind later this = inr T) /\
    (TypedArrayBase.as_ false T runtime later this = Aborted <->
       TypedArrayBase.getKind runtime this = inr T /\
       exists kind, TypedArrayBase.getKind later this = inr kind /\ kind <> T) /\
    (forall NDEBUG : bool,
       TypedArrayBase.getKind later this = TypedArrayBase.getKind runtime this ->
       TypedArrayBase.as_ NDEBUG T runtime later this <> Aborted /\
       TypedArrayBase.as_ NDEBUG T runtime later this =
       TypedArrayBase.as_ true T runtime later this) /\
    TypedArrayBase.get true T runtime this = Returned this /\
    (forall kind, TypedArrayBase.getKind runtime this = inr kind -> kind <> T ->
                  TypedArrayBase.get false T runtime this = Aborted).
Proof.
  intros T runtime later this. split_and!.
  - unfold TypedArrayBase.as_, TypedArrayBase.get.
    destruct (TypedArrayBase.getKind runtime this); [ done | by case_bool_decide ].
  - intros obj. unfold TypedArrayBase.as_, TypedArrayBase.get.
    destruct (TypedArrayBase.getKind runtime this) as [e | kind].
    + split; [ done | by intros [_ ?] ].
    + case_bool_decide as Hk.
      * split; [ done | intros [_ [= ?]]; by subst ].
      * subst kind.
        split; [ by intros [= <-] | by intros [-> _] ].
  - intros obj. unfold TypedArrayBase.as_, TypedArrayBase.get.
    destruct (TypedArrayBase.getKind runtime this) as [e | kind].
    + split; [ done | by intros (_ & ? & _) ].
    + case_bool_decide as Hk.
      * split; [ done | intros (_ & [= ?] & _); by subst ].
      * subst kind.
        destruct (TypedArrayBase.getKind later this) as [e' | kind'].
        -- split; [ done | by intros (_ & _ & ?) ].
        -- case_bool_decide as Hk'.
           ++ subst kind'. split; [ by intros [= <-] | by intros (-> & _ & _) ].
           ++ split; [ done | intros (_ & _ & [= ?]); by subst ].
  - unfold TypedArrayBase.as_, TypedArrayBase.get.
    destruct (TypedArrayBase.getKind runtime this) as [e | kind].
    + split; [ done | by intros [? _] ].
    + case_bool_decide as Hk.
      * split; [ done | intros [[= ?] _]; by subst ].
      * subst kind.
        destruct (TypedArrayBase.getKind later this) as [e' | kind'].
        -- split; [ done | by intros (_ & k & ? & _) ].
        -- case_bool_decide as Hk'.
           ++ subst kind'. split; [ done | by intros (_ & k & [= <-] & ?) ].
           ++ split; [ intros _; split; [ done | by exists kind' ] | done ].
  - intros NDEBUG Hsame.
    rewrite !as_by_kind by (by right).
    split; [ | done ].
    destruct (TypedArrayBase.getKind runtime this); [ done | by case_bool_decide ].
  - done.
  - intros kind Hk Hne. unfold TypedArrayBase.get. rewrite Hk.
    by rewrite bool_decide_eq_false_2.
Qed.

(** X4: in a release build, or when the read of the assertion finds the
    kind the test found, what [as<T>] makes of an object is decided by the
    name of its constructor, read as [__proto__.constructor.name]: the
    object is returned exactly when that is the constructor name of [T];
    the JSError "Object is not a TypedArray" is thrown exactly when it is
    the name of another of the nine kinds; for any other name, that of a
    plain object included, the call throws the runtime_error "unknown
    type" of [getTypedArrayKindForName] instead. *)
Theorem as_is_decided_by_the_constructor_name
    (NDEBUG : bool) T runtime later this proto constructor name :
  getProperty runtime this "__proto__" = inr (object proto) ->
  getProperty runtime proto "constructor" = inr (object constructor) ->
  getProperty runtime constructor "name" = inr (string_ name) ->
  NDEBUG = true \/ TypedArrayBase.getKind later this = TypedArrayBase.getKind runtime this ->
  (TypedArrayBase.as_ NDEBUG T runtime later this = Returned this <->
     name = getTypedArrayConstructorName T) /\
  (TypedArrayBase.as_ NDEBUG T runtime later this =
     Thrown (JSError "Object is not a TypedArray") <->
     exists kind, kind <> T /\ name = getTypedArrayConstructorName kind) /\
  (TypedArrayBase.as_ NDEBUG T runtime later this = Thrown (runtime_error "unknown type") <->
     name ∉ getTypedArrayConstructorName <$> allKinds).
Proof.
  intros Hp Hc Hn Hsame.
  rewrite (as_by_kind _ _ _ _ _ Hsame), (getKind_of_name _ _ _ _ _ Hp Hc Hn).
  clear Hsame.
  assert (Hall : forall k : TypedArrayKind, k ∈ allKinds).
  { intros k. unfold allKinds. destruct k; set_solver. }
  destruct (getTypedArrayKindForName name) as [e | kind] eqn:E.
  - assert (Hnot : name ∉ getTypedArrayConstructorName <$> allKinds).
    { intros [k [-> _]]%list_elem_of_fmap.
      rewrite kind_for_constructor_name in E. discriminate. }
    assert (e = runtime_error "unknown type") as ->.
    { rewrite unknown_name_throws in E; [ congruence | ].
      intros k <-. apply Hnot, list_elem_of_fmap. eauto. }
    split_and!.
    + split; [ done | ]. intros ->. by rewrite kind_for_constructor_name in E.
    + split; [ done | ]. intros (k & _ & ->). by rewrite kind_for_constructor_name in E.
    + done.
  - apply constructor_name_for_kind in E. subst name.
    assert (Hinj : forall k, getTypedArrayConstructorName kind = getTypedArrayConstructorName k -> kind = k).
    { intros k Hk. pose proof (kind_for_constructor_name kind) as H1.
      rewrite Hk, kind_for_constructor_name in H1. congruence. }
    case_bool_decide as Hk; split_and!.
    + subst. done.
    + split; [ done | ]. intros (k & Hne & ->%Hinj). done.
    + split; [ done | ]. intros Hnot. destruct Hnot. apply list_elem_of_fmap. eauto.
    + split; [ done | ]. intros ->%Hinj. done.
    + split; [ | done ]. intros _. exists kind. done.
    + split; [ done | ]. intros Hnot. destruct Hnot. apply list_elem_of_fmap. eauto.
Qed.

End Kinds.

Section Buffers.
Context `{Jsi}.
Implicit Types (runtime : Runtime) (this jsObj : Object).

(** X5: [getBuffer] returns a buffer exactly when [hasBuffer] answers
    [true], throws the runtime_error "no ArrayBuffer attached" when it
    answers [false], and throws what reading the [buffer] property throws
    when [hasBuffer] does. *)
Theorem getBuffer_agrees_with_hasBuffer :
  forall runtime this,
    match TypedArrayBase.hasBuffer runtime this with
    | inr true => exists block, TypedArrayBase.getBuffer runtime this = inr block
    | inr false =>
        TypedArrayBase.getBuffer runtime this = inl (runtime_error "no ArrayBuffer attached")
    | inl e => TypedArrayBase.getBuffer runtime this = inl e
    end.
Proof.
  intros runtime this. unfold TypedArrayBase.hasBuffer, TypedArrayBase.getBuffer.
  destruct (getProperty runtime this "buffer") as [e | buffer]; cbn; [ done | ].
  destruct buffer as [| | | | | | o]; cbn; try done.
  unfold isArrayBuffer. destruct (arrayBuffer runtime o) as [block |] eqn:E.
  - rewrite bool_decide_eq_true_2 by eauto. eauto.
  - rewrite bool_decide_eq_false_2; [ done | ]. by intros [? ?].
Qed.

(** X6: [getTypedArray] wraps the object whenever [ArrayBuffer.isView]
    answers with a boolean, [false] as well as [true]: it returns the
    object it was given whenever [isTypedArray] returns at all, and throws
    what [isTypedArray] throws otherwise. *)
Theorem getTypedArray_does_not_look_at_the_answer :
  forall runtime jsObj,
    match isTypedArray runtime jsObj with
    | inr _ => getTypedArray runtime jsObj = inr jsObj
    | inl e => getTypedArray runtime jsObj = inl e
    end.
Proof.
  intros runtime jsObj. unfold isTypedArray, getTypedArray.
  match goal with |- context [bind ?r _] => destruct r as [e | jsVal] end; cbn; [ done | ].
  by destruct jsVal.
Qed.

End Buffers.

Section Memory.
Implicit Types (mem : memory) (src v old : list byte) (a first d_first : N).

Lemma range_reads mem first (n : nat) v :
  range mem first n = Some v ->
  length v = n /\
  forall (i : nat) b, v !! i = Some b -> mem !! (first + N.of_nat i)%N = Some b.
Proof.
  revert first v. induction n as [| n IH]; intros first v; cbn [range].
  - intros [= <-]. split; [ done | ]. intros i b Hi. by rewrite lookup_nil in Hi.
  - destruct (mem !! first) as [b0 |] eqn:E0; cbn; [ | done ].
    destruct (range mem (N.succ first) n) as [rest |] eqn:Er; cbn; [ | done ].
    intros [= <-]. apply IH in Er as [Hlen Hrest]. split; [ cbn; lia | ].
    intros [| i] b Hi; cbn in Hi.
    + injection Hi as <-. by replace (first + N.of_nat 0)%N with first by lia.
    + replace (first + N.of_nat (S i))%N with (N.succ first + N.of_nat i)%N by lia.
      by apply Hrest.
Qed.

Lemma range_of_reads mem first v :
  (forall (i : nat) b, v !! i = Some b -> mem !! (first + N.of_nat i)%N = Some b) ->
  range mem first (length v) = Some v.
Proof.
  revert first. induction v as [| b v IH]; intros first Hv; [ done | ].
  cbn [length range]. specialize (Hv 0%nat b eq_refl) as H0.
  replace (first + N.of_nat 0)%N with first in H0 by lia. rewrite H0. cbn.
  rewrite IH; [ done | ]. intros i b' Hi.
  replace (N.succ first + N.of_nat i)%N with (first + N.of_nat (S i))%N by lia.
  by apply Hv.
Qed.

Lemma range_Some mem first (n : nat) v :
  range mem first n = Some v <->
  length v = n /\
  forall (i : nat) b, v !! i = Some b -> mem !! (first + N.of_nat i)%N = Some b.
Proof.
  split; [ apply range_reads | ]. intros [<- Hv]. by apply range_of_reads.
Qed.

Lemma range_ext mem mem' first (n : nat) :
  (forall i : nat, (i < n)%nat -> mem' !! (first + N.of_nat i)%N = mem !! (first + N.of_nat i)%N) ->
  range mem' first n = range mem first n.
Proof.
  revert first. induction n as [| n IH]; intros first Hsame; [ done | ].
  cbn [range]. specialize (Hsame 0%nat ltac:(lia)) as H0.
  replace (first + N.of_nat 0)%N with first in H0 by lia. rewrite H0.
  rewrite IH; [ done | ]. intros i Hi.
  replace (N.succ first + N.of_nat i)%N with (first + N.of_nat (S i))%N by lia.
  apply Hsame. lia.
Qed.

Lemma copy_app src src' d_first mem :
  copy (src ++ src') d_first mem =
  copy src' (d_first + N.of_nat (length src)) (copy src d_first mem).
Proof.
  revert d_first mem. induction src as [| b src IH]; intros d_first mem; cbn [app copy length].
  - by replace (d_first + N.of_nat 0)%N with d_first by lia.
  - rewrite IH. f_equal. lia.
Qed.

Lemma copy_lookup src d_first mem a :
  copy src d_first mem !! a =
  if bool_decide (d_first <= a < d_first + N.of_nat (length src))%N
  then src !! N.to_nat (a - d_first)
  else mem !! a.
Proof.
  case_bool_decide as Ha.
  - destruct (lookup_lt_is_Some_2 src (N.to_nat (a - d_first))) as [b Hb]; [ lia | ].
    rewrite Hb. replace a with (d_first + N.of_nat (N.to_nat (a - d_first)))%N at 1 by lia.
    by apply copy_lookup_inside.
  - apply copy_lookup_outside. lia.
Qed.

End Memory.

Section Blocks.
Context `{Jsi}.
Implicit Types (runtime : Runtime) (jsObj : Object) (mem : memory).

(** X7: [arrayBufferToVector] throws the runtime_error "Object is not an
    ArrayBuffer" on every object that is not one, before it reads any
    property.  The vector it returns holds as many bytes as the object's
    [byteLength] property says, an empty one for 0, and byte [i] of it is
    the byte at address [data + i]. *)
Theorem arrayBufferToVector_reads_the_block :
  forall runtime mem jsObj,
    (arrayBuffer runtime jsObj = None ->
     arrayBufferToVector runtime mem jsObj = inl (runtime_error "Object is not an ArrayBuffer")) /\
    (forall v, arrayBufferToVector runtime mem jsObj = inr (Some v) ->
       exists block d,
         arrayBuffer runtime jsObj = Some block /\
         getProperty runtime jsObj "byteLength" = inr (number d) /\
         length v = N.to_nat (size_t_of d) /\
         forall (i : nat) b, v !! i = Some b ->
                             mem !! (data block + N.of_nat i)%N = Some b).
Proof.
  intros runtime mem jsObj. unfold arrayBufferToVector. split.
  - by intros ->.
  - intros v. destruct (arrayBuffer runtime jsObj) as [block |]; [ | done ].
    destruct (getProperty runtime jsObj "byteLength") as [e | val]; cbn; [ done | ].
    destruct val as [| | | d | | |]; cbn; try done.
    intros [= Hr]. apply range_Some in Hr as [Hlen Hv]. eauto 10.
Qed.

End Blocks.

Section Updates.
Implicit Types (mem : memory) (buffer : ArrayBuffer) (offset : N).

(** X8: a call of [arrayBufferUpdate] that is not rejected changes the
    [data.size()] bytes from [data + offset] on and nothing else: every
    other address holds what it held before, and an empty vector leaves
    the memory as it was. *)
Theorem arrayBufferUpdate_writes_only_its_range mem buffer (data_ : list byte) offset mem' :
  arrayBufferUpdate mem buffer data_ offset = inr mem' ->
  (forall a : N,
      (a < data buffer + offset \/
       data buffer + offset + N.of_nat (length data_) <= a)%N ->
      mem' !! a = mem !! a) /\
  (data_ = [] -> mem' = mem).
Proof.
  unfold arrayBufferUpdate.
  destruct (size buffer <? N.of_nat (length data_))%N; [ done | ].
  intros [= <-]. split.
  - intros a Ha. by apply copy_lookup_outside.
  - by intros ->.
Qed.

(** X9: of two updates of the same buffer at the same offset with vectors
    of the same length, only the second is left: the memory is the one the
    second update alone would give. *)
Theorem arrayBufferUpdate_last_write_wins mem buffer (data1 data2 : list byte) offset mem1 mem2 :
  length data1 = length data2 ->
  arrayBufferUpdate mem buffer data1 offset = inr mem1 ->
  arrayBufferUpdate mem1 buffer data2 offset = inr mem2 ->
  arrayBufferUpdate mem buffer data2 offset = inr mem2.
Proof.
  unfold arrayBufferUpdate. intros Hlen. rewrite Hlen.
  destruct (size buffer <? N.of_nat (length data2))%N; [ done | ].
  intros [= <-] [= <-]. f_equal. apply map_eq. intros a.
  rewrite !copy_lookup, Hlen. by case_bool_decide.
Qed.

Lemma copy_commute (src1 src2 : list byte) (d1 d2 : N) mem :
  (d1 + N.of_nat (length src1) <= d2 \/ d2 + N.of_nat (length src2) <= d1)%N ->
  copy src2 d2 (copy src1 d1 mem) = copy src1 d1 (copy src2 d2 mem).
Proof.
  intros Hdis. apply map_eq. intros a. rewrite !copy_lookup.
  repeat case_bool_decide; try done; lia.
Qed.

(** X10: two updates whose destination ranges do not overlap, in one
    buffer or in two, can be made in either order: the other order is not
    rejected either and leaves the same memory. *)
Theorem arrayBufferUpdate_disjoint_commute
    mem buffer1 buffer2 (data1 data2 : list byte) offset1 offset2 mem1 mem12 :
  (data buffer1 + offset1 + N.of_nat (length data1) <= data buffer2 + offset2 \/
   data buffer2 + offset2 + N.of_nat (length data2) <= data buffer1 + offset1)%N ->
  arrayBufferUpdate mem buffer1 data1 offset1 = inr mem1 ->
  arrayBufferUpdate mem1 buffer2 data2 offset2 = inr mem12 ->
  exists mem2,
    arrayBufferUpdate mem buffer2 data2 offset2 = inr mem2 /\
    arrayBufferUpdate mem2 buffer1 data1 offset1 = inr mem12.
Proof.
  unfold arrayBufferUpdate. intros Hdis.
  destruct (size buffer1 <? N.of_nat (length data1))%N; [ done | ].
  destruct (size buffer2 <? N.of_nat (length data2))%N; [ done | ].
  intros [= <-] [= <-]. eexists. split; [ reflexivity | ].
  f_equal. symmetry. by apply copy_commute.
Qed.

End Updates.

Section RoundTrip.
Context `{Jsi}.
Implicit Types (runtime : Runtime) (jsObj : Object) (mem : memory).

(** X11: on an ArrayBuffer whose [byteLength] property is the size of its
    block, an update that stays inside the block is read back by
    [arrayBufferToVector] as the old content with the bytes from [offset]
    on replaced by the vector; an update of the whole block at offset 0 is
    read back as the vector itself. *)
Theorem arrayBufferToVector_after_arrayBufferUpdate
    runtime mem jsObj block d (old data_ : list byte) (offset : N) :
  arrayBuffer runtime jsObj = Some block ->
  getProperty runtime jsObj "byteLength" = inr (number d) ->
  size_t_of d = size block ->
  arrayBufferToVector runtime mem jsObj = inr (Some old) ->
  (offset + N.of_nat (length data_) <= size block)%N ->
  exists mem',
    arrayBufferUpdate mem block data_ offset = inr mem' /\
    arrayBufferToVector runtime mem' jsObj =
      inr (Some (take (N.to_nat offset) old ++ data_ ++
                 drop (N.to_nat offset + length data_) old)) /\
    (offset = 0%N -> N.of_nat (length data_) = size block ->
     arrayBufferToVector runtime mem' jsObj = inr (Some data_)).
Proof.
  intros Hb Hp Hd Hold Hfit. unfold arrayBufferUpdate.
  destruct (N.ltb_spec (size block) (N.of_nat (length data_))) as [| _]; [ lia | ].
  eexists. split; [ reflexivity | ].
  revert Hold. unfold arrayBufferToVector. rewrite Hb, Hp. cbn. rewrite Hd.
  intros [= Hold]. apply range_Some in Hold as [Hlen Hold].
  assert (Hread : range (copy data_ (data block + offset) mem) (data block)
                    (N.to_nat (size block)) =
                  Some (take (N.to_nat offset) old ++ data_ ++
                        drop (N.to_nat offset + length data_) old)).
  { apply range_Some. split.
    - rewrite !length_app, length_take, length_drop. lia.
    - intros i b Hi. rewrite copy_lookup. case_bool_decide as Hin.
      + rewrite lookup_app_r in Hi by (rewrite length_take; lia).
        rewrite length_take in Hi. rewrite lookup_app_l in Hi by lia.
        rewrite <- Hi. f_equal. lia.
      + apply Hold. destruct (decide (i < N.to_nat offset)%nat) as [Hlt | Hge].
        * rewrite lookup_app_l in Hi by (rewrite length_take; lia).
          by rewrite lookup_take_lt in Hi by lia.
        * rewrite lookup_app_r in Hi by (rewrite length_take; lia).
          rewrite length_take in Hi.
          rewrite lookup_app_r in Hi by lia.
          rewrite lookup_drop in Hi. rewrite <- Hi. f_equal. lia. }
  split; [ by rewrite Hread | ].
  intros -> Hall. rewrite Hread. do 2 f_equal. cbn.
  rewrite drop_ge by lia. by rewrite app_nil_r.
Qed.

End RoundTrip.

Section Elements.
Implicit Types (mem : memory) (a first start d_first : N).

Lemma element_range mem first (n : nat) :
  vec_to_list <$> TypedArray.element mem first n = range mem first n.
Proof.
  revert first. induction n as [| n IH]; intros first; [ done | ].
  cbn [TypedArray.element range]. destruct (mem !! first) as [b |]; cbn; [ | done ].
  rewrite <- IH. by destruct (TypedArray.element mem (N.succ first) n).
Qed.

Lemma element_Some mem first (n : nat) (e : vec byte n) :
  range mem first n = Some (vec_to_list e) -> TypedArray.element mem first n = Some e.
Proof.
  rewrite <- element_range.
  destruct (TypedArray.element mem first n) as [e' |]; cbn; [ | done ].
  intros [= He]. f_equal. by apply vec_to_list_inj2.
Qed.

Lemma element_ext mem mem' first (n : nat) :
  (forall i : nat, (i < n)%nat ->
     mem' !! (first + N.of_nat i)%N = mem !! (first + N.of_nat i)%N) ->
  TypedArray.element mem' first n = TypedArray.element mem first n.
Proof.
  revert first. induction n as [| n IH]; intros first Hsame; [ done | ].
  cbn [TypedArray.element]. specialize (Hsame 0%nat ltac:(lia)) as H0.
  replace (first + N.of_nat 0)%N with first in H0 by lia. rewrite H0.
  rewrite IH; [ done | ]. intros i Hi.
  replace (N.succ first + N.of_nat i)%N with (first + N.of_nat (S i))%N by lia.
  apply Hsame. lia.
Qed.

Lemma copyElements_lookup_outside {n : nat} (src : list (vec byte n)) d_first mem a :
  (a < d_first \/ d_first + N.of_nat (length src * n) <= a)%N ->
  TypedArray.copyElements src d_first mem !! a = mem !! a.
Proof.
  revert d_first mem. induction src as [| e src IH]; intros d_first mem Ha; [ done | ].
  cbn [TypedArray.copyElements]. cbn [length] in Ha.
  rewrite IH by lia. apply copy_lookup_outside. rewrite length_vec_to_list. lia.
Qed.

Lemma rangeElements_copyElements {n : nat} (src : list (vec byte n)) d_first mem :
  TypedArray.rangeElements n (TypedArray.copyElements src d_first mem) d_first (length src)
  = Some src.
Proof.
  revert d_first mem. induction src as [| e src IH]; intros d_first mem; [ done | ].
  cbn [TypedArray.copyElements TypedArray.rangeElements length].
  rewrite IH. cbn.
  rewrite (element_ext (copy (vec_to_list e) d_first mem)).
  - rewrite (element_Some _ _ _ e); [ done | ].
    rewrite <- (length_vec_to_list e) at 2. apply range_of_reads.
    intros i b Hi. by apply copy_lookup_inside.
  - intros i Hi. apply copyElements_lookup_outside. lia.
Qed.

Lemma rangeElements_reads (n : nat) mem start (count : nat) (v : list (vec byte n)) :
  TypedArray.rangeElements n mem start count = Some v ->
  length v = count /\
  forall (i : nat) (e : vec byte n), v !! i = Some e ->
    range mem (start + N.of_nat (i * n)) n = Some (vec_to_list e).
Proof.
  revert start v. induction count as [| count IH]; intros start v; cbn [TypedArray.rangeElements].
  - intros [= <-]. split; [ done | ]. intros i e Hi. by rewrite lookup_nil in Hi.
  - destruct (TypedArray.element mem start n) as [e0 |] eqn:E0; cbn; [ | done ].
    destruct (TypedArray.rangeElements n mem (start + N.of_nat n) count) as [rest |] eqn:Er;
      cbn; [ | done ].
    intros [= <-]. apply IH in Er as [Hlen Hrest]. split; [ cbn; lia | ].
    intros [| i] e Hi; cbn in Hi.
    + injection Hi as <-. rewrite <- element_range.
      replace (start + N.of_nat (0 * n))%N with start by lia. by rewrite E0.
    + replace (start + N.of_nat (S i * n))%N with (start + N.of_nat n + N.of_nat (i * n))%N by lia.
      by apply Hrest.
Qed.

Lemma rangeElements_bytes mem start (count : nat) :
  TypedArray.rangeElements 1 mem start count =
  fmap (M := list) (fun b => [# b]) <$> range mem start count.
Proof.
  revert start. induction count as [| count IH]; intros start; [ done | ].
  cbn [TypedArray.rangeElements TypedArray.element range].
  destruct (mem !! start) as [b |]; cbn; [ | done ].
  replace (start + N.of_nat 1)%N with (N.succ start) by lia. rewrite IH.
  by destruct (range mem (N.succ start) count).
Qed.

End Elements.

Section TypedArrays.
Context `{Jsi}.
Implicit Types (runtime : Runtime) (this : Object) (mem : memory) (T : TypedArrayKind).

(** X12: [toVector] after an [update] that went through returns the
    vector the array was updated with, for every kind [T]. *)
Theorem toVector_after_update T runtime mem this (data_ : list (ContentType T)) mem' :
  TypedArray.update T runtime mem this data_ = inr mem' ->
  TypedArray.toVector T runtime mem' this = inr (Some data_).
Proof.
  unfold TypedArray.update, TypedArray.toVector.
  destruct (TypedArrayBase.size runtime this) as [e | count]; cbn; [ done | ].
  case_bool_decide as Hlen; [ done | ].
  destruct (TypedArrayBase.getBuffer runtime this) as [e | buffer]; cbn; [ done | ].
  destruct (TypedArrayBase.byteOffset runtime this) as [e | offset]; cbn; [ done | ].
  intros [= <-]. do 2 f_equal.
  assert (count = N.of_nat (length data_)) as ->.
  { destruct (decide (N.of_nat (length data_) = count)); [ done | by destruct Hlen ]. }
  rewrite Nat2N.id. apply rangeElements_copyElements.
Qed.

(** X13: [update] compares the number of elements with the [length]
    property before it looks for the buffer: a vector of another length is
    rejected with the JSError, attached buffer or not; a vector of the
    right length is rejected with the runtime_error of [getBuffer] when no
    ArrayBuffer is attached; otherwise the update goes through, whatever
    the size of the buffer's block. *)
Theorem update_checks_the_length_first
    T runtime mem this (data_ : list (ContentType T)) count offset :
  TypedArrayBase.size runtime this = inr count ->
  TypedArrayBase.byteOffset runtime this = inr offset ->
  (N.of_nat (length data_) <> count ->
   TypedArray.update T runtime mem this data_ =
     inl (JSError "TypedArray can only be updated with a vector of the same size")) /\
  (N.of_nat (length data_) = count ->
   match TypedArrayBase.hasBuffer runtime this with
   | inr true => exists mem', TypedArray.update T runtime mem this data_ = inr mem'
   | inr false =>
       TypedArray.update T runtime mem this data_ =
         inl (runtime_error "no ArrayBuffer attached")
   | inl e => TypedArray.update T runtime mem this data_ = inl e
   end).
Proof.
  intros Hsize Hoff. unfold TypedArray.update. rewrite Hsize. cbn. split.
  - intros Hne. by rewrite bool_decide_eq_true_2.
  - intros Heq. rewrite bool_decide_eq_false_2 by (by intros ?).
    unfold TypedArrayBase.hasBuffer, TypedArrayBase.getBuffer.
    destruct (getProperty runtime this "buffer") as [e | buffer]; cbn; [ done | ].
    destruct buffer as [| | | | | | o]; cbn; try done.
    unfold isArrayBuffer. destruct (arrayBuffer runtime o) as [block |] eqn:E.
    + rewrite bool_decide_eq_true_2 by eauto. cbn. rewrite Hoff. cbn. eauto.
    + rewrite bool_decide_eq_false_2; [ done | ]. by intros [? ?].
Qed.

(** X14: an [update] that went through changed the
    [data.size() * sizeof(ContentType<T>)] bytes from
    [buffer.data + byteOffset] on and nothing else. *)
Theorem update_writes_only_its_range
    T runtime mem this (data_ : list (ContentType T)) mem' :
  TypedArray.update T runtime mem this data_ = inr mem' ->
  exists block offset,
    TypedArrayBase.getBuffer runtime this = inr block /\
    TypedArrayBase.byteOffset runtime this = inr offset /\
    forall a : N,
      (a < data block + offset \/
       data block + offset + N.of_nat (length data_ * sizeof (typedArrayTypeMap T)) <= a)%N ->
      mem' !! a = mem !! a.
Proof.
  unfold TypedArray.update.
  destruct (TypedArrayBase.size runtime this) as [e | count]; cbn; [ done | ].
  case_bool_decide as Hlen; [ done | ].
  destruct (TypedArrayBase.getBuffer runtime this) as [e | block]; cbn; [ done | ].
  destruct (TypedArrayBase.byteOffset runtime this) as [e | offset]; cbn; [ done | ].
  intros [= <-]. exists block, offset. split_and!; try done.
  intros a Ha. by apply copyElements_lookup_outside.
Qed.

(** X16: the vector [toVector] returns has as many elements as the
    [length] property says, and element [i] of it is made of the
    [sizeof(ContentType<T>)] bytes at
    [buffer.data + byteOffset + i * sizeof(ContentType<T>)]; the size of
    the buffer's block is not looked at. *)
Theorem toVector_reads_from_the_byte_offset
    T runtime mem this (v : list (ContentType T)) :
  TypedArray.toVector T runtime mem this = inr (Some v) ->
  exists block offset count,
    TypedArrayBase.getBuffer runtime this = inr block /\
    TypedArrayBase.byteOffset runtime this = inr offset /\
    TypedArrayBase.size runtime this = inr count /\
    N.of_nat (length v) = count /\
    forall (i j : nat) (e : ContentType T) b,
      v !! i = Some e -> vec_to_list e !! j = Some b ->
      mem !! (data block + offset + N.of_nat (i * sizeof (typedArrayTypeMap T)) + N.of_nat j)%N
      = Some b.
Proof.
  unfold TypedArray.toVector.
  destruct (TypedArrayBase.getBuffer runtime this) as [e | block]; cbn; [ done | ].
  destruct (TypedArrayBase.byteOffset runtime this) as [e | offset]; cbn; [ done | ].
  destruct (TypedArrayBase.size runtime this) as [e | count]; cbn; [ done | ].
  intros [= Hr]. apply rangeElements_reads in Hr as [Hlen Hv].
  exists block, offset, count. split_and!; try done; [ unfold ContentType in *; lia | ].
  intros i j e b Hi Hj. apply Hv in Hi. apply range_reads in Hi as [_ Hi]. by apply Hi.
Qed.

(** X15: a [Uint8Array] that starts at offset 0 of its buffer and has as
    many elements as the buffer has bytes is read by [toVector] as the
    bytes [arrayBufferToVector] reads from the buffer itself, one byte an
    element. *)
Theorem toVector_of_whole_buffer runtime mem this bufferObj block d :
  getProperty runtime this "buffer" = inr (object bufferObj) ->
  arrayBuffer runtime bufferObj = Some block ->
  TypedArrayBase.byteOffset runtime this = inr 0%N ->
  getProperty runtime this "length" = inr (number d) ->
  getProperty runtime bufferObj "byteLength" = inr (number d) ->
  exists bytes,
    arrayBufferToVector runtime mem bufferObj = inr bytes /\
    TypedArray.toVector Uint8Array runtime mem this =
      inr (fmap (M := list) (fun b => [# b]) <$> bytes).
Proof.
  intros Hbuf Hblock Hoff Hlen Hbl.
  unfold TypedArray.toVector, TypedArrayBase.getBuffer, TypedArrayBase.size, arrayBufferToVector.
  rewrite Hbuf. cbn. rewrite Hblock, Hoff, Hlen, Hbl. cbn.
  replace (data block + 0)%N with (data block) by lia.
  eexists. split; [ reflexivity | ]. f_equal. apply rangeElements_bytes.
Qed.

End TypedArrays.

(** ** The properties on the sample runtime *)
Section OnTheSampleRuntime.
Import SampleRuntime.
#[local] Existing Instance sampleJsi.

Lemma as_is_decided_by_the_constructor_name_witness :
  (TypedArrayBase.as_ false Uint8Array sampleRuntime sampleRuntime 6%N = Returned 6%N <->
     "Uint8Array" = getTypedArrayConstructorName Uint8Array) /\
  (TypedArrayBase.as_ false Uint8Array sampleRuntime sampleRuntime 6%N =
     Thrown (JSError "Object is not a TypedArray") <->
     exists kind, kind <> Uint8Array /\ "Uint8Array" = getTypedArrayConstructorName kind) /\
  (TypedArrayBase.as_ false Uint8Array sampleRuntime sampleRuntime 6%N =
     Thrown (runtime_error "unknown type") <->
     "Uint8Array" ∉ getTypedArrayConstructorName <$> allKinds).
Proof.
  apply (as_is_decided_by_the_constructor_name false Uint8Array sampleRuntime sampleRuntime
           6%N 3%N 4%N "Uint8Array"); [ reflexivity | reflexivity | reflexivity | ].
  right. reflexivity.
Defined.

(** A plain object is no view, and [getTypedArray] wraps it all the same;
    [as<T>] then ends in the runtime_error of the name table. *)
Example plain_object_is_wrapped :
  isTypedArray sampleRuntime 7%N = inr false /\
  getTypedArray sampleRuntime 7%N = inr 7%N /\
  TypedArrayBase.as_ true Uint8Array sampleRuntime sampleRuntime 7%N =
    Thrown (runtime_error "unknown type").
Proof. split_and!; reflexivity. Qed.

(** Object 6 is a [Uint8Array] when [as<Uint8Array>] tests it and has the
    prototype of [Int16Array] when the assertion looks again: the debug
    build ends in [abort()], the release build returns the object. *)
Example changed_prototype_fails_the_assertion :
  TypedArrayBase.as_ false Uint8Array sampleRuntime reprototyped 6%N = Aborted /\
  TypedArrayBase.as_ true Uint8Array sampleRuntime reprototyped 6%N = Returned 6%N.
Proof. split; reflexivity. Qed.

Lemma arrayBufferUpdate_writes_only_its_range_witness :
  (forall a : N,
      (a < 100 + 1 \/ 100 + 1 + N.of_nat (length ["x"%byte; "y"%byte]) <= a)%N ->
      copy ["x"%byte; "y"%byte] 101 sampleMemory !! a = sampleMemory !! a) /\
  (["x"%byte; "y"%byte] = [] -> copy ["x"%byte; "y"%byte] 101 sampleMemory = sampleMemory).
Proof.
  apply (arrayBufferUpdate_writes_only_its_range sampleMemory
           {| data := 100; size := 4 |} ["x"%byte; "y"%byte] 1).
  reflexivity.
Defined.

Lemma arrayBufferUpdate_last_write_wins_witness :
  arrayBufferUpdate sampleMemory {| data := 100; size := 4 |} ["p"%byte; "q"%byte] 1 =
  inr (copy ["p"%byte; "q"%byte] 101 (copy ["x"%byte; "y"%byte] 101 sampleMemory)).
Proof.
  apply (arrayBufferUpdate_last_write_wins sampleMemory {| data := 100; size := 4 |}
           ["x"%byte; "y"%byte] ["p"%byte; "q"%byte] 1
           (copy ["x"%byte; "y"%byte] 101 sampleMemory)); reflexivity.
Defined.

Lemma arrayBufferUpdate_disjoint_commute_witness :
  exists mem2,
    arrayBufferUpdate sampleMemory {| data := 100; size := 4 |} ["p"%byte; "q"%byte] 2 =
      inr mem2 /\
    arrayBufferUpdate mem2 {| data := 100; size := 4 |} ["x"%byte; "y"%byte] 0 =
      inr (copy ["p"%byte; "q"%byte] 102 (copy ["x"%byte; "y"%byte] 100 sampleMemory)).
Proof.
  apply (arrayBufferUpdate_disjoint_commute sampleMemory
           {| data := 100; size := 4 |} {| data := 100; size := 4 |}
           ["x"%byte; "y"%byte] ["p"%byte; "q"%byte] 0 2
           (copy ["x"%byte; "y"%byte] 100 sampleMemory)).
  - left. cbn. lia.
  - reflexivity.
  - reflexivity.
Defined.

Lemma arrayBufferToVector_after_arrayBufferUpdate_witness :
  exists mem',
    arrayBufferUpdate sampleMemory {| data := 100; size := 4 |} ["x"%byte; "y"%byte] 1 =
      inr mem' /\
    arrayBufferToVector sampleRuntime mem' 5%N =
      inr (Some (take (N.to_nat 1) ["a"%byte; "b"%byte; "c"%byte; "d"%byte] ++
                 ["x"%byte; "y"%byte] ++
                 drop (N.to_nat 1 + length ["x"%byte; "y"%byte])
                      ["a"%byte; "b"%byte; "c"%byte; "d"%byte])) /\
    (1%N = 0%N -> N.of_nat (length ["x"%byte; "y"%byte]) = 4%N ->
     arrayBufferToVector sampleRuntime mem' 5%N = inr (Some ["x"%byte; "y"%byte])).
Proof.
  apply (arrayBufferToVector_after_arrayBufferUpdate sampleRuntime sampleMemory 5%N
           {| data := 100; size := 4 |} 4%N).
  - reflexivity.
  - reflexivity.
  - reflexivity.
  - vm_compute. reflexivity.
  - cbn. lia.
Defined.

Lemma toVector_after_update_witness :
  TypedArray.toVector Int16Array sampleRuntime
    (TypedArray.copyElements [ [# "x"%byte; "y"%byte] ] 102 sampleMemory) 10%N =
  inr (Some [ [# "x"%byte; "y"%byte] ]).
Proof.
  apply (toVector_after_update Int16Array sampleRuntime sampleMemory 10%N).
  reflexivity.
Defined.

Lemma update_checks_the_length_first_witness :
  (N.of_nat (length [ [# "x"%byte; "y"%byte] ]) <> 1%N ->
   TypedArray.update Int16Array sampleRuntime sampleMemory 10%N [ [# "x"%byte; "y"%byte] ] =
     inl (JSError "TypedArray can only be updated with a vector of the same size")) /\
  (N.of_nat (length [ [# "x"%byte; "y"%byte] ]) = 1%N ->
   match TypedArrayBase.hasBuffer sampleRuntime 10%N with
   | inr true =>
       exists mem',
         TypedArray.update Int16Array sampleRuntime sampleMemory 10%N
           [ [# "x"%byte; "y"%byte] ] = inr mem'
   | inr false =>
       TypedArray.update Int16Array sampleRuntime sampleMemory 10%N
         [ [# "x"%byte; "y"%byte] ] = inl (runtime_error "no ArrayBuffer attached")
   | inl e =>
       TypedArray.update Int16Array sampleRuntime sampleMemory 10%N
         [ [# "x"%byte; "y"%byte] ] = inl e
   end).
Proof.
  apply (update_checks_the_length_first Int16Array sampleRuntime sampleMemory 10%N
           [ [# "x"%byte; "y"%byte] ] 1%N 2%N); reflexivity.
Defined.

Lemma update_writes_only_its_range_witness :
  exists block offset,
    TypedArrayBase.getBuffer sampleRuntime 10%N = inr block /\
    TypedArrayBase.byteOffset sampleRuntime 10%N = inr offset /\
    forall a : N,
      (a < data block + offset \/
       data block + offset +
         N.of_nat (length [ [# "x"%byte; "y"%byte] ] * sizeof (typedArrayTypeMap Int16Array))
       <= a)%N ->
      TypedArray.copyElements [ [# "x"%byte; "y"%byte] ] 102 sampleMemory !! a =
      sampleMemory !! a.
Proof.
  apply (update_writes_only_its_range Int16Array sampleRuntime sampleMemory 10%N
           [ [# "x"%byte; "y"%byte] ]).
  reflexivity.
Defined.

Lemma toVector_reads_from_the_byte_offset_witness :
  exists block offset count,
    TypedArrayBase.getBuffer sampleRuntime 10%N = inr block /\
    TypedArrayBase.byteOffset sampleRuntime 10%N = inr offset /\
    TypedArrayBase.size sampleRuntime 10%N = inr count /\
    N.of_nat (length [ [# "c"%byte; "d"%byte] ]) = count /\
    forall (i j : nat) (e : ContentType Int16Array) b,
      [ [# "c"%byte; "d"%byte] ] !! i = Some e -> vec_to_list e !! j = Some b ->
      sampleMemory !!
        (data block + offset + N.of_nat (i * sizeof (typedArrayTypeMap Int16Array)) + N.of_nat j)%N
      = Some b.
Proof.
  apply (toVector_reads_from_the_byte_offset Int16Array sampleRuntime sampleMemory 10%N).
  vm_compute. reflexivity.
Defined.

Lemma toVector_of_whole_buffer_witness :
  exists bytes,
    arrayBufferToVector sampleRuntime sampleMemory 5%N = inr bytes /\
    TypedArray.toVector Uint8Array sampleRuntime sampleMemory 6%N =
      inr (fmap (M := list) (fun b => [# b]) <$> bytes).
Proof.
  apply (toVector_of_whole_buffer sampleRuntime sampleMemory 6%N 5%N
           {| data := 100; size := 4 |} 4%N); reflexivity.
Defined.

End OnTheSampleRuntime.

End TypedArrayObjectsFacts.
